(** * CPU code generation backend: a shallow embedding of codegen_cpu.cc

    The development follows the structure of [CodeGenCPU]: the generator is a
    state (module under construction, insertion point, variable bindings,
    parallel environment, handle cache) threaded through the lowering
    routines; a failed [ICHECK] or [LOG(FATAL)] aborts the whole lowering.

    Instructions that have an effect or transfer control (alloca, load, store,
    call, phi, br, ret) are recorded in the basic block at the insertion
    point.  Instructions that only compute (casts, address computations,
    comparisons, arithmetic) are identified with the value they define. *)

From Stdlib Require Import ZArith List String Lia Bool.
From stdpp Require Import base option list gmap strings.

Local Open Scope string_scope.
Local Open Scope list_scope.
Local Open Scope Z_scope.

Set Warnings "-register-all".

(** ** Data types of the tensor IR *)

(** Modelled from the spec: the [DataType] class lives in
    tvm/runtime/data_type.h, which is not part of the sources.  A data type
    is a type code, a bit width and a lane count; "boolean" is the 1-bit
    unsigned integer, "handle" the opaque pointer. *)
Inductive DLDataTypeCode := kDLInt | kDLUInt | kDLFloat | kDLOpaqueHandle | kDLBfloat.

Record DataType := mkDataType { code : DLDataTypeCode; bits : Z; lanes : Z }.

Definition code_eqb (a b : DLDataTypeCode) : bool :=
  match a, b with
  | kDLInt, kDLInt | kDLUInt, kDLUInt | kDLFloat, kDLFloat
  | kDLOpaqueHandle, kDLOpaqueHandle | kDLBfloat, kDLBfloat => true
  | _, _ => false
  end.

Definition DataType_eqb (a b : DataType) : bool :=
  code_eqb (code a) (code b) && (bits a =? bits b) && (lanes a =? lanes b).

Definition is_void (t : DataType) : bool :=
  code_eqb (code t) kDLOpaqueHandle && (bits t =? 0) && (lanes t =? 0).
Definition is_bool (t : DataType) : bool := code_eqb (code t) kDLUInt && (bits t =? 1).
Definition is_int (t : DataType) : bool := code_eqb (code t) kDLInt.
Definition is_uint (t : DataType) : bool := code_eqb (code t) kDLUInt.
Definition is_float (t : DataType) : bool := code_eqb (code t) kDLFloat.
Definition is_handle (t : DataType) : bool :=
  code_eqb (code t) kDLOpaqueHandle && negb (is_void t).

Definition Int (b : Z) : DataType := mkDataType kDLInt b 1.
Definition UInt (b : Z) : DataType := mkDataType kDLUInt b 1.
Definition Float (b : Z) : DataType := mkDataType kDLFloat b 1.
Definition Bool : DataType := UInt 1.
Definition Handle : DataType := mkDataType kDLOpaqueHandle 64 1.

(** ** Types and values of the code-generation toolkit *)

Inductive LType :=
| TVoid
| TInt (width : Z)
| TFloat (width : Z)
| TPointer (pointee : LType)
| TStruct (fields : list LType)
| TFunctionTy (ret : LType) (params : list LType).

Definition t_void_ := TVoid.
Definition t_int_ := TInt 32.
Definition t_int8_ := TInt 8.
Definition t_int16_ := TInt 16.
Definition t_int32_ := TInt 32.
Definition t_int64_ := TInt 64.
Definition t_char_ := TInt 8.
Definition t_float64_ := TFloat 64.
Definition llvmGetPointerTo (t : LType) : LType := TPointer t.
Definition t_void_p_ := llvmGetPointerTo t_int8_.

Fixpoint LType_eqb (a b : LType) {struct a} : bool :=
  let fix all2 (xs ys : list LType) {struct xs} : bool :=
    match xs, ys with
    | [], [] => true
    | x :: xs', y :: ys' => LType_eqb x y && all2 xs' ys'
    | _, _ => false
    end in
  match a, b with
  | TVoid, TVoid => true
  | TInt w, TInt w' => w =? w'
  | TFloat w, TFloat w' => w =? w'
  | TPointer p, TPointer p' => LType_eqb p p'
  | TStruct fs, TStruct fs' => all2 fs fs'
  | TFunctionTy r ps, TFunctionTy r' ps' => LType_eqb r r' && all2 ps ps'
  | _, _ => false
  end.

Definition isPointerTy (t : LType) : bool :=
  match t with TPointer _ => true | _ => false end.

Definition getStructElementType (t : LType) (i : nat) : LType :=
  match t with
  | TStruct fs => nth i fs TVoid
  | _ => TVoid
  end.

Inductive Predicate := ICMP_EQ | ICMP_NE | ICMP_SLT | ICMP_ULT.
Inductive BinaryOps := OpAdd | OpSub | OpMul | OpSDiv.

Inductive Value :=
| ConstantInt (ty : LType) (v : Z)
| ConstantNull (ty : LType)
| ConstantString (s : string)
| InstResult (id : nat) (ty : LType)
| Argument (fn : nat) (idx : nat) (ty : LType)
| GlobalValue (idx : nat) (valty : LType)
| FunctionValue (fn : nat) (fty : LType)
| PointerCast (v : Value) (ty : LType)
| InBoundsGEP (ty : LType) (base : Value) (idxs : list Value)
| ICmp (p : Predicate) (a b : Value)
| BinOp (op : BinaryOps) (a b : Value)
| Select (c a b : Value)
| IntCast (v : Value) (ty : LType).

Fixpoint getType (v : Value) : LType :=
  match v with
  | ConstantInt ty _ => ty
  | ConstantNull ty => ty
  | ConstantString _ => llvmGetPointerTo t_char_
  | InstResult _ ty => ty
  | Argument _ _ ty => ty
  | GlobalValue _ valty => llvmGetPointerTo valty
  | FunctionValue _ fty => llvmGetPointerTo fty
  | PointerCast _ ty => ty
  | InBoundsGEP _ base _ => getType base
  | ICmp _ _ _ => TInt 1
  | BinOp _ a _ => getType a
  | Select _ a _ => getType a
  | IntCast _ ty => ty
  end.

Definition ConstInt32 (v : Z) : Value := ConstantInt t_int32_ v.
Definition ConstInt64 (v : Z) : Value := ConstantInt t_int64_ v.

(** Instructions recorded in basic blocks.  Blocks are named by their index in
    the module's block arena. *)
Inductive Instruction :=
| Alloca (id : nat) (ty : LType) (num : Value)
| Load (id : nat) (ty : LType) (addr : Value)
| Store (val addr : Value)
| Call (id : nat) (callee : Value) (args : list Value)
| PHI (id : nat) (ty : LType) (incoming : list (Value * nat))
| Br (dest : nat)
| CondBr (cond : Value) (iftrue iffalse : nat)
| Ret (v : option Value).

Record BasicBlock := mkBlock {
  bb_name : string;
  bb_parent : nat;
  bb_insts : list Instruction
}.

Inductive Linkage := ExternalLinkage | InternalLinkage | PrivateLinkage.

Record Function := mkFunction {
  fn_name : string;
  fn_type : LType;
  fn_linkage : Linkage
}.

Record GlobalVariable := mkGlobal {
  gv_name : string;
  gv_type : LType;
  gv_linkage : Linkage;
  gv_init : Value
}.

(** ** Variables of the IR

    The generator keys its variable map by node identity.  Variables of the
    input program carry an identity chosen by the IR producer ([inl]); the
    variables the generator creates itself (task id, task count) are numbered
    from its own counter ([inr]) and can never coincide with the former. *)
Record Var := mkVar {
  vnode : nat + nat;
  name_hint : string;
  vdtype : DataType
}.

Record ParallelEnv := mkParallelEnv {
  task_id : option Var;
  num_task : option Var;
  stride_pattern : bool;
  in_parallel_loop : bool;
  parallel_loop_count : Z;
  penv : option Value
}.

(** A default-constructed environment: nothing defined, no handle to a
    synchronization block, no loop seen. *)
Definition ParallelEnv_default : ParallelEnv :=
  mkParallelEnv None None false false 0 None.

(** ** The generator state *)

(** The handles to the runtime entry points, fixed by [Init]: each is either a
    declared function ([f_...]) or a context cell holding its address
    ([gv_...]); [pointer_bytes] is the pointer width of the target. *)
Record RuntimeTable := mkRuntime {
  gv_mod_ctx_ : Value;
  f_tvm_ffi_func_call_ : option Value;
  gv_tvm_ffi_func_call_ : option Value;
  f_tvm_get_func_from_env_ : option Value;
  gv_tvm_get_func_from_env_ : option Value;
  f_tvm_parallel_launch_ : option Value;
  gv_tvm_parallel_launch_ : option Value;
  f_tvm_parallel_barrier_ : option Value;
  gv_tvm_parallel_barrier_ : option Value;
  pointer_bytes : Z
}.

Record CodeGenCPU := mkCodeGen {
  functions : list Function;
  globals : list GlobalVariable;
  blocks : list BasicBlock;
  next_inst : nat;
  next_var : nat;
  function_ : nat;
  insert_block : nat;
  insert_pos : option nat;
  var_map_ : gmap (nat + nat) Value;
  parallel_env_ : ParallelEnv;
  func_handle_map_ : gmap string Value;
  runtime_ : RuntimeTable
}.

(** Field updates. *)
Definition set_functions (x : list Function) (s : CodeGenCPU) : CodeGenCPU :=
  mkCodeGen x (globals s) (blocks s) (next_inst s) (next_var s) (function_ s)
    (insert_block s) (insert_pos s) (var_map_ s) (parallel_env_ s) (func_handle_map_ s)
    (runtime_ s).
Definition set_globals (x : list GlobalVariable) (s : CodeGenCPU) : CodeGenCPU :=
  mkCodeGen (functions s) x (blocks s) (next_inst s) (next_var s) (function_ s)
    (insert_block s) (insert_pos s) (var_map_ s) (parallel_env_ s) (func_handle_map_ s)
    (runtime_ s).
Definition set_blocks (x : list BasicBlock) (s : CodeGenCPU) : CodeGenCPU :=
  mkCodeGen (functions s) (globals s) x (next_inst s) (next_var s) (function_ s)
    (insert_block s) (insert_pos s) (var_map_ s) (parallel_env_ s) (func_handle_map_ s)
    (runtime_ s).
Definition set_next_inst (x : nat) (s : CodeGenCPU) : CodeGenCPU :=
  mkCodeGen (functions s) (globals s) (blocks s) x (next_var s) (function_ s)
    (insert_block s) (insert_pos s) (var_map_ s) (parallel_env_ s) (func_handle_map_ s)
    (runtime_ s).
Definition set_next_var (x : nat) (s : CodeGenCPU) : CodeGenCPU :=
  mkCodeGen (functions s) (globals s) (blocks s) (next_inst s) x (function_ s)
    (insert_block s) (insert_pos s) (var_map_ s) (parallel_env_ s) (func_handle_map_ s)
    (runtime_ s).
Definition set_function_ (x : nat) (s : CodeGenCPU) : CodeGenCPU :=
  mkCodeGen (functions s) (globals s) (blocks s) (next_inst s) (next_var s) x
    (insert_block s) (insert_pos s) (var_map_ s) (parallel_env_ s) (func_handle_map_ s)
    (runtime_ s).
Definition set_insert_block (x : nat) (s : CodeGenCPU) : CodeGenCPU :=
  mkCodeGen (functions s) (globals s) (blocks s) (next_inst s) (next_var s)
    (function_ s) x (insert_pos s) (var_map_ s) (parallel_env_ s) (func_handle_map_ s)
    (runtime_ s).
Definition set_insert_pos (x : option nat) (s : CodeGenCPU) : CodeGenCPU :=
  mkCodeGen (functions s) (globals s) (blocks s) (next_inst s) (next_var s)
    (function_ s) (insert_block s) x (var_map_ s) (parallel_env_ s) (func_handle_map_ s)
    (runtime_ s).
Definition set_var_map_ (x : gmap (nat + nat) Value) (s : CodeGenCPU) : CodeGenCPU :=
  mkCodeGen (functions s) (globals s) (blocks s) (next_inst s) (next_var s)
    (function_ s) (insert_block s) (insert_pos s) x (parallel_env_ s)
    (func_handle_map_ s) (runtime_ s).
Definition set_parallel_env_ (x : ParallelEnv) (s : CodeGenCPU) : CodeGenCPU :=
  mkCodeGen (functions s) (globals s) (blocks s) (next_inst s) (next_var s)
    (function_ s) (insert_block s) (insert_pos s) (var_map_ s) x (func_handle_map_ s)
    (runtime_ s).
Definition set_func_handle_map_ (x : gmap string Value) (s : CodeGenCPU) : CodeGenCPU :=
  mkCodeGen (functions s) (globals s) (blocks s) (next_inst s) (next_var s)
    (function_ s) (insert_block s) (insert_pos s) (var_map_ s) (parallel_env_ s) x
    (runtime_ s).

(** ** The lowering monad: state plus fatal errors *)

Inductive Result (A : Type) :=
| Ok (a : A) (s : CodeGenCPU)
| Fatal (msg : string).
Arguments Ok {A} a s.
Arguments Fatal {A} msg.

Definition M (A : Type) : Type := CodeGenCPU -> Result A.

#[global] Instance M_ret : MRet M := fun A a s => Ok a s.
#[global] Instance M_bind : MBind M := fun A B k m s =>
  match m s with
  | Ok a s' => k a s'
  | Fatal msg => Fatal msg
  end.

Definition fatal {A} (msg : string) : M A := fun _ => Fatal msg.
Definition get : M CodeGenCPU := fun s => Ok s s.
Definition gets {A} (f : CodeGenCPU -> A) : M A := fun s => Ok (f s) s.
Definition modify (f : CodeGenCPU -> CodeGenCPU) : M unit := fun s => Ok tt (f s).

Definition isSome {A} (o : option A) : bool := match o with Some _ => true | None => false end.

Definition ICHECK (c : bool) (msg : string) : M unit :=
  if c then mret tt else fatal msg.

(** ** Builder primitives *)

Definition fresh_inst : M nat :=
  fun s => Ok (next_inst s) (set_next_inst (S (next_inst s)) s).

(** [BasicBlock::Create(ctx, name, f)]: a new empty block appended to [f]. *)
Definition BasicBlock_Create (name : string) (f : nat) : M nat :=
  fun s => Ok (length (blocks s)) (set_blocks (blocks s ++ [mkBlock name f []]) s).

Definition SetInsertPoint (b : nat) : M unit :=
  modify (fun s => set_insert_pos None (set_insert_block b s)).

Definition GetInsertBlock : M nat := gets insert_block.

Definition insert_at {A} (k : nat) (x : A) (l : list A) : list A :=
  take k l ++ x :: drop k l.

(** Insert one instruction at the insertion point: at the end of the block,
    or before position [k] when the point was set inside the block. *)
Definition emit (i : Instruction) : M unit :=
  modify (fun s =>
    match insert_pos s with
    | None =>
        set_blocks (alter (fun b => mkBlock (bb_name b) (bb_parent b) (bb_insts b ++ [i]))
                          (insert_block s) (blocks s)) s
    | Some k =>
        set_insert_pos (Some (S k))
          (set_blocks (alter (fun b => mkBlock (bb_name b) (bb_parent b)
                                                (insert_at k i (bb_insts b)))
                             (insert_block s) (blocks s)) s)
    end).

Definition CreateAlloca (ty : LType) (num : Value) : M Value :=
  id ← fresh_inst; emit (Alloca id ty num);; mret (InstResult id (llvmGetPointerTo ty)).

Definition CreateLoad (ty : LType) (addr : Value) : M Value :=
  id ← fresh_inst; emit (Load id ty addr);; mret (InstResult id ty).

Definition CreateStore (val addr : Value) : M unit := emit (Store val addr).

Definition getReturnType (fty : LType) : LType :=
  match fty with TFunctionTy r _ => r | _ => TVoid end.

Definition CreateCall (fty : LType) (callee : Value) (args : list Value) : M Value :=
  id ← fresh_inst; emit (Call id callee args);; mret (InstResult id (getReturnType fty)).

Definition CreateBr (dest : nat) : M unit := emit (Br dest).
Definition CreateCondBr (c : Value) (iftrue iffalse : nat) : M unit :=
  emit (CondBr c iftrue iffalse).
Definition CreateRet (v : Value) : M unit := emit (Ret (Some v)).

Definition CreateICmpEQ (a b : Value) : Value := ICmp ICMP_EQ a b.
Definition CreateICmpNE (a b : Value) : Value := ICmp ICMP_NE a b.
Definition CreatePointerCast (v : Value) (ty : LType) : Value := PointerCast v ty.
Definition CreateInBoundsGEP (ty : LType) (base : Value) (idxs : list Value) : Value :=
  InBoundsGEP ty base idxs.

(** [CreatePHI] records a phi without incoming edges; [addIncoming] extends the
    phi that carries the given id. *)
Definition CreatePHI (ty : LType) : M Value :=
  id ← fresh_inst; emit (PHI id ty []);; mret (InstResult id ty).

Definition add_incoming_inst (phi : nat) (v : Value) (b : nat) (i : Instruction) : Instruction :=
  match i with
  | PHI id ty inc => if Nat.eqb id phi then PHI id ty (inc ++ [(v, b)]) else i
  | _ => i
  end.

Definition addIncoming (phi : Value) (v : Value) (b : nat) : M unit :=
  match phi with
  | InstResult id _ =>
      modify (fun s => set_blocks
        (map (fun bb => mkBlock (bb_name bb) (bb_parent bb)
                                (map (add_incoming_inst id v b) (bb_insts bb)))
             (blocks s)) s)
  | _ => mret tt
  end.

(** The entry block of a function is the first block created in it. *)
Definition getEntryBlock (f : nat) (bs : list BasicBlock) : option nat :=
  fst <$> list_find (fun b => bb_parent b = f) bs.

(** Run [m] with the insertion point at the start of the current function's
    entry block, then return to the end of the block that was current. *)
Definition WithFunctionEntry {A} (m : M A) : M A :=
  current ← GetInsertBlock;
  s ← get;
  match getEntryBlock (function_ s) (blocks s) with
  | None => fatal "function has no entry block"
  | Some entry =>
      modify (fun s => set_insert_pos (Some 0%nat) (set_insert_block entry s));;
      result ← m;
      SetInsertPoint current;;
      mret result
  end.

(** ** CheckCallSuccess *)

Definition CheckCallSuccess (retcode : Value) : M nat :=
  f ← gets function_;
  fail_block ← BasicBlock_Create "call_fail" f;
  end_block ← BasicBlock_Create "call_end" f;
  let succ := CreateICmpEQ retcode (ConstantInt t_int_ 0) in
  CreateCondBr succ end_block fail_block;;
  SetInsertPoint fail_block;;
  CreateRet retcode;;
  SetInsertPoint end_block;;
  mret end_block.

(** ** Run-time meaning of the emitted instructions

    Integers are kept as their [w]-bit pattern, [0 <= z < 2^w]; signed
    operations read the pattern in two's complement, and every result is
    reduced modulo [2^w] again.  Memory is addressed by an allocation and a
    path of indices into it; a cell holds the bytes last written there. *)

Definition unsigned_ (w z : Z) : Z := z mod 2 ^ w.
Definition signed_ (w z : Z) : Z :=
  let u := z mod 2 ^ w in if u <? 2 ^ (w - 1) then u else u - 2 ^ w.

Definition int_width (t : LType) : Z :=
  match t with TInt w => w | TFloat w => w | _ => 0 end.

Inductive RVal :=
| RInt (z : Z)
| RNull
| RPtr (base : nat + nat) (rpath : list Z)
| RFunc (f : nat)
| RStr (s : string).

Inductive MemVal :=
| MByte (b : Z)
| MFrag (v : RVal) (k : nat).

Record Machine := mkMachine {
  regs : gmap nat RVal;
  args : list RVal;
  mem : gmap ((nat + nat) * list Z) (list MemVal);
  next_alloc : nat;
  ptr_bytes : Z
}.

Definition set_reg (id : nat) (v : RVal) (m : Machine) : Machine :=
  mkMachine (<[id := v]> (regs m)) (args m) (mem m) (next_alloc m) (ptr_bytes m).
Definition set_mem (mm : gmap ((nat + nat) * list Z) (list MemVal)) (m : Machine) : Machine :=
  mkMachine (regs m) (args m) mm (next_alloc m) (ptr_bytes m).

(** Address computation: the first index moves within the current level, the
    remaining ones descend into the aggregate.  Paths are kept innermost
    component first. *)
Definition gep_path (rpath : list Z) (idxs : list Z) : list Z :=
  match idxs, rpath with
  | i0 :: rest, h :: t => rev rest ++ (h + i0) :: t
  | _, _ => rpath
  end.

Definition truth_of (v : RVal) : option bool :=
  match v with RInt z => Some (negb (z =? 0)) | _ => None end.

Definition RVal_ptr_eqb (a b : RVal) : option bool :=
  match a, b with
  | RNull, RNull => Some true
  | RNull, (RPtr _ _ | RFunc _ | RStr _) | (RPtr _ _ | RFunc _ | RStr _), RNull => Some false
  | RPtr b1 p1, RPtr b2 p2 => Some (bool_decide (b1 = b2 /\ p1 = p2))
  | _, _ => None
  end.

Definition eval_icmp (p : Predicate) (w : Z) (a b : RVal) : option RVal :=
  let of_bool (c : bool) := RInt (if c then 1 else 0) in
  match a, b with
  | RInt x, RInt y =>
      Some (of_bool match p with
                    | ICMP_EQ => x =? y
                    | ICMP_NE => negb (x =? y)
                    | ICMP_SLT => signed_ w x <? signed_ w y
                    | ICMP_ULT => x <? y
                    end)
  | _, _ =>
      match p with
      | ICMP_EQ => of_bool <$> RVal_ptr_eqb a b
      | ICMP_NE => (fun c => of_bool (negb c)) <$> RVal_ptr_eqb a b
      | ICMP_SLT | ICMP_ULT => None
      end
  end.

Definition eval_binop (op : BinaryOps) (w : Z) (x y : Z) : option Z :=
  match op with
  | OpAdd => Some (unsigned_ w (x + y))
  | OpSub => Some (unsigned_ w (x - y))
  | OpMul => Some (unsigned_ w (x * y))
  | OpSDiv => if signed_ w y =? 0 then None
              else Some (unsigned_ w (Z.quot (signed_ w x) (signed_ w y)))
  end.

Fixpoint eval_value (m : Machine) (v : Value) {struct v} : option RVal :=
  match v with
  | ConstantInt ty z => Some (RInt (unsigned_ (int_width ty) z))
  | ConstantNull ty => Some (if isPointerTy ty then RNull else RInt 0)
  | ConstantString s => Some (RStr s)
  | InstResult id _ => regs m !! id
  | Argument _ i _ => args m !! i
  | GlobalValue i _ => Some (RPtr (inl i) [0])
  | FunctionValue f _ => Some (RFunc f)
  | PointerCast p _ => eval_value m p
  | InBoundsGEP _ base idxs =>
      b ← eval_value m base;
      ixs ← mapM (fun i => x ← eval_value m i;
                          match x with
                          | RInt z => Some (signed_ (int_width (getType i)) z)
                          | _ => None
                          end) idxs;
      match b with
      | RPtr bs rp => Some (RPtr bs (gep_path rp ixs))
      | _ => None
      end
  | ICmp p a b =>
      x ← eval_value m a; y ← eval_value m b;
      eval_icmp p (int_width (getType a)) x y
  | BinOp op a b =>
      x ← eval_value m a; y ← eval_value m b;
      match x, y with
      | RInt x, RInt y => RInt <$> eval_binop op (int_width (getType a)) x y
      | _, _ => None
      end
  | Select c a b =>
      cv ← eval_value m c;
      match truth_of cv with
      | Some true => eval_value m a
      | Some false => eval_value m b
      | None => None
      end
  | IntCast a ty =>
      x ← eval_value m a;
      match x with
      | RInt z => Some (RInt (unsigned_ (int_width ty) (signed_ (int_width (getType a)) z)))
      | _ => None
      end
  end.

(** Sizes as the data layout reports them: scalars take their natural size,
    struct fields are aligned to their own alignment. *)
Definition int_bytes (w : Z) : Z :=
  if w <=? 8 then 1 else if w <=? 16 then 2 else if w <=? 32 then 4
  else if w <=? 64 then 8 else 16.

Definition align_up (off al : Z) : Z := if al <=? 1 then off else (off + al - 1) / al * al.

Fixpoint abi_align (pb : Z) (t : LType) {struct t} : Z :=
  let fix max_align (fs : list LType) : Z :=
    match fs with [] => 1 | f :: fs' => Z.max (abi_align pb f) (max_align fs') end in
  match t with
  | TVoid | TFunctionTy _ _ => 1
  | TInt w | TFloat w => int_bytes w
  | TPointer _ => pb
  | TStruct fs => max_align fs
  end.

Fixpoint getTypeAllocSize (pb : Z) (t : LType) {struct t} : Z :=
  let fix layout (off : Z) (fs : list LType) : Z :=
    match fs with
    | [] => off
    | f :: fs' => layout (align_up off (abi_align pb f) + getTypeAllocSize pb f) fs'
    end in
  match t with
  | TVoid | TFunctionTy _ _ => 0
  | TInt w | TFloat w => int_bytes w
  | TPointer _ => pb
  | TStruct fs => align_up (layout 0 fs) (abi_align pb t)
  end.

#[global] Instance RVal_eq_dec : EqDecision RVal.
Proof. solve_decision. Defined.
#[global] Instance MemVal_eq_dec : EqDecision MemVal.
Proof. solve_decision. Defined.

Definition le_bytes (n : nat) (z : Z) : list Z :=
  map (fun k => (z / 256 ^ Z.of_nat k) mod 256) (seq 0 n).

Definition from_le (bs : list Z) : Z := foldr (fun b acc => b + 256 * acc) 0 bs.

Definition encode (pb : Z) (ty : LType) (v : RVal) : option (list MemVal) :=
  let n := Z.to_nat (getTypeAllocSize pb ty) in
  match ty, v with
  | TInt w, RInt z | TFloat w, RInt z => Some (MByte <$> le_bytes n (unsigned_ w z))
  | TPointer _, (RNull | RPtr _ _ | RFunc _ | RStr _) => Some (MFrag v <$> seq 0 n)
  | _, _ => None
  end.

Definition byte_of (x : MemVal) : option Z :=
  match x with MByte b => Some b | MFrag _ _ => None end.

Definition decode (pb : Z) (ty : LType) (cell : list MemVal) : option RVal :=
  let n := Z.to_nat (getTypeAllocSize pb ty) in
  let bs := take n cell in
  if negb (length bs =? n)%nat then None else
  match ty with
  | TInt w | TFloat w => (fun l => RInt (unsigned_ w (from_le l))) <$> mapM byte_of bs
  | TPointer _ =>
      match bs with
      | MFrag v _ :: _ => if bool_decide (bs = MFrag v <$> seq 0 n) then Some v else None
      | _ => if bool_decide (bs = MByte <$> le_bytes n 0) then Some RNull else None
      end
  | _ => None
  end.

Inductive Control :=
| Next (m : Machine)
| Goto (b : nat) (m : Machine)
| Return (v : option RVal) (m : Machine).

(** One instruction.  [prev] is the block control came from (for phis).
    Calls leave the generated code and are not interpreted. *)
Definition exec_inst (prev : nat) (i : Instruction) (m : Machine) : option Control :=
  match i with
  | Alloca id _ _ =>
      Some (Next (mkMachine (<[id := RPtr (inr (next_alloc m)) [0]]> (regs m)) (args m) (mem m)
                            (S (next_alloc m)) (ptr_bytes m)))
  | Load id ty addr =>
      a ← eval_value m addr;
      match a with
      | RPtr b p =>
          cell ← mem m !! (b, p);
          v ← decode (ptr_bytes m) ty cell;
          Some (Next (set_reg id v m))
      | _ => None
      end
  | Store val addr =>
      v ← eval_value m val;
      a ← eval_value m addr;
      bytes ← encode (ptr_bytes m) (getType val) v;
      match a with
      | RPtr b p =>
          let old := default [] (mem m !! (b, p)) in
          Some (Next (set_mem (<[(b, p) := bytes ++ drop (length bytes) old]> (mem m)) m))
      | _ => None
      end
  | Call _ _ _ => None
  | PHI id _ incoming =>
      '(v, _) ← list_find (fun vb => snd vb = prev) incoming ≫= (fun x => Some (snd x));
      r ← eval_value m v;
      Some (Next (set_reg id r m))
  | Br d => Some (Goto d m)
  | CondBr c t f =>
      cv ← eval_value m c;
      b ← truth_of cv;
      Some (Goto (if (b : bool) then t else f) m)
  | Ret None => Some (Return None m)
  | Ret (Some v) =>
      r ← eval_value m v;
      Some (Return (Some r) m)
  end.

(** Straight-line execution of a list of instructions, up to the first
    transfer of control. *)
Fixpoint exec_insts (prev : nat) (is_ : list Instruction) (m : Machine) : option Control :=
  match is_ with
  | [] => Some (Next m)
  | i :: rest =>
      match exec_inst prev i m with
      | Some (Next m') => exec_insts prev rest m'
      | r => r
      end
  end.

(** ** The tensor IR handed to the generator *)

Inductive Op :=
| tvm_call_packed_lowered
| tvm_call_cpacked_lowered
| tvm_static_handle
| tvm_throw_last_error
| tvm_struct_get
| tvm_struct_set
| tvm_stack_alloca.

(** The expression nodes of tir/expr.h that the CPU lowering builds or
    inspects. *)
Inductive PrimExpr :=
| IntImm (dtype : DataType) (value : Z)
| StringImm (value : string)
| VarE (v : Var)
| Cast (dtype : DataType) (value : PrimExpr)
| Add (a b : PrimExpr)
| Sub (a b : PrimExpr)
| Mul (a b : PrimExpr)
| Div (a b : PrimExpr)
| Min (a b : PrimExpr)
| CallE (dtype : DataType) (op : Op) (args : list PrimExpr).

Fixpoint dtype_of (e : PrimExpr) : DataType :=
  match e with
  | IntImm t _ => t
  | StringImm _ => Handle
  | VarE v => vdtype v
  | Cast t _ => t
  | Add a _ | Sub a _ | Mul a _ | Div a _ | Min a _ => dtype_of a
  | CallE t _ _ => t
  end.

(** Modelled from the spec: the statement nodes (tir/stmt.h) are not part of
    the sources.  A loop has a variable, a minimum, an extent and a kind; an
    attribute statement has a key, a value and a body.  Sequences and
    evaluated expressions are the statements of the generic generator that
    the bodies are built from. *)
Inductive ForKind := kSerial | kParallel | kVectorized | kUnrolled | kThreadBinding.

Inductive Stmt :=
| For (loop_var : Var) (min extent : PrimExpr) (kind : ForKind) (body : Stmt)
| AttrStmt (attr_key : string) (value : PrimExpr) (body : Stmt)
| SeqStmt (seq : list Stmt)
| Evaluate (value : PrimExpr).

(** Expression builders of the IR (tir/op.h): [cast] is the identity on an
    expression that already has the type, [make_const] builds a constant,
    the arithmetic operators build the corresponding node. *)
Definition make_const (t : DataType) (v : Z) : PrimExpr := IntImm t v.
Definition cast (t : DataType) (e : PrimExpr) : PrimExpr :=
  if DataType_eqb (dtype_of e) t then e else Cast t e.
Definition min_ (a b : PrimExpr) : PrimExpr := Min a b.

(** [is_zero e]: [e] is the integer constant 0. *)
Definition is_zero (e : PrimExpr) : bool :=
  match e with IntImm _ v => v =? 0 | _ => false end.

(** Free variables of a statement, in order of first occurrence
    (tir::UndefinedVars). *)
Fixpoint expr_vars (e : PrimExpr) {struct e} : list Var :=
  match e with
  | IntImm _ _ | StringImm _ => []
  | VarE v => [v]
  | Cast _ a => expr_vars a
  | Add a b | Sub a b | Mul a b | Div a b | Min a b => expr_vars a ++ expr_vars b
  | CallE _ _ args => flat_map expr_vars args
  end.

Definition var_in (v : Var) (l : list Var) : bool :=
  existsb (fun u => bool_decide (vnode u = vnode v)) l.

Fixpoint undefined_vars (bound : list Var) (acc : list Var) (vs : list Var) : list Var :=
  match vs with
  | [] => acc
  | v :: vs' =>
      if var_in v bound || var_in v acc then undefined_vars bound acc vs'
      else undefined_vars bound (acc ++ [v]) vs'
  end.

Fixpoint stmt_undefined (bound acc : list Var) (s : Stmt) {struct s} : list Var :=
  match s with
  | For lv mn ext _ body =>
      stmt_undefined (lv :: bound)
        (undefined_vars bound (undefined_vars bound acc (expr_vars mn)) (expr_vars ext)) body
  | AttrStmt _ v body => stmt_undefined bound (undefined_vars bound acc (expr_vars v)) body
  | SeqStmt ss => fold_left (fun a st => stmt_undefined bound a st) ss acc
  | Evaluate v => undefined_vars bound acc (expr_vars v)
  end.

Definition UndefinedVars (body : Stmt) : list Var := stmt_undefined [] [] body.

(** ** Runtime types (CodeGenCPU::Init) *)

Definition t_tvm_shape_index_ := TInt 64.
Definition t_tvm_device_ := TStruct [t_int_; t_int_].
Definition t_tvm_type_ := TStruct [t_int8_; t_int8_; t_int16_].
Definition t_tvm_func_handle_ := t_void_p_.
Definition t_tvm_array_ :=
  TStruct [t_void_p_; t_tvm_device_; t_int_; t_tvm_type_;
           llvmGetPointerTo t_tvm_shape_index_; llvmGetPointerTo t_tvm_shape_index_; t_int64_].
Definition t_tvm_ffi_any_ := TStruct [t_int32_; t_int32_; t_float64_].
Definition t_tvm_parallel_group_env_ := TStruct [llvmGetPointerTo t_int32_; t_int32_].
Definition ftype_tvm_ffi_c_func_ :=
  TFunctionTy t_int_ [t_void_p_; llvmGetPointerTo t_tvm_ffi_any_; t_int_;
                      llvmGetPointerTo t_tvm_ffi_any_].
Definition ftype_tvm_parallel_lambda_ :=
  TFunctionTy t_int_ [t_int_; llvmGetPointerTo t_tvm_parallel_group_env_; t_void_p_].
Definition ftype_tvm_ffi_func_call_ := ftype_tvm_ffi_c_func_.
Definition ftype_tvm_get_func_from_env_ :=
  TFunctionTy t_int_ [t_void_p_; llvmGetPointerTo t_char_; llvmGetPointerTo t_tvm_func_handle_].
Definition ftype_tvm_parallel_launch_ :=
  TFunctionTy t_int_ [llvmGetPointerTo ftype_tvm_parallel_lambda_; t_void_p_; t_int_].
Definition ftype_tvm_parallel_barrier_ :=
  TFunctionTy t_int_ [t_int_; llvmGetPointerTo t_tvm_parallel_group_env_].
Definition ftype_tvm_static_init_callback_ := TFunctionTy t_int_ [t_void_p_].
Definition ftype_tvm_static_init_ :=
  TFunctionTy t_int_ [llvmGetPointerTo t_void_p_;
                      llvmGetPointerTo ftype_tvm_static_init_callback_; t_void_p_; t_int_].

(** Modelled from the spec: the field tags of §4.2 (tir/builtin.h is not part
    of the sources), numbered in the order the spec lists them, with the
    bound that separates the array-descriptor tags from the tagged-value
    tags. *)
Definition kArrAddr := 0.
Definition kArrData := 1.
Definition kArrShape := 2.
Definition kArrStrides := 3.
Definition kArrNDim := 4.
Definition kArrTypeCode := 5.
Definition kArrTypeBits := 6.
Definition kArrTypeLanes := 7.
Definition kArrByteOffset := 8.
Definition kArrDeviceId := 9.
Definition kArrDeviceType := 10.
Definition kArrKindBound_ := 11.
Definition kTVMFFIAnyTypeIndex := 12.
Definition kTVMFFIAnyUnionValue := 13.

Record TypedPointer := mkTypedPointer { tp_type : LType; tp_addr : Value }.

(** ** Module-level objects *)

Definition Function_Create (fty : LType) (l : Linkage) (name : string) : M Value :=
  fun s => Ok (FunctionValue (length (functions s)) fty)
              (set_functions (functions s ++ [mkFunction name fty l]) s).

Definition getFunction (name : string) (s : CodeGenCPU) : option Value :=
  (fun '(i, f) => FunctionValue i (fn_type f))
    <$> list_find (fun f => fn_name f = name) (functions s).

Definition function_index (f : Value) : nat :=
  match f with FunctionValue i _ => i | _ => 0%nat end.

Definition new_GlobalVariable (ty : LType) (l : Linkage) (init : Value) (name : string)
  : M Value :=
  fun s => Ok (GlobalValue (length (globals s)) ty)
              (set_globals (globals s ++ [mkGlobal name ty l init]) s).

Definition getValueType (gv : Value) : LType :=
  match gv with GlobalValue _ ty => ty | _ => TVoid end.

Definition GetContextPtr (gv : option Value) : M Value :=
  match gv with
  | None => fatal "Check failed: gv != nullptr"
  | Some g => CreateLoad (getValueType g) g
  end.

Definition RuntimeTVMFFIFunctionCall : M Value :=
  r ← gets runtime_;
  match f_tvm_ffi_func_call_ r with
  | Some f => mret f
  | None => GetContextPtr (gv_tvm_ffi_func_call_ r)
  end.

Definition RuntimeTVMGetFuncFromEnv : M Value :=
  r ← gets runtime_;
  match f_tvm_get_func_from_env_ r with
  | Some f => mret f
  | None => GetContextPtr (gv_tvm_get_func_from_env_ r)
  end.

Definition RuntimeTVMParallelLaunch : M Value :=
  r ← gets runtime_;
  match f_tvm_parallel_launch_ r with
  | Some f => mret f
  | None => GetContextPtr (gv_tvm_parallel_launch_ r)
  end.

Definition RuntimeTVMParallelBarrier : M Value :=
  r ← gets runtime_;
  match f_tvm_parallel_barrier_ r with
  | Some f => mret f
  | None => GetContextPtr (gv_tvm_parallel_barrier_ r)
  end.

(** ** Services of the generic generator (CodeGenLLVM)

    The base class is not part of the sources; these are the services the
    CPU lowering calls, with the behaviour the lowering relies on. *)

Definition DTypeToLLVMType (t : DataType) : LType :=
  if is_handle t then t_void_p_
  else if is_void t then t_void_
  else if is_float t then TFloat (bits t)
  else TInt (bits t).

Definition GetLLVMType (e : PrimExpr) : LType := DTypeToLLVMType (dtype_of e).

Definition GetConstString (s : string) : Value := ConstantString s.

Definition CreateCast (from to : DataType) (v : Value) : Value :=
  let target := DTypeToLLVMType to in
  if LType_eqb (getType v) target then v
  else if is_bool to then CreateICmpNE v (ConstantNull (getType v))
  else IntCast v target.

(** Modelled from the spec: the tagged value's native representation of a
    result (tir::APIType): integers and booleans travel as 64-bit integers,
    floats as 64-bit floats, handles as handles. *)
Definition APIType (t : DataType) : DataType :=
  if is_handle t then t
  else if is_float t then Float 64
  else Int 64.

Definition GetVarValue (v : Var) : M Value :=
  m ← gets var_map_;
  match m !! vnode v with
  | Some x => mret x
  | None => fatal ("cannot find variable " +:+ name_hint v)
  end.

(** ** CreateStructRefPtr *)

Definition array_member (path : list nat) (buf index : Value) : M TypedPointer :=
  let member_type := fold_left getStructElementType path t_tvm_array_ in
  let member_addr :=
    CreateInBoundsGEP t_tvm_array_ buf (index :: map (fun k => ConstInt32 (Z.of_nat k)) path) in
  mret (mkTypedPointer member_type member_addr).

Definition CreateStructRefPtr (t : DataType) (buf index : Value) (kind : Z) : M TypedPointer :=
  buf ← (if kind <? kArrKindBound_ then
           if LType_eqb (getType buf) t_void_p_
           then mret (CreatePointerCast buf (llvmGetPointerTo t_tvm_array_))
           else ICHECK (LType_eqb (getType buf) (llvmGetPointerTo t_tvm_array_))
                       "Check failed: buf->getType() == t_tvm_array_*";; mret buf
         else mret buf);
  if kind =? kArrAddr then
    mret (mkTypedPointer t_tvm_array_ (CreateInBoundsGEP t_tvm_array_ buf [index]))
  else if kind =? kArrData then array_member [0%nat] buf index
  else if kind =? kArrShape then array_member [4%nat] buf index
  else if kind =? kArrStrides then array_member [5%nat] buf index
  else if kind =? kArrNDim then array_member [2%nat] buf index
  else if kind =? kArrTypeCode then array_member [3%nat; 0%nat] buf index
  else if kind =? kArrTypeBits then array_member [3%nat; 1%nat] buf index
  else if kind =? kArrTypeLanes then array_member [3%nat; 2%nat] buf index
  else if kind =? kArrByteOffset then array_member [6%nat] buf index
  else if kind =? kArrDeviceId then array_member [1%nat; 1%nat] buf index
  else if kind =? kArrDeviceType then array_member [1%nat; 0%nat] buf index
  else if kind =? kTVMFFIAnyTypeIndex then
    let buf := CreatePointerCast buf (llvmGetPointerTo t_tvm_ffi_any_) in
    let buf := CreateInBoundsGEP t_tvm_ffi_any_ buf [index; ConstInt32 0] in
    mret (mkTypedPointer t_int32_ buf)
  else if kind =? kTVMFFIAnyUnionValue then
    ICHECK (lanes t =? 1) "Check failed: t.lanes() == 1";;
    let buf := CreatePointerCast buf (llvmGetPointerTo t_tvm_ffi_any_) in
    (* field 2 is the union value *)
    let buf := CreateInBoundsGEP t_tvm_ffi_any_ buf [index; ConstInt32 2] in
    if is_bool t then
      let buf := CreatePointerCast buf (llvmGetPointerTo (DTypeToLLVMType t)) in
      mret (mkTypedPointer t_int8_ buf)
    else if is_int t && (bits t =? 64) then
      let buf := CreatePointerCast buf (llvmGetPointerTo t_int64_) in
      mret (mkTypedPointer t_int64_ buf)
    else if is_float t && (bits t =? 64) then
      let buf := CreatePointerCast buf (llvmGetPointerTo t_float64_) in
      mret (mkTypedPointer t_float64_ buf)
    else if is_handle t then
      let buf := CreatePointerCast buf (llvmGetPointerTo t_void_p_) in
      mret (mkTypedPointer t_void_p_ buf)
    else
      (* only a debug message here; control falls into the default case *)
      fatal "unknown field code"
  else fatal "unknown field code".

(** ** Closure records *)

Fixpoint closure_field_types (vfields : list Var) : M (list LType) :=
  match vfields with
  | [] => mret []
  | v :: rest =>
      m ← gets var_map_;
      match m !! vnode v with
      | None => fatal "Check failed: it != var_map_.end()"
      | Some x => ts ← closure_field_types rest; mret (getType x :: ts)
      end
  end.

Fixpoint store_closure_fields (ctype : LType) (cvalue : Value) (i : nat) (vfields : list Var)
  : M unit :=
  match vfields with
  | [] => mret tt
  | v :: rest =>
      m ← gets var_map_;
      match m !! vnode v with
      | None => fatal "unordered_map::at"
      | Some x =>
          CreateStore x (CreateInBoundsGEP ctype cvalue [ConstInt32 0; ConstInt32 (Z.of_nat i)]);;
          store_closure_fields ctype cvalue (S i) rest
      end
  end.

Definition PackClosureData (vfields : list Var) (struct_name : string)
  : M (TypedPointer * Z) :=
  if (length vfields =? 0)%nat then
    mret (mkTypedPointer t_void_p_ (ConstantNull t_void_p_), 0)
  else
    fields ← closure_field_types vfields;
    let ctype := TStruct fields in
    cvalue ← WithFunctionEntry (CreateAlloca ctype (ConstInt32 1));
    store_closure_fields ctype cvalue 0 vfields;;
    pb ← gets (fun s => pointer_bytes (runtime_ s));
    mret (mkTypedPointer ctype cvalue, getTypeAllocSize pb ctype).

Fixpoint unpack_fields (cdata : TypedPointer) (i : nat) (vfields : list Var)
    (vmap : gmap (nat + nat) Value) : M (gmap (nat + nat) Value) :=
  match vfields with
  | [] => mret vmap
  | v :: rest =>
      let field_type := getStructElementType (tp_type cdata) i in
      let field_addr :=
        CreateInBoundsGEP (tp_type cdata) (tp_addr cdata) [ConstInt32 0; ConstInt32 (Z.of_nat i)] in
      load ← CreateLoad field_type field_addr;
      unpack_fields cdata (S i) rest (<[vnode v := load]> vmap)
  end.

Definition UnpackClosureData (cdata : TypedPointer) (vfields : list Var)
    (vmap : gmap (nat + nat) Value) : M (gmap (nat + nat) Value) :=
  unpack_fields cdata 0 vfields vmap.

(** ** GetPackedFuncHandle *)

Definition GetPackedFuncHandle (fname : string) : M Value :=
  cache ← gets func_handle_map_;
  hptr ← match cache !! fname with
         | None =>
             (* create global location for the handle *)
             h ← new_GlobalVariable t_tvm_func_handle_ InternalLinkage
                   (ConstantNull t_tvm_func_handle_) (".tvm_func." +:+ fname);
             modify (fun s => set_func_handle_map_ (<[fname := h]> (func_handle_map_ s)) s);;
             mret h
         | Some h => mret h
         end;
  (* emit code that checks and loads the function *)
  pre_block ← GetInsertBlock;
  f ← gets function_;
  init_block ← BasicBlock_Create "handle_init" f;
  end_block ← BasicBlock_Create "handle_init_end" f;
  handle ← CreateLoad (getValueType hptr) hptr;
  let handle_not_null := CreateICmpNE handle (ConstantNull t_tvm_func_handle_) in
  CreateCondBr handle_not_null end_block init_block;;
  (* initialize the handle if needed *)
  SetInsertPoint init_block;;
  out ← WithFunctionEntry (CreateAlloca t_tvm_func_handle_ (ConstInt32 1));
  gv_mod_ctx ← gets (fun s => gv_mod_ctx_ (runtime_ s));
  ctx_load ← CreateLoad (getValueType gv_mod_ctx) gv_mod_ctx;
  env_callee ← RuntimeTVMGetFuncFromEnv;
  retcode ← CreateCall ftype_tvm_get_func_from_env_ env_callee
              [ctx_load; GetConstString fname; out];
  init_block ← CheckCallSuccess retcode;
  loaded_handle ← CreateLoad t_tvm_func_handle_ out;
  (* store the handle *)
  CreateStore loaded_handle hptr;;
  CreateBr end_block;;
  (* end block *)
  SetInsertPoint end_block;;
  phi ← CreatePHI t_tvm_func_handle_;
  addIncoming phi handle pre_block;;
  addIncoming phi loaded_handle init_block;;
  mret phi.

Definition CreateStaticHandle : M Value :=
  new_GlobalVariable t_void_p_ PrivateLinkage (ConstantNull t_void_p_) "__tvm_static_handle".

(** ** Serial loops

    Modelled from the spec: [CreateSerialFor] belongs to the generic
    generator, which is not part of the sources.  It emits a loop with an
    initial value, a bound and a step: the loop variable is a phi that starts
    at [begin], the body runs while the variable is below [end_], and the
    variable advances by [stride] after each run of the body. *)
Definition CreateLT (t : DataType) (a b : Value) : Value :=
  ICmp (if is_int t then ICMP_SLT else ICMP_ULT) a b.

Definition CreateAdd (t : DataType) (a b : Value) : Value := BinOp OpAdd a b.

Definition CreateSerialFor (begin end_ stride : Value) (loop_var : Var) (VisitStmt_body : M unit)
  : M unit :=
  pre_block ← GetInsertBlock;
  f ← gets function_;
  for_begin ← BasicBlock_Create ("for_begin_" +:+ name_hint loop_var) f;
  for_body ← BasicBlock_Create ("for_body_" +:+ name_hint loop_var) f;
  for_end ← BasicBlock_Create ("for_end_" +:+ name_hint loop_var) f;
  CreateBr for_begin;;
  SetInsertPoint for_begin;;
  loop_value ← CreatePHI (getType begin);
  addIncoming loop_value begin pre_block;;
  m ← gets var_map_;
  ICHECK (negb (isSome (m !! vnode loop_var))) "Check failed: !var_map_.count(loop_var)";;
  modify (fun s => set_var_map_ (<[vnode loop_var := loop_value]> (var_map_ s)) s);;
  let lt := CreateLT (vdtype loop_var) loop_value end_ in
  CreateCondBr lt for_body for_end;;
  SetInsertPoint for_body;;
  VisitStmt_body;;
  modify (fun s => set_var_map_ (delete (vnode loop_var) (var_map_ s)) s);;
  let loop_next := CreateAdd (vdtype loop_var) loop_value stride in
  cur ← GetInsertBlock;
  addIncoming loop_value loop_next cur;;
  CreateBr for_begin;;
  SetInsertPoint for_end.

(** ** Packed calls and intrinsics *)

Record PackedCall := mkPackedCall {
  ret_value : option Value;
  ret_type_index : option Value;
  end_block : nat
}.

Definition MakeCallPackedLowered (MakeValue_args : nat -> M Value) (args : list PrimExpr)
    (r_type : DataType) (begin end_ : Z) (use_env_lookup : bool) : M PackedCall :=
  func_name ← match args !! 0%nat with
              | Some (StringImm name) => mret name
              | _ => fatal "Expected first argument of tir::Call to be a string"
              end;
  (* call the function *)
  let nargs := end_ - begin in
  ICHECK (0 <=? nargs) "Check failed: nargs >= 0";;
  stack_args ← MakeValue_args 1%nat;
  let packed_args :=
    CreateInBoundsGEP t_tvm_ffi_any_
      (CreatePointerCast stack_args (llvmGetPointerTo t_tvm_ffi_any_)) [ConstInt32 begin] in
  let result :=
    CreateInBoundsGEP t_tvm_ffi_any_
      (CreatePointerCast stack_args (llvmGetPointerTo t_tvm_ffi_any_)) [ConstInt32 end_] in
  call ← (if use_env_lookup then
            callee_value ← RuntimeTVMFFIFunctionCall;
            handle ← GetPackedFuncHandle func_name;
            CreateCall ftype_tvm_ffi_func_call_ callee_value
              [handle; packed_args; ConstInt32 nargs; result]
          else
            existing ← gets (getFunction func_name);
            callee_value ← match existing with
                           | Some f => mret f
                           | None => Function_Create ftype_tvm_ffi_c_func_ ExternalLinkage func_name
                           end;
            CreateCall ftype_tvm_ffi_c_func_ callee_value
              [ConstantNull t_void_p_; packed_args; ConstInt32 nargs; result]);
  end_block ← CheckCallSuccess call;
  if negb (is_void r_type) then
    (* load the return value and cast it to the designated type *)
    let r_api_type := APIType r_type in
    let llvm_r_api_type := DTypeToLLVMType r_api_type in
    let result_value := CreateInBoundsGEP t_tvm_ffi_any_ result [ConstInt32 0; ConstInt32 2] in
    let load_ptr := CreatePointerCast result_value (llvmGetPointerTo llvm_r_api_type) in
    rvalue ← CreateLoad llvm_r_api_type load_ptr;
    let result_type_index :=
      CreateInBoundsGEP t_tvm_ffi_any_ result [ConstInt32 0; ConstInt32 0] in
    (* load the return type code *)
    type_index ← CreateLoad t_int32_ result_type_index;
    mret (mkPackedCall (Some (CreateCast r_api_type r_type rvalue)) (Some type_index) end_block)
  else
    mret (mkPackedCall None None end_block).

Definition as_IntImm (e : option PrimExpr) : M Z :=
  match e with
  | Some (IntImm _ v) => mret v
  | _ => fatal "expected an integer constant"
  end.

(** [MakeValue(op->args[i])]: the lowering of the [i]-th argument, taken from
    the list of the arguments' lowerings. *)
Definition MakeValue_of (lowered : list (M Value)) (i : nat) : M Value :=
  default (fatal "missing argument") (lowered !! i).

(** A call that produces no value yields no instruction; the null result is
    written as a null constant of void type. *)
Definition no_value : Value := ConstantNull t_void_.

Definition CreateCallPacked (MakeValue_args : nat -> M Value) (dtype : DataType) (op : Op)
    (args : list PrimExpr) : M Value :=
  ICHECK (length args =? 4)%nat "Check failed: op->args.size() == 4U";;
  let use_string_lookup := match op with tvm_call_packed_lowered => true | _ => false end in
  b ← as_IntImm (args !! 2%nat);
  e ← as_IntImm (args !! 3%nat);
  pc ← MakeCallPackedLowered MakeValue_args args dtype b e use_string_lookup;
  mret (default no_value (ret_value pc)).

Definition t_tvm_tensormap_ := TStruct (repeat t_int64_ 16).

(** ** CreateIntrinsic *)

Definition CreateIntrinsic (MakeValue_args : nat -> M Value) (dtype : DataType) (op : Op)
    (args : list PrimExpr) : M Value :=
  match op with
  | tvm_call_packed_lowered | tvm_call_cpacked_lowered =>
      CreateCallPacked MakeValue_args dtype op args
  | tvm_static_handle => CreateStaticHandle
  | tvm_throw_last_error =>
      CreateRet (ConstInt32 (-1));;
      f ← gets function_;
      new_bb ← BasicBlock_Create "cont" f;
      SetInsertPoint new_bb;;
      mret (ConstInt32 (-1))
  | tvm_struct_get =>
      ICHECK (length args =? 3)%nat "Check failed: op->args.size() == 3U";;
      kind ← as_IntImm (args !! 2%nat);
      buf ← MakeValue_args 0%nat; index ← MakeValue_args 1%nat;
      ref ← CreateStructRefPtr dtype buf index kind;
      if kind =? kArrAddr then mret (CreatePointerCast (tp_addr ref) t_void_p_)
      else
        struct_value ← CreateLoad (tp_type ref) (tp_addr ref);
        if DataType_eqb dtype Bool then mret (CreateCast (Int 64) dtype struct_value)
        else mret struct_value
  | tvm_struct_set =>
      ICHECK (length args =? 4)%nat "Check failed: op->args.size() == 4U";;
      kind ← as_IntImm (args !! 2%nat);
      value ← MakeValue_args 3%nat;
      buf ← MakeValue_args 0%nat; index ← MakeValue_args 1%nat;
      ref ← CreateStructRefPtr (default Handle (dtype_of <$> args !! 3%nat)) buf index kind;
      ICHECK (negb (kind =? kArrAddr)) "Check failed: kind != builtin::kArrAddr";;
      let value := if isPointerTy (getType value)
                   then CreatePointerCast value (tp_type ref) else value in
      pb ← gets (fun s => pointer_bytes (runtime_ s));
      (if kind =? kTVMFFIAnyUnionValue then
         (* when we set any union value, clear the union value to zero if the
            set size is less than 64 bits *)
         if negb (getTypeAllocSize pb (tp_type ref) =? 8) then
           let i64_addr := CreatePointerCast (tp_addr ref) (llvmGetPointerTo t_int64_) in
           CreateStore (ConstInt64 0) i64_addr
         else mret tt
       else mret tt);;
      CreateStore value (tp_addr ref);;
      mret (ConstInt32 0)
  | tvm_stack_alloca =>
      ICHECK (length args =? 2)%nat "Check failed: op->args.size() == 2U";;
      type ← match args !! 0%nat with
             | Some (StringImm t) => mret t
             | _ => fatal "expected a string constant"
             end;
      WithFunctionEntry (
        pval ← match args !! 1%nat with
               | Some (IntImm _ v) => mret v
               | _ => fatal "require stack alloca to contain constant value"
               end;
        let num := ConstInt32 pval in
        if String.eqb type "shape" then CreateAlloca t_tvm_shape_index_ num
        else if String.eqb type "tvm_ffi_any" then CreateAlloca t_tvm_ffi_any_ num
        else if String.eqb type "array" then CreateAlloca t_tvm_array_ num
        else if String.eqb type "tensormap" then CreateAlloca t_tvm_tensormap_ num
        else fatal ("Unknown stack alloca type " +:+ type))
  end.

(** [MakeValue]: the value of an expression under the current variable
    bindings (the expression visitor of the generic generator). *)
Fixpoint MakeValue (e : PrimExpr) {struct e} : M Value :=
  match e with
  | IntImm t v => mret (ConstantInt (DTypeToLLVMType t) v)
  | StringImm s => mret (GetConstString s)
  | VarE v => GetVarValue v
  | Cast t a => x ← MakeValue a; mret (CreateCast (dtype_of a) t x)
  | Add a b => x ← MakeValue a; y ← MakeValue b; mret (BinOp OpAdd x y)
  | Sub a b => x ← MakeValue a; y ← MakeValue b; mret (BinOp OpSub x y)
  | Mul a b => x ← MakeValue a; y ← MakeValue b; mret (BinOp OpMul x y)
  | Div a b => x ← MakeValue a; y ← MakeValue b; mret (BinOp OpSDiv x y)
  | Min a b => x ← MakeValue a; y ← MakeValue b; mret (Select (ICmp ICMP_SLT x y) x y)
  | CallE t op args => CreateIntrinsic (MakeValue_of (map MakeValue args)) t op args
  end.

(** ** Parallel launch, static initialization, compute scopes *)

Definition fresh_Var (name : string) (t : DataType) : M Var :=
  fun s => Ok (mkVar (inr (next_var s)) name t) (set_next_var (S (next_var s)) s).

Definition CreateParallelLaunch (VisitStmt_body : M unit) (body : Stmt) (num_task : Z)
    (name : string) : M unit :=
  (* closure data *)
  f ← Function_Create ftype_tvm_parallel_lambda_ PrivateLinkage "__tvm_parallel_lambda";
  (* allocate and setup the closure, call the closure *)
  let vfields := UndefinedVars body in
  '(cdata, nbytes) ← PackClosureData vfields ("closure_" +:+ name);
  launch_callee ← RuntimeTVMParallelLaunch;
  call ← CreateCall ftype_tvm_parallel_launch_ launch_callee
           [f; CreatePointerCast (tp_addr cdata) t_void_p_; ConstInt32 num_task];
  par_launch_end ← CheckCallSuccess call;
  (* setup the closure function *)
  lambda_entry ← BasicBlock_Create "parallel_closure_entry" (function_index f);
  SetInsertPoint lambda_entry;;
  let task_id := Argument (function_index f) 0 t_int_ in
  let penv := Argument (function_index f) 1 (llvmGetPointerTo t_tvm_parallel_group_env_) in
  let cdata := mkTypedPointer (tp_type cdata)
                 (CreatePointerCast (Argument (function_index f) 2 t_void_p_)
                                    (getType (tp_addr cdata))) in
  (* setup new variable map, swap it with current var context *)
  new_vmap ← UnpackClosureData cdata vfields ∅;
  (* setup parallel env *)
  task_id_var ← fresh_Var "task_id" (Int 32);
  num_task_var ← fresh_Var "num_task" (Int 32);
  let new_vmap := <[vnode task_id_var := task_id]> new_vmap in
  num_task_value ← CreateLoad t_int32_
    (CreateInBoundsGEP t_tvm_parallel_group_env_ penv [ConstInt32 0; ConstInt32 1]);
  let new_vmap := <[vnode num_task_var := num_task_value]> new_vmap in
  let par_env := mkParallelEnv (Some task_id_var) (Some num_task_var) false false 0 (Some penv) in
  outer ← get;
  modify (fun s => set_var_map_ new_vmap
                     (set_parallel_env_ par_env (set_function_ (function_index f) s)));;
  VisitStmt_body;;
  CreateRet (ConstInt32 0);;
  (* swap the var map back, now we are back on track *)
  par_env ← gets parallel_env_;
  modify (fun s => set_function_ (function_ outer)
                     (set_parallel_env_ (parallel_env_ outer)
                        (set_var_map_ (var_map_ outer) s)));;
  ICHECK (negb (parallel_loop_count par_env =? 0))
         "Cannot find parallel loop within parallel launch";;
  SetInsertPoint par_launch_end.

Definition CreateStaticInit (VisitStmt_body : M unit) (init_fname : string) (body : Stmt)
  : M unit :=
  (* closure data *)
  f ← Function_Create ftype_tvm_static_init_callback_ PrivateLinkage "__tvm_static_init_lambda";
  gv ← CreateStaticHandle;
  existing ← gets (getFunction init_fname);
  finit ← match existing with
          | Some g => mret g
          | None => Function_Create ftype_tvm_static_init_ ExternalLinkage init_fname
          end;
  (* allocate and setup the closure, call the closure *)
  let vfields := UndefinedVars body in
  '(cdata, nbytes) ← PackClosureData vfields "";
  call ← CreateCall ftype_tvm_static_init_ finit
           [gv; f; CreatePointerCast (tp_addr cdata) t_void_p_; ConstInt32 nbytes];
  init_end ← CheckCallSuccess call;
  (* setup the closure function *)
  lambda_entry ← BasicBlock_Create "entry" (function_index f);
  SetInsertPoint lambda_entry;;
  let cdata := mkTypedPointer (tp_type cdata)
                 (CreatePointerCast (Argument (function_index f) 0 t_void_p_)
                                    (getType (tp_addr cdata))) in
  (* setup new variable map, swap it with current var context *)
  new_vmap ← UnpackClosureData cdata vfields ∅;
  pe ← gets parallel_env_;
  ICHECK (negb (isSome (penv pe))) "Check failed: parallel_env_.penv == nullptr";;
  outer ← get;
  modify (fun s => set_var_map_ new_vmap (set_function_ (function_index f) s));;
  VisitStmt_body;;
  CreateRet (ConstInt32 0);;
  (* swap the var map back, now we are back on track *)
  modify (fun s => set_function_ (function_ outer) (set_var_map_ (var_map_ outer) s));;
  SetInsertPoint init_end.

Fixpoint bind_arguments (f : nat) (idx : nat) (vargs : list Var) (arg_values : list Value)
  : M unit :=
  match vargs, arg_values with
  | var :: vargs', v :: values' =>
      modify (fun s => set_var_map_ (<[vnode var := Argument f idx (getType v)]> (var_map_ s)) s);;
      bind_arguments f (S idx) vargs' values'
  | _, _ => mret tt
  end.

(** Parameter attributes (no-alias, alignment) and debug information are not
    part of the model. *)
Definition CreateComputeScope (VisitStmt_body : M unit) (value : PrimExpr) (body : Stmt)
  : M unit :=
  let vargs := UndefinedVars body in
  arg_values ← mapM GetVarValue vargs;
  let arg_types := map getType arg_values in
  let ftype := TFunctionTy t_int_ arg_types in
  name ← match value with
         | StringImm n => mret n
         | _ => fatal "Check failed: value != nullptr"
         end;
  fcompute ← Function_Create ftype InternalLinkage name;
  call ← CreateCall ftype fcompute arg_values;
  compute_call_end ← CheckCallSuccess call;
  (* enter compute scope and setup compute function *)
  outer ← get;
  modify (fun s => set_var_map_ ∅ s);;
  bind_arguments (function_index fcompute) 0 vargs arg_values;;
  modify (set_function_ (function_index fcompute));;
  compute_entry ← BasicBlock_Create "entry" (function_index fcompute);
  SetInsertPoint compute_entry;;
  VisitStmt_body;;
  CreateRet (ConstInt32 0);;
  SetInsertPoint compute_call_end;;
  (* leave the compute scope *)
  modify (fun s => set_function_ (function_ outer) (set_var_map_ (var_map_ outer) s)).

(** ** Statements *)

(** Attribute keys (tir/stmt.h). *)
Definition coproc_uop_scope := "coproc_uop_scope".
Definition compute_scope := "compute_scope".
Definition pragma_import_llvm := "pragma_import_llvm".
Definition IsPragmaKey (attr_key : string) : bool := String.prefix "pragma_" attr_key.

Definition set_stride_pattern (b : bool) (e : ParallelEnv) : ParallelEnv :=
  mkParallelEnv (task_id e) (num_task e) b (in_parallel_loop e) (parallel_loop_count e) (penv e).
Definition set_in_parallel_loop (b : bool) (e : ParallelEnv) : ParallelEnv :=
  mkParallelEnv (task_id e) (num_task e) (stride_pattern e) b (parallel_loop_count e) (penv e).
Definition incr_parallel_loop_count (e : ParallelEnv) : ParallelEnv :=
  mkParallelEnv (task_id e) (num_task e) (stride_pattern e) (in_parallel_loop e)
                (parallel_loop_count e + 1) (penv e).

(** [VisitStmt_] on an attribute statement.  [VisitStmt_body] stands for
    [this->VisitStmt(op->body)]. *)
Definition VisitStmt_AttrStmt (VisitStmt_body : M unit) (attr_key : string) (value : PrimExpr)
    (body : Stmt) : M unit :=
  if String.eqb attr_key coproc_uop_scope then
    match value with
    | StringImm v => CreateStaticInit VisitStmt_body v body
    | _ => fatal "Check failed: value != nullptr"
    end
  else if String.eqb attr_key compute_scope then
    CreateComputeScope VisitStmt_body value body
  else if IsPragmaKey attr_key then
    if String.eqb attr_key "pragma_parallel_stride_pattern" then
      pe ← gets parallel_env_;
      ICHECK (isSome (penv pe)) "Pragma parallel_stride_pattern only valid in parallel launch";;
      modify (fun s => set_parallel_env_ (set_stride_pattern true (parallel_env_ s)) s);;
      VisitStmt_body
    else if String.eqb attr_key "pragma_parallel_launch_point" then
      CreateParallelLaunch VisitStmt_body body 0 "pragma_parallel"
    else if String.eqb attr_key "pragma_parallel_barrier_when_finish" then
      pe ← gets parallel_env_;
      ICHECK (isSome (penv pe)) "Cannot run barrier without parallel environment";;
      ICHECK (negb (in_parallel_loop pe))
             "Cannot not place within parallel loop as the workload may differ";;
      VisitStmt_body;;
      bar_callee ← RuntimeTVMParallelBarrier;
      pe ← gets parallel_env_;
      tid ← match task_id pe with
            | Some v => GetVarValue v
            | None => fatal "undefined task id"
            end;
      CreateCall ftype_tvm_parallel_barrier_ bar_callee
        [tid; default (ConstantNull (llvmGetPointerTo t_tvm_parallel_group_env_)) (penv pe)];;
      mret tt
    else if String.eqb attr_key pragma_import_llvm then
      match value with
      | StringImm _ => VisitStmt_body
      | _ => fatal "Check failed: value != nullptr"
      end
    else
      (* unknown pragma: warn and lower the body *)
      VisitStmt_body
  else
    (* the generic generator's attribute handling *)
    VisitStmt_body.

(** The sub-range of a parallel loop that one task runs under the block
    partition: [step = (extent + num_task - 1) / num_task],
    [begin = min(task_id * step, extent)],
    [end = min((task_id + 1) * step, extent)], all in the type of the extent. *)
Definition block_step (extent num_task : PrimExpr) : PrimExpr :=
  Div (Sub (Add extent num_task) (make_const (dtype_of extent) 1)) num_task.
Definition block_begin (extent task_id num_task : PrimExpr) : PrimExpr :=
  min_ (Mul task_id (block_step extent num_task)) extent.
Definition block_end (extent task_id num_task : PrimExpr) : PrimExpr :=
  min_ (Mul (Add task_id (make_const (dtype_of extent) 1)) (block_step extent num_task)) extent.

(** [VisitStmt_] on a loop.  [VisitStmt_self] stands for
    [this->VisitStmt] on the copy of the loop handed to the launch, and
    [VisitStmt_body] for [this->VisitStmt(op->body)]. *)
Definition VisitStmt_For (VisitStmt_self VisitStmt_body : M unit) (loop_var : Var)
    (min extent : PrimExpr) (kind : ForKind) (body : Stmt) : M unit :=
  ICHECK (is_zero min) "Check failed: is_zero(op->min)";;
  match kind with
  | kSerial | kUnrolled =>
      (* the generic generator's loop *)
      begin ← MakeValue min;
      end_ ← MakeValue extent;
      CreateSerialFor begin end_ (ConstantInt (GetLLVMType extent) 1) loop_var VisitStmt_body
  | kParallel =>
      pe ← gets parallel_env_;
      match penv pe with
      | None =>
          CreateParallelLaunch VisitStmt_self (For loop_var min extent kind body) 0
            ("loop_parallel_" +:+ name_hint loop_var)
      | Some _ =>
          (* already in parallel env *)
          match task_id pe, num_task pe with
          | Some task_id_var, Some num_task_var =>
              let t := dtype_of extent in
              let num_task := cast t (VarE num_task_var) in
              let task_id := cast t (VarE task_id_var) in
              ICHECK (negb (in_parallel_loop pe))
                "Nested parallel loop is not supported by threadpool, try fuse them instead";;
              modify (fun s => set_parallel_env_ (set_in_parallel_loop true (parallel_env_ s)) s);;
              (if stride_pattern pe then
                 begin ← MakeValue task_id;
                 end_ ← MakeValue extent;
                 stride ← MakeValue num_task;
                 CreateSerialFor begin end_ stride loop_var VisitStmt_body
               else
                 let begin := block_begin extent task_id num_task in
                 let end_ := block_end extent task_id num_task in
                 b ← MakeValue begin;
                 e ← MakeValue end_;
                 CreateSerialFor b e (ConstantInt (GetLLVMType end_) 1) loop_var VisitStmt_body);;
              modify (fun s => set_parallel_env_ (set_in_parallel_loop false (parallel_env_ s)) s);;
              modify (fun s => set_parallel_env_ (incr_parallel_loop_count (parallel_env_ s)) s)
          | None, _ => fatal "Check failed: parallel_env_.task_id.defined()"
          | _, None => fatal "Check failed: parallel_env_.num_task.defined()"
          end
      end
  | _ => fatal "cannot handle for type"
  end.

(** The launch re-enters [VisitStmt] on a copy of the same parallel loop.  At
    that point the environment of the launch is installed, so the re-entry
    takes the "already in parallel env" branch; [launch_reentered] marks the
    launch branch of the re-entry, which is never taken. *)
Definition launch_reentered : M unit := fatal "parallel launch re-entered".

Fixpoint VisitStmt (s : Stmt) {struct s} : M unit :=
  let fix VisitSeq (ss : list Stmt) : M unit :=
    match ss with
    | [] => mret tt
    | st :: rest => VisitStmt st;; VisitSeq rest
    end in
  match s with
  | For loop_var min extent kind body =>
      VisitStmt_For
        (VisitStmt_For launch_reentered (VisitStmt body) loop_var min extent kind body)
        (VisitStmt body) loop_var min extent kind body
  | AttrStmt attr_key value body => VisitStmt_AttrStmt (VisitStmt body) attr_key value body
  | SeqStmt seq => VisitSeq seq
  | Evaluate value => MakeValue value;; mret tt
  end.

(** ** Init and the start of a function *)

Definition InitContextPtr (p_type : LType) (name : string) : M Value :=
  new_GlobalVariable p_type ExternalLinkage (ConstantNull p_type) name.

Definition empty_module (pb : Z) : CodeGenCPU :=
  mkCodeGen [] [] [] 0 0 0 0 None ∅ ParallelEnv_default ∅
            (mkRuntime (ConstantNull t_void_p_) None None None None None None None None pb).

Definition declare_if (c : bool) (fty : LType) (name : string) : M (option Value) :=
  if c then f ← Function_Create fty ExternalLinkage name; mret (Some f) else mret None.

Definition context_if (c : bool) (fty : LType) (name : string) : M (option Value) :=
  if c then g ← InitContextPtr (llvmGetPointerTo fty) name; mret (Some g) else mret None.

(** [Init]: the runtime entry points are declared as functions when the module
    looks them up dynamically or is a system library; otherwise they are
    reached through context cells.  The handle cache starts empty. *)
Definition Init (system_lib_prefix : option string) (dynamic_lookup target_c_runtime : bool)
  : M unit :=
  let registers := isSome system_lib_prefix && negb target_c_runtime in
  let declared := dynamic_lookup || isSome system_lib_prefix in
  f_call ← declare_if declared ftype_tvm_ffi_func_call_ "TVMFFIFunctionCall";
  f_env ← declare_if declared ftype_tvm_get_func_from_env_ "TVMBackendGetFuncFromEnv";
  f_launch ← declare_if declared ftype_tvm_parallel_launch_ "TVMBackendParallelLaunch";
  f_barrier ← declare_if declared ftype_tvm_parallel_barrier_ "TVMBackendParallelBarrier";
  (* InitGlobalContext *)
  ctx ← InitContextPtr t_void_p_ (default "" system_lib_prefix +:+ "__tvm_ffi__library_ctx");
  let cells := negb registers && negb dynamic_lookup in
  g_call ← context_if cells ftype_tvm_ffi_func_call_ "__TVMFFIFunctionCall";
  g_env ← context_if cells ftype_tvm_get_func_from_env_ "__TVMBackendGetFuncFromEnv";
  g_launch ← context_if cells ftype_tvm_parallel_launch_ "__TVMBackendParallelLaunch";
  g_barrier ← context_if cells ftype_tvm_parallel_barrier_ "__TVMBackendParallelBarrier";
  modify (fun s =>
    mkCodeGen (functions s) (globals s) (blocks s) (next_inst s) (next_var s) (function_ s)
      (insert_block s) (insert_pos s) (var_map_ s) (parallel_env_ s) ∅
      (mkRuntime ctx f_call g_call f_env g_env f_launch g_launch f_barrier g_barrier
                 (pointer_bytes (runtime_ s)))).

Fixpoint bind_params (f : nat) (idx : nat) (params : list Var) : M unit :=
  match params with
  | [] => mret tt
  | p :: rest =>
      modify (fun s => set_var_map_
                (<[vnode p := Argument f idx (DTypeToLLVMType (vdtype p))]> (var_map_ s)) s);;
      bind_params f (S idx) rest
  end.

(** The opening of a function by the generic generator: the function is
    declared, its parameters become arguments, and the insertion point is the
    new entry block. *)
Definition BeginFunction (name : string) (params : list Var) : M unit :=
  let fty := TFunctionTy t_int_ (map (fun p => DTypeToLLVMType (vdtype p)) params) in
  f ← Function_Create fty ExternalLinkage name;
  modify (fun s => set_var_map_ ∅ (set_function_ (function_index f) s));;
  bind_params (function_index f) 0 params;;
  entry ← BasicBlock_Create "entry" (function_index f);
  SetInsertPoint entry.

Definition run_from {A} (s : CodeGenCPU) (m : M A) : Result A := m s.

Definition state_of {A} (r : Result A) (d : CodeGenCPU) : CodeGenCPU :=
  match r with Ok _ s => s | Fatal _ => d end.

(** A 64-bit module with dynamic lookup and one open function without
    parameters. *)
Definition demo_state : CodeGenCPU :=
  state_of (run_from (empty_module 8) (Init None true false;; BeginFunction "main" []))
           (empty_module 8).

(** ** Vocabulary of the statements proved below *)

Definition successors (i : Instruction) : list nat :=
  match i with
  | Br d => [d]
  | CondBr _ t f => [t; f]
  | _ => []
  end.

(** Every branch of the module targets an existing block. *)
Definition targets_closed (s : CodeGenCPU) : Prop :=
  forall b bb i d,
    blocks s !! b = Some bb -> i ∈ bb_insts bb -> d ∈ successors i ->
    (d < length (blocks s))%nat.

(** The insertion point is the end of an existing block. *)
Definition at_block_end (s : CodeGenCPU) : Prop :=
  insert_pos s = None /\ (insert_block s < length (blocks s))%nat.

(** [m] relates every state it succeeds from to the state it ends in. *)
Definition preserves {A} (R : CodeGenCPU -> CodeGenCPU -> Prop) (m : M A) : Prop :=
  forall s a s', m s = Ok a s' -> R s s'.

(** What expression lowering and the builder never touch: the variable
    bindings, the parallel environment, the current function and the table of
    runtime entry points. *)
Definition same_context (s s' : CodeGenCPU) : Prop :=
  var_map_ s' = var_map_ s /\ parallel_env_ s' = parallel_env_ s /\
  function_ s' = function_ s /\ runtime_ s' = runtime_ s.

(** What statement lowering leaves in place: as above, except that the
    environment may have counted more parallel loops and may have been marked
    with the stride pattern.  A [quiet] lowering counts no loop. *)
Definition env_extends (e e' : ParallelEnv) : Prop :=
  task_id e' = task_id e /\ num_task e' = num_task e /\ penv e' = penv e /\
  in_parallel_loop e' = in_parallel_loop e /\
  parallel_loop_count e <= parallel_loop_count e'.

Definition stmt_frame (quiet : bool) (s s' : CodeGenCPU) : Prop :=
  var_map_ s' = var_map_ s /\ function_ s' = function_ s /\ runtime_ s' = runtime_ s /\
  env_extends (parallel_env_ s) (parallel_env_ s') /\
  (quiet = true ->
   parallel_loop_count (parallel_env_ s') = parallel_loop_count (parallel_env_ s)).

(** A statement contains a parallel loop. *)
Fixpoint has_parallel_for (s : Stmt) {struct s} : bool :=
  match s with
  | For _ _ _ kind body =>
      match kind with kParallel => true | _ => has_parallel_for body end
  | AttrStmt _ _ body => has_parallel_for body
  | SeqStmt seq => existsb has_parallel_for seq
  | Evaluate _ => false
  end.

(** The value the generated code computes for an integer expression: the
    expression is lowered under the bindings of [s], the resulting value is
    evaluated in machine [m] and read as a signed integer of the expression's
    type. *)
Definition run_expr (s : CodeGenCPU) (m : Machine) (e : PrimExpr) : option Z :=
  match MakeValue e s with
  | Ok v _ =>
      match eval_value m v with
      | Some (RInt z) => Some (signed_ (bits (dtype_of e)) z)
      | _ => None
      end
  | Fatal _ => None
  end.

(** Total size of the ranges [lo k, hi k) for [k < n]. *)
Definition range_sizes (lo hi : Z -> Z) (n : nat) : Z :=
  fold_right Z.add 0 (map (fun k => hi (Z.of_nat k) - lo (Z.of_nat k)) (seq 0 n)).

(** [z] is a [w]-bit signed integer. *)
Definition in_range (w z : Z) : Prop := - 2 ^ (w - 1) <= z < 2 ^ (w - 1).

(** [cval w m v z]: in machine [m], value [v] evaluates to an integer whose
    [w]-bit pattern is that of [z]. *)
Definition cval (w : Z) (m : Machine) (v : Value) (z : Z) : Prop :=
  exists r, eval_value m v = Some (RInt r) /\ r mod 2 ^ w = z mod 2 ^ w.

(** The ceiling of [a / b] for a positive divisor. *)
Definition ceil_div (a b : Z) : Z := - ((- a) / b).

(** The range the block partition makes a task run: the values the generated
    code computes for the two bounds handed to the serial loop, for the task
    and task count bound to [tvar] and [nvar]. *)
Definition block_range (s : CodeGenCPU) (m : Machine) (extent : PrimExpr) (tvar nvar : Var)
  : option (Z * Z) :=
  let t := dtype_of extent in
  let num_task := cast t (VarE nvar) in
  let task_id := cast t (VarE tvar) in
  b ← run_expr s m (block_begin extent task_id num_task);
  e ← run_expr s m (block_end extent task_id num_task);
  Some (b, e).

(** A run of the closure of a launch as task [task] out of [n], in the
    bindings of [demo_env_state] below. *)
Definition demo_machine (task n : Z) : Machine :=
  mkMachine ∅ [RInt (unsigned_ 32 task); RInt (unsigned_ 32 n)] ∅ 0 8.

(** A state inside a parallel environment: the task id is bound to the first
    argument of the closure, the synchronization block is its third. *)
Definition demo_task_id : Var := mkVar (inr 0%nat) "task_id" (Int 32).
Definition demo_num_task : Var := mkVar (inr 1%nat) "num_task" (Int 32).

Definition demo_env_state : CodeGenCPU :=
  set_var_map_ (<[vnode demo_task_id := Argument 4 0 t_int_]>
                  (<[vnode demo_num_task := Argument 4 1 t_int_]> ∅))
    (set_parallel_env_
       (mkParallelEnv (Some demo_task_id) (Some demo_num_task) false false 1
          (Some (Argument 4 2 (llvmGetPointerTo t_tvm_parallel_group_env_))))
       demo_state).

(** Execution of a function body block by block.  The run records the value
    of register [reg] each time block [blk] is entered and stops where a block
    returns or ends without a terminator; [None] means the run got stuck or
    [fuel] ran out. *)
Fixpoint run_blocks (fuel : nat) (bs : list BasicBlock) (blk reg : nat) (prev cur : nat)
    (m : Machine) {struct fuel} : option (list RVal) :=
  match fuel with
  | O => None
  | S f =>
      bb ← bs !! cur;
      let seen := if (cur =? blk)%nat then option_list (regs m !! reg) else [] in
      match exec_insts prev (bb_insts bb) m with
      | Some (Goto d m') => (fun l => seen ++ l) <$> run_blocks f bs blk reg cur d m'
      | Some (Next _) | Some (Return _ _) => Some seen
      | None => None
      end
  end.

(** The run of the loop [CreateSerialFor] emits for a signed loop variable of
    [w] bits: the variable starts at the bit pattern [i], the body runs while
    the variable is below [bound] as signed integers, and the variable then
    advances by [stride] with wrap-around.  The result lists the values the
    body saw within [fuel] iterations and tells whether the loop was left. *)
Fixpoint serial_for_run (fuel : nat) (w i bound stride : Z) {struct fuel} : list Z * bool :=
  match fuel with
  | O => ([], false)
  | S f =>
      if signed_ w i <? signed_ w bound then
        let '(l, done_) := serial_for_run f w (unsigned_ w (i + stride)) bound stride in
        (signed_ w i :: l, done_)
      else ([], true)
  end.

(** The indices [T, T + N, T + 2 N, ...] below [E], in increasing order. *)
Definition stride_indices (T N E : Z) : list Z :=
  map (fun k => T + Z.of_nat k * N) (seq 0 (Z.to_nat (ceil_div (E - T) N))).

(** The run of the loop of the stride partition: the three operands the
    lowering hands to [CreateSerialFor], evaluated in machine [m]. *)
Definition stride_loop_run (fuel : nat) (s : CodeGenCPU) (m : Machine) (extent : PrimExpr)
    (tvar nvar : Var) : option (list Z * bool) :=
  let t := dtype_of extent in
  let num_task := cast t (VarE nvar) in
  let task_id := cast t (VarE tvar) in
  match MakeValue task_id s, MakeValue extent s, MakeValue num_task s with
  | Ok begin _, Ok end_ _, Ok stride _ =>
      match eval_value m begin, eval_value m end_, eval_value m stride with
      | Some (RInt b), Some (RInt e), Some (RInt st) => Some (serial_for_run fuel (bits t) b e st)
      | _, _, _ => None
      end
  | _, _, _ => None
  end.

(** [demo_env_state] with the stride pattern requested. *)
Definition demo_stride_state : CodeGenCPU :=
  set_parallel_env_ (set_stride_pattern true (parallel_env_ demo_env_state)) demo_env_state.

(** The call of the slow path of a handle resolution: a call with three
    arguments whose second is the name of the function looked up. *)
Definition is_get_func_call (fname : string) (i : Instruction) : bool :=
  match i with
  | Call _ _ [_; ConstantString n; _] => String.eqb n fname
  | _ => false
  end.

Definition block_lookups (fname : string) (bb : BasicBlock) : nat :=
  length (List.filter (is_get_func_call fname) (bb_insts bb)).

(** Number of get-function-by-name calls for [fname] in the module. *)
Definition lookup_calls (fname : string) (s : CodeGenCPU) : nat :=
  sum_list_with (block_lookups fname) (blocks s).

(** Steps that emit no such call, create no global and leave the handle
    cache alone; blocks are only added. *)
Definition lookups_kept (fname : string) (s s' : CodeGenCPU) : Prop :=
  lookup_calls fname s' = lookup_calls fname s /\
  (length (blocks s) <= length (blocks s'))%nat /\
  globals s' = globals s /\ func_handle_map_ s' = func_handle_map_ s.

(** Steps that come back to the end of the block they started in. *)
Definition point_kept (s s' : CodeGenCPU) : Prop :=
  insert_pos s = None -> insert_pos s' = None /\ insert_block s' = insert_block s.

(** [demo_state] after one and after two resolutions of the name "f". *)
Definition demo_resolved_once : CodeGenCPU :=
  state_of (GetPackedFuncHandle "f" demo_state) demo_state.
Definition demo_resolved_twice : CodeGenCPU :=
  state_of (GetPackedFuncHandle "f" demo_resolved_once) demo_resolved_once.

Definition has_type (pb : Z) (ty : LType) (v : RVal) : bool :=
  match ty, v with
  | TInt w, RInt z | TFloat w, RInt z => (1 <=? w) && (w <=? 128) && (0 <=? z) && (z <? 2 ^ w)
  | TPointer _, (RNull | RPtr _ _ | RFunc _ | RStr _) => 0 <? pb
  | _, _ => false
  end.

Definition field_addr (ctype : LType) (cvalue : Value) (i : nat) : Value :=
  CreateInBoundsGEP ctype cvalue [ConstInt32 0; ConstInt32 (Z.of_nat i)].

Fixpoint closure_stores (ctype : LType) (cvalue : Value) (i : nat) (xs : list Value)
  : list Instruction :=
  match xs with
  | [] => []
  | x :: rest => Store x (field_addr ctype cvalue i) :: closure_stores ctype cvalue (S i) rest
  end.

Fixpoint closure_loads (ctype : LType) (cvalue : Value) (id i n : nat) : list Instruction :=
  match n with
  | O => []
  | S k =>
      Load id (getStructElementType ctype i) (field_addr ctype cvalue i)
        :: closure_loads ctype cvalue (S id) (S i) k
  end.

Definition agree (n : nat) (m m' : Machine) : Prop :=
  (forall id, (id < n)%nat -> regs m' !! id = regs m !! id) /\
  args m' = args m /\ ptr_bytes m' = ptr_bytes m.

Definition evaluates (n : nat) (m : Machine) (x : Value) (v : RVal) : Prop :=
  forall m', agree n m m' -> eval_value m' x = Some v.

(** The state after [k] value-producing instructions [l] were appended at the
    insertion point. *)
Definition emitted (l : list Instruction) (k : nat) (s : CodeGenCPU) : CodeGenCPU :=
  set_next_inst (next_inst s + k)
    (set_blocks (alter (fun b => mkBlock (bb_name b) (bb_parent b) (bb_insts b ++ l))
                       (insert_block s) (blocks s)) s).

Fixpoint closure_vmap (ctype : LType) (id i : nat) (vfields : list Var)
    (vmap : gmap (nat + nat) Value) : gmap (nat + nat) Value :=
  match vfields with
  | [] => vmap
  | v :: rest =>
      closure_vmap ctype (S id) (S i) rest
        (<[vnode v := InstResult id (getStructElementType ctype i)]> vmap)
  end.

Definition with_alloca (ctype : LType) (entry : nat) (s : CodeGenCPU) : CodeGenCPU :=
  set_next_inst (S (next_inst s))
    (set_blocks
       (alter (fun b => mkBlock (bb_name b) (bb_parent b)
                                (Alloca (next_inst s) ctype (ConstInt32 1) :: bb_insts b))
              entry (blocks s)) s).

Definition bound_to (s : CodeGenCPU) (v : Var) (x : Value) : Prop :=
  var_map_ s !! vnode v = Some x.

(** A function whose first parameter is a pointer to an array of tagged
    values. *)
Definition demo_any_var : Var := mkVar (inr 5%nat) "args" Handle.

Definition demo_any_state : CodeGenCPU :=
  set_var_map_ (<[vnode demo_any_var := Argument 4 0 t_void_p_]> ∅) demo_state.

(** The payload address of the first tagged value of [demo_any_var], as a
    boolean slot, and the code a struct-set of [true] emits for it. *)
Definition demo_payload_addr : Value :=
  CreatePointerCast
    (CreateInBoundsGEP t_tvm_ffi_any_
       (CreatePointerCast (Argument 4 0 t_void_p_) (llvmGetPointerTo t_tvm_ffi_any_))
       [ConstInt32 0; ConstInt32 2])
    (llvmGetPointerTo (TInt 1)).

Definition demo_payload_code : list Instruction :=
  [Store (ConstInt64 0) (CreatePointerCast demo_payload_addr (llvmGetPointerTo t_int64_));
   Store (ConstantInt (TInt 1) 1) demo_payload_addr].

(** The element type of the tensor descriptor field a kind names. *)
Definition array_field_type (kind : Z) : LType :=
  if kind =? kArrAddr then t_tvm_array_
  else if kind =? kArrData then t_void_p_
  else if (kind =? kArrShape) || (kind =? kArrStrides) then llvmGetPointerTo t_tvm_shape_index_
  else if (kind =? kArrTypeCode) || (kind =? kArrTypeBits) then t_int8_
  else if kind =? kArrTypeLanes then t_int16_
  else if kind =? kArrByteOffset then t_int64_
  else t_int_.

(** The instructions a struct-set emits: the clearing store for a payload
    slot that is not 8 bytes wide, then the store of the value. *)
Definition struct_set_code (pb kind : Z) (ref : TypedPointer) (value : Value)
  : list Instruction :=
  (if (kind =? kTVMFFIAnyUnionValue) && negb (getTypeAllocSize pb (tp_type ref) =? 8)
   then [Store (ConstInt64 0) (CreatePointerCast (tp_addr ref) (llvmGetPointerTo t_int64_))]
   else []) ++
  [Store (if isPointerTy (getType value) then CreatePointerCast value (tp_type ref) else value)
         (tp_addr ref)].



(** A launch point around a parallel loop over a variable of the enclosing
    function. *)
Definition demo_launch : Stmt :=
  AttrStmt "pragma_parallel_launch_point" (IntImm (Int 32) 0)
    (For (mkVar (inl 0%nat) "i" (Int 32)) (IntImm (Int 32) 0) (IntImm (Int 32) 16)
         kParallel (Evaluate (VarE demo_any_var))).

Definition demo_launched : CodeGenCPU :=
  state_of (VisitStmt demo_launch demo_any_state) demo_any_state.

(** A statement holds a parallel loop that is lowered in the parallel
    environment the statement itself is lowered in: a parallel loop that is
    not inside a launch point of its own. *)
Fixpoint exposes_parallel_for (st : Stmt) {struct st} : bool :=
  match st with
  | For _ _ _ kind body =>
      match kind with kParallel => true | _ => exposes_parallel_for body end
  | AttrStmt key _ body =>
      if String.eqb key "pragma_parallel_launch_point" then false
      else exposes_parallel_for body
  | SeqStmt seq => existsb exposes_parallel_for seq
  | Evaluate _ => false
  end.

(** The environment is inside a parallel loop. *)
Definition in_loop (s : CodeGenCPU) : Prop :=
  in_parallel_loop (parallel_env_ s) = true /\ isSome (penv (parallel_env_ s)) = true.

(** [demo_env_state] while a parallel loop is being lowered. *)
Definition demo_in_loop_state : CodeGenCPU :=
  set_parallel_env_ (set_in_parallel_loop true (parallel_env_ demo_env_state)) demo_env_state.

Definition demo_parallel_for : Stmt :=
  For (mkVar (inl 0%nat) "i" (Int 32)) (IntImm (Int 32) 0) (IntImm (Int 32) 8)
      kParallel (SeqStmt []).

(** A block keeps its header: its name and the function it belongs to. *)
Definition blocks_kept (l l' : list BasicBlock) : Prop :=
  forall i b, l !! i = Some b ->
    exists b', l' !! i = Some b' /\ bb_name b' = bb_name b /\ bb_parent b' = bb_parent b.

(** The module only grows: the functions and the global variables of [s] are
    still there in [s'], at the same indices and unchanged, every block of
    [s] is still there with its name and its function, no instruction id
    handed out in [s] is handed out again, and every function name that has
    a handle cell in [s] has the same cell in [s']. *)
Definition module_grows (s s' : CodeGenCPU) : Prop :=
  functions s `prefix_of` functions s' /\ globals s `prefix_of` globals s' /\
  blocks_kept (blocks s) (blocks s') /\ (next_inst s <= next_inst s')%nat /\
  func_handle_map_ s ⊆ func_handle_map_ s'.

(** The stride pattern, once requested, stays requested. *)
Definition stride_kept (s s' : CodeGenCPU) : Prop :=
  stride_pattern (parallel_env_ s) = true -> stride_pattern (parallel_env_ s') = true.

(** A sequence that requests the stride pattern around nothing and then runs
    a parallel loop. *)
Definition demo_stride_then_loop : Stmt :=
  SeqStmt [AttrStmt "pragma_parallel_stride_pattern" (IntImm (Int 32) 0) (SeqStmt []);
           demo_parallel_for].

Definition demo_stride_then_loop_state : CodeGenCPU :=
  state_of (VisitStmt demo_stride_then_loop demo_env_state) demo_env_state.

(** The kinds of stack storage an intrinsic can ask for, with the element
    type of each. *)
Definition stack_alloca_types : list (string * LType) :=
  [("shape", t_tvm_shape_index_); ("tvm_ffi_any", t_tvm_ffi_any_);
   ("array", t_tvm_array_); ("tensormap", t_tvm_tensormap_)].

(** The state after an allocation of [n] elements of type [ty] was placed at
    the start of block [entry]: the allocation is the first instruction of
    that block, and the insertion point is the end of the block that was
    current. *)
Definition with_entry_alloca (ty : LType) (n : Z) (entry : nat) (s : CodeGenCPU) : CodeGenCPU :=
  set_insert_pos None
    (set_next_inst (S (next_inst s))
       (set_blocks
          (alter (fun b => mkBlock (bb_name b) (bb_parent b)
                                   (Alloca (next_inst s) ty (ConstInt32 n) :: bb_insts b))
                 entry (blocks s)) s)).

(** The functions of the module are the same. *)
Definition functions_kept (s s' : CodeGenCPU) : Prop := functions s' = functions s.

(** Two calls of the C packed function [f] on the arguments at [demo_any_var]. *)
Definition demo_cpacked_call : PrimExpr :=
  CallE (Int 32) tvm_call_cpacked_lowered
    [StringImm "f"; VarE demo_any_var; IntImm (Int 32) 0; IntImm (Int 32) 1].

Definition demo_cpacked_once : CodeGenCPU :=
  state_of (MakeValue demo_cpacked_call demo_any_state) demo_any_state.

Definition demo_cpacked_twice : CodeGenCPU :=
  state_of (MakeValue demo_cpacked_call demo_cpacked_once) demo_cpacked_once.

(** A packed call of [f], the launch of [demo_launch], and a second packed
    call of [f]. *)
Definition demo_handle_first : CodeGenCPU :=
  state_of (GetPackedFuncHandle "f" demo_any_state) demo_any_state.

Definition demo_handle_launched : CodeGenCPU :=
  state_of (VisitStmt demo_launch demo_handle_first) demo_handle_first.

Definition demo_handle_second : CodeGenCPU :=
  state_of (GetPackedFuncHandle "f" demo_handle_launched) demo_handle_launched.

(** Inside a parallel loop the environment stays inside the loop and counts
    no further loop. *)
Definition loop_body_kept (s s' : CodeGenCPU) : Prop :=
  in_loop s ->
  in_loop s' /\
  parallel_loop_count (parallel_env_ s') = parallel_loop_count (parallel_env_ s).

(** A parallel loop whose body launches a parallel loop of its own. *)
Definition demo_outer_parallel_for : Stmt :=
  For (mkVar (inl 1%nat) "j" (Int 32)) (IntImm (Int 32) 0) (IntImm (Int 32) 4) kParallel
      (AttrStmt "pragma_parallel_launch_point" (IntImm (Int 32) 0) demo_parallel_for).

Definition demo_outer_parallel_state : CodeGenCPU :=
  state_of (VisitStmt demo_outer_parallel_for demo_env_state) demo_env_state.

(** The run of the loop of the block partition: the three operands the
    lowering hands to [CreateSerialFor] (the two bounds of the task's range
    and the constant step 1 in the type of the upper bound), evaluated in
    machine [m]. *)
Definition block_loop_run (fuel : nat) (s : CodeGenCPU) (m : Machine) (extent : PrimExpr)
    (tvar nvar : Var) : option (list Z * bool) :=
  let t := dtype_of extent in
  let num_task := cast t (VarE nvar) in
  let task_id := cast t (VarE tvar) in
  let begin := block_begin extent task_id num_task in
  let end_ := block_end extent task_id num_task in
  match MakeValue begin s, MakeValue end_ s with
  | Ok b _, Ok e _ =>
      match eval_value m b, eval_value m e, eval_value m (ConstantInt (GetLLVMType end_) 1) with
      | Some (RInt b), Some (RInt e), Some (RInt st) => Some (serial_for_run fuel (bits t) b e st)
      | _, _, _ => None
      end
  | _, _ => None
  end.

(** How the slow path reaches the get-function-by-name entry point: the
    declared function itself, or a load of the context cell that holds its
    address (the load takes instruction id [id]). *)
Definition env_lookup_callee (r : RuntimeTable) (id : nat)
  : option (list Instruction * Value) :=
  match f_tvm_get_func_from_env_ r with
  | Some f => Some ([], f)
  | None =>
      match gv_tvm_get_func_from_env_ r with
      | Some g => Some ([Load id (getValueType g) g], InstResult id (getValueType g))
      | None => None
      end
  end.

(** The code one resolution of [fname] through the cell [cell] leaves in the
    module, from state [s] to state [s'] with result [v]; [code] and [callee]
    are the instructions and the value that reach the lookup entry point.
    - The fast path: the current block ends with the load of the cell and the
      null check, which goes to [handle_init_end] when the handle is not
      null and to [handle_init] when it is.
    - The slow path, in [handle_init]: the load of the module context, the
      get-function-by-name call with the name and the slot [out] (allocated
      at the entry of the function), and the check of its status; on success
      [call_end] loads the handle from [out], stores it into the cell and
      goes to [handle_init_end]; on failure [call_fail] returns the status.
    - [handle_init_end] holds the phi of the two handles and is the new
      insertion point. *)
Definition resolution_shape (fname : string) (cell : Value) (entry : nat)
    (code : list Instruction) (callee : Value) (s s' : CodeGenCPU) (v : Value) : Prop :=
  let k := length code in
  let f := function_ s in
  let pre := insert_block s in
  let init := length (blocks s) in
  let end_ := S init in
  let fail := S (S init) in
  let cont := S (S (S init)) in
  let id := next_inst s in
  let handle := InstResult id (getValueType cell) in
  let out := InstResult (1 + id) (llvmGetPointerTo t_tvm_func_handle_) in
  let ctx := gv_mod_ctx_ (runtime_ s) in
  let ctx_load := InstResult (2 + id) (getValueType ctx) in
  let retcode := InstResult (k + (3 + id)) (getReturnType ftype_tvm_get_func_from_env_) in
  let loaded := InstResult (k + (4 + id)) t_tvm_func_handle_ in
  let phi := (k + (5 + id))%nat in
  let check := CondBr (ICmp ICMP_NE handle (ConstantNull t_tvm_func_handle_)) end_ init in
  let merge := PHI phi t_tvm_func_handle_ [(handle, pre); (loaded, cont)] in
  v = InstResult phi t_tvm_func_handle_ /\
  (exists bb old,
     blocks s !! pre = Some bb /\
     blocks s' !! pre =
       Some (mkBlock (bb_name bb) (bb_parent bb)
                     (old ++ [Load id (getValueType cell) cell; check])) /\
     length old = (length (bb_insts bb) + if bool_decide (pre = entry) then 1 else 0)%nat) /\
  (exists bb rest,
     blocks s' !! entry = Some bb /\
     bb_insts bb = Alloca (1 + id) t_tvm_func_handle_ (ConstInt32 1) :: rest) /\
  blocks s' !! init =
    Some (mkBlock "handle_init" f
            (Load (2 + id) (getValueType ctx) ctx :: code ++
             [Call (k + (3 + id)) callee [ctx_load; GetConstString fname; out];
              CondBr (ICmp ICMP_EQ retcode (ConstantInt t_int_ 0)) cont fail])) /\
  blocks s' !! fail = Some (mkBlock "call_fail" f [Ret (Some retcode)]) /\
  blocks s' !! cont =
    Some (mkBlock "call_end" f
            [Load (k + (4 + id)) t_tvm_func_handle_ out; Store loaded cell; Br end_]) /\
  blocks s' !! end_ = Some (mkBlock "handle_init_end" f [merge]) /\
  length (blocks s') = S (S (S (S (length (blocks s))))) /\
  insert_block s' = end_ /\ insert_pos s' = None /\
  next_inst s' = (k + (6 + id))%nat /\
  (forall m prev hv isnull,
     regs m !! id = Some hv -> RVal_ptr_eqb hv RNull = Some isnull ->
     exec_insts prev [check] m = Some (Goto (if isnull then init else end_) m)) /\
  (forall m hv, regs m !! id = Some hv ->
     exec_insts pre [merge] m = Some (Next (set_reg phi hv m))) /\
  (forall m hv, regs m !! (k + (4 + id))%nat = Some hv ->
     exec_insts cont [merge] m = Some (Next (set_reg phi hv m))).

Definition resolution_code (fname : string) (cell : Value) (entry : nat)
    (s s' : CodeGenCPU) (v : Value) : Prop :=
  exists code callee,
    env_lookup_callee (runtime_ s) (3 + next_inst s) = Some (code, callee) /\
    resolution_shape fname cell entry code callee s s' v.

(** The state after the cell of [fname] was created: one more global, and the
    cache maps the name to it. *)
Definition with_handle_cell (fname : string) (s : CodeGenCPU) : CodeGenCPU :=
  set_func_handle_map_
    (<[fname := GlobalValue (length (globals s)) t_tvm_func_handle_]> (func_handle_map_ s))
    (set_globals (globals s ++ [mkGlobal (".tvm_func." +:+ fname) t_tvm_func_handle_
                                         InternalLinkage (ConstantNull t_tvm_func_handle_)]) s).

(** * Properties *)

Lemma CheckCallSuccess_unfold (s : CodeGenCPU) (retcode : Value) :
  let fail_block := length (blocks s) in
  let end_block := S (length (blocks s)) in
  let branch := CondBr (ICmp ICMP_EQ retcode (ConstantInt t_int_ 0)) end_block fail_block in
  let bs := (blocks s ++ [mkBlock "call_fail" (function_ s) []])
              ++ [mkBlock "call_end" (function_ s) []] in
  CheckCallSuccess retcode s =
  Ok end_block
     (set_insert_pos None (set_insert_block end_block
        (set_blocks
           (alter (fun b => mkBlock (bb_name b) (bb_parent b)
                                    (bb_insts b ++ [Ret (Some retcode)]))
                  fail_block
              (match insert_pos s with
               | None =>
                   alter (fun b => mkBlock (bb_name b) (bb_parent b) (bb_insts b ++ [branch]))
                         (insert_block s) bs
               | Some k =>
                   alter (fun b => mkBlock (bb_name b) (bb_parent b)
                                           (insert_at k branch (bb_insts b)))
                         (insert_block s) bs
               end)) s))).
Proof.
  unfold CheckCallSuccess, mbind, M_bind, gets, BasicBlock_Create, CreateCondBr, CreateRet,
    SetInsertPoint, emit, modify, mret, M_ret; simpl.
  rewrite !length_app; simpl.
  replace (length (blocks s) + 1)%nat with (S (length (blocks s))) by lia.
  destruct (insert_pos s); reflexivity.
Qed.

(** C3.  For every status value [retcode], [CheckCallSuccess] creates two
    blocks in the enclosing function: a failure block whose only instruction
    returns [retcode], and an empty continuation block.  The block at the
    insertion point is closed by a branch on [retcode == 0]; at run time the
    branch goes to the continuation block exactly when the status is zero,
    otherwise to the failure block, which returns that status at once.  The
    continuation block is the new insertion point and is targeted by no other
    branch of the module. *)
Theorem CheckCallSuccess_fail_fast (s : CodeGenCPU) (retcode : Value) :
  at_block_end s -> targets_closed s ->
  let fail_block := length (blocks s) in
  let end_block := S (length (blocks s)) in
  let branch := CondBr (ICmp ICMP_EQ retcode (ConstantInt t_int_ 0)) end_block fail_block in
  exists s',
    CheckCallSuccess retcode s = Ok end_block s' /\
    blocks s' !! fail_block = Some (mkBlock "call_fail" (function_ s) [Ret (Some retcode)]) /\
    blocks s' !! end_block = Some (mkBlock "call_end" (function_ s) []) /\
    length (blocks s') = S (S (length (blocks s))) /\
    (exists bb, blocks s !! insert_block s = Some bb /\
                blocks s' !! insert_block s =
                  Some (mkBlock (bb_name bb) (bb_parent bb) (bb_insts bb ++ [branch]))) /\
    insert_block s' = end_block /\ insert_pos s' = None /\
    (forall m prev rc, eval_value m retcode = Some (RInt rc) ->
       exec_insts prev [branch] m = Some (Goto (if rc =? 0 then end_block else fail_block) m) /\
       exec_insts (insert_block s) [Ret (Some retcode)] m = Some (Return (Some (RInt rc)) m)) /\
    (forall b bb i, blocks s' !! b = Some bb -> i ∈ bb_insts bb -> end_block ∈ successors i ->
       b = insert_block s /\ i = branch).
Proof.
  intros [Hpos Hlt] Hclosed fail_block end_block branch.
  destruct (lookup_lt_is_Some_2 (blocks s) (insert_block s) Hlt) as [bb Hbb].
  eexists. split; [apply CheckCallSuccess_unfold|].
  rewrite Hpos. cbn [blocks set_blocks set_insert_block set_insert_pos insert_block insert_pos].
  fold fail_block end_block branch.
  set (bs2 := (blocks s ++ [mkBlock "call_fail" (function_ s) []])
                ++ [mkBlock "call_end" (function_ s) []]).
  assert (Hne : insert_block s <> fail_block) by (unfold fail_block; lia).
  assert (Hfail0 : bs2 !! fail_block = Some (mkBlock "call_fail" (function_ s) [])).
  { unfold bs2, fail_block. rewrite lookup_app_l by (rewrite length_app; simpl; lia).
    rewrite lookup_app_r by lia. by rewrite Nat.sub_diag. }
  assert (Hend0 : bs2 !! end_block = Some (mkBlock "call_end" (function_ s) [])).
  { unfold bs2, end_block. rewrite lookup_app_r by (rewrite length_app; simpl; lia).
    rewrite length_app; simpl.
    replace (S (length (blocks s)) - (length (blocks s) + 1))%nat with 0%nat by lia. done. }
  assert (Hold : forall b, (b < length (blocks s))%nat -> bs2 !! b = blocks s !! b).
  { intros b Hb. unfold bs2. rewrite lookup_app_l by (rewrite length_app; simpl; lia).
    by rewrite lookup_app_l by lia. }
  split_and!.
  - rewrite list_lookup_alter_eq, list_lookup_alter_ne by done. by rewrite Hfail0.
  - rewrite !list_lookup_alter_ne by (unfold end_block, fail_block; lia). done.
  - rewrite !length_alter. unfold bs2. rewrite !length_app. simpl. lia.
  - exists bb. split; [done|].
    rewrite list_lookup_alter_ne, list_lookup_alter_eq by (unfold fail_block; lia).
    rewrite Hold, Hbb by done. done.
  - done.
  - done.
  - intros m prev rc Hrc. split.
    + simpl. rewrite Hrc. simpl. unfold unsigned_.
      change (0 `mod` 2 ^ 32) with 0.
      destruct (rc =? 0); reflexivity.
    + simpl. rewrite Hrc. reflexivity.
  - (* the only branch into the continuation block *)
    intros b bb' i Hl Hi Hd.
    destruct (decide (b = insert_block s)) as [->|Hb].
    + revert Hl. rewrite list_lookup_alter_ne, list_lookup_alter_eq, Hold, Hbb by done.
      intros [= <-]. simpl in Hi. apply elem_of_app in Hi as [Hi|Hi].
      * specialize (Hclosed _ _ _ _ Hbb Hi Hd). unfold end_block in Hclosed. lia.
      * by apply list_elem_of_singleton in Hi.
    + exfalso. revert Hl Hi Hd.
      destruct (decide (b = fail_block)) as [->|Hbf].
      * rewrite list_lookup_alter_eq, list_lookup_alter_ne, Hfail0 by done.
        intros [= <-]. simpl. intros ->%list_elem_of_singleton. simpl.
        intros Hin. inversion Hin.
      * rewrite !list_lookup_alter_ne by done.
        destruct (decide (b = end_block)) as [->|Hbe].
        -- rewrite Hend0. intros [= <-]. simpl. intros Hin. inversion Hin.
        -- intros Hl Hi Hd.
           assert (Hblt : (b < length (blocks s))%nat).
           { apply lookup_lt_Some in Hl. unfold bs2 in Hl. rewrite !length_app in Hl.
             simpl in Hl. unfold fail_block, end_block in *. lia. }
           rewrite Hold in Hl by done.
           specialize (Hclosed _ _ _ _ Hl Hi Hd). unfold end_block in Hclosed. lia.
Qed.

Lemma demo_state_closed : targets_closed demo_state.
Proof.
  intros b bb i d Hl Hi _.
  destruct b as [|b]; vm_compute in Hl; [|discriminate].
  injection Hl as <-. inversion Hi.
Defined.

Lemma demo_state_at_end : at_block_end demo_state.
Proof. split; [reflexivity | vm_compute; lia]. Defined.

Lemma CheckCallSuccess_fail_fast_witness :
  at_block_end demo_state /\ targets_closed demo_state /\
  exists s', CheckCallSuccess (InstResult 0 t_int_) demo_state = Ok 2%nat s' /\
             insert_block s' = 2%nat /\
             blocks s' !! 1%nat = Some (mkBlock "call_fail" 4 [Ret (Some (InstResult 0 t_int_))]).
Proof.
  split; [exact demo_state_at_end | split; [exact demo_state_closed|]].
  destruct (CheckCallSuccess_fail_fast demo_state (InstResult 0 t_int_)
              demo_state_at_end demo_state_closed)
    as (s' & Heq & Hfail & _ & _ & _ & Hib & _).
  exists s'. split; [exact Heq | split; [exact Hib | exact Hfail]].
Defined.

(** C8.  For every request of the tagged-value payload address, the base is
    reinterpreted as a tagged-value pointer and field 2 of element [index] is
    addressed; the element type of the result follows the requested type:
    the 1-byte integer for a boolean, the 8-byte integer for a 64-bit
    integer, the 8-byte float for a 64-bit float, the pointer type (of
    pointer width) for a handle.  Every other request, a vector type
    included, is a fatal error and produces no pointer.  The request emits no
    instruction and leaves the generator state as it was. *)
Theorem CreateStructRefPtr_payload (t : DataType) (buf index : Value) (s : CodeGenCPU) :
  let payload :=
    CreateInBoundsGEP t_tvm_ffi_any_
      (CreatePointerCast buf (llvmGetPointerTo t_tvm_ffi_any_)) [index; ConstInt32 2] in
  let pb := pointer_bytes (runtime_ s) in
  CreateStructRefPtr t buf index kTVMFFIAnyUnionValue s =
    (if negb (lanes t =? 1) then Fatal "Check failed: t.lanes() == 1"
     else if is_bool t then
       Ok (mkTypedPointer t_int8_
             (CreatePointerCast payload (llvmGetPointerTo (DTypeToLLVMType t)))) s
     else if is_int t && (bits t =? 64) then
       Ok (mkTypedPointer t_int64_ (CreatePointerCast payload (llvmGetPointerTo t_int64_))) s
     else if is_float t && (bits t =? 64) then
       Ok (mkTypedPointer t_float64_ (CreatePointerCast payload (llvmGetPointerTo t_float64_))) s
     else if is_handle t then
       Ok (mkTypedPointer t_void_p_ (CreatePointerCast payload (llvmGetPointerTo t_void_p_))) s
     else Fatal "unknown field code") /\
  getTypeAllocSize pb t_int8_ = 1 /\ getTypeAllocSize pb t_int64_ = 8 /\
  getTypeAllocSize pb t_float64_ = 8 /\ getTypeAllocSize pb t_void_p_ = pb.
Proof.
  split; [|by repeat split].
  unfold CreateStructRefPtr.
  change (kTVMFFIAnyUnionValue <? kArrKindBound_) with false.
  cbv beta iota delta [kTVMFFIAnyUnionValue kArrAddr kArrData kArrShape kArrStrides kArrNDim
    kArrTypeCode kArrTypeBits kArrTypeLanes kArrByteOffset kArrDeviceId kArrDeviceType
    kTVMFFIAnyTypeIndex].
  change (13 =? 0) with false. change (13 =? 1) with false. change (13 =? 2) with false.
  change (13 =? 3) with false. change (13 =? 4) with false. change (13 =? 5) with false.
  change (13 =? 6) with false. change (13 =? 7) with false. change (13 =? 8) with false.
  change (13 =? 9) with false. change (13 =? 10) with false. change (13 =? 12) with false.
  change (13 =? 13) with true. cbv iota.
  unfold mbind, M_bind, mret, M_ret, ICHECK, fatal.
  destruct (lanes t =? 1); simpl; [|reflexivity].
  destruct (is_bool t); [reflexivity|].
  destruct (is_int t && (bits t =? 64)); [reflexivity|].
  destruct (is_float t && (bits t =? 64)); [reflexivity|].
  destruct (is_handle t); reflexivity.
Qed.

(** C10.  A loop whose minimum is not the integer constant zero aborts the
    lowering with a fatal error, whatever its kind (serial, unrolled,
    parallel or any other), its extent and its body: the check is the first
    step of the loop lowering, so nothing of the loop is emitted. *)
Theorem VisitStmt_For_min_nonzero (loop_var : Var) (mn extent : PrimExpr) (kind : ForKind)
    (body : Stmt) (s : CodeGenCPU) :
  is_zero mn = false ->
  VisitStmt (For loop_var mn extent kind body) s = Fatal "Check failed: is_zero(op->min)".
Proof.
  intros Hmin. simpl. unfold VisitStmt_For at 1.
  unfold mbind, M_bind, ICHECK. rewrite Hmin. reflexivity.
Qed.

Lemma VisitStmt_For_min_nonzero_witness :
  is_zero (IntImm (Int 32) 1) = false /\
  VisitStmt (For (mkVar (inl 0%nat) "i" (Int 32)) (IntImm (Int 32) 1) (IntImm (Int 32) 8)
                 kSerial (SeqStmt [])) demo_state
  = Fatal "Check failed: is_zero(op->min)".
Proof.
  split; [reflexivity|].
  apply (VisitStmt_For_min_nonzero _ (IntImm (Int 32) 1)). reflexivity.
Defined.

(** ** Reasoning about the lowering monad *)

Lemma bind_Ok {A B} (m : M A) (k : A -> M B) (s s' : CodeGenCPU) (b : B) :
  (m ≫= k) s = Ok b s' <-> exists a s1, m s = Ok a s1 /\ k a s1 = Ok b s'.
Proof.
  unfold mbind, M_bind. split.
  - destruct (m s) as [a s1|msg]; [|discriminate]. eauto.
  - intros (a & s1 & -> & Hk). exact Hk.
Qed.

Lemma bind_Fatal {A B} (m : M A) (k : A -> M B) (s : CodeGenCPU) (msg : string) :
  m s = Fatal msg -> (m ≫= k) s = Fatal msg.
Proof. unfold mbind, M_bind. by intros ->. Qed.

Lemma bind_step {A B} (m : M A) (k : A -> M B) (s s1 : CodeGenCPU) (a : A) :
  m s = Ok a s1 -> (m ≫= k) s = k a s1.
Proof. unfold mbind, M_bind. by intros ->. Qed.

#[global] Instance same_context_preorder : PreOrder same_context.
Proof.
  split.
  - by intros s.
  - intros s1 s2 s3 (?&?&?&?) (?&?&?&?). unfold same_context. split_and!; congruence.
Qed.

#[global] Instance env_extends_preorder : PreOrder env_extends.
Proof.
  split.
  - intros e. unfold env_extends. split_and!; (done || lia).
  - intros e1 e2 e3 (?&?&?&?&?) (?&?&?&?&?). unfold env_extends.
    split_and!; (congruence || lia).
Qed.

#[global] Instance stmt_frame_preorder quiet : PreOrder (stmt_frame quiet).
Proof.
  split.
  - intros s. unfold stmt_frame. split_and!; reflexivity.
  - intros s1 s2 s3 (?&?&?&?&Hq1) (?&?&?&?&Hq2). unfold stmt_frame.
    split_and!; try congruence; [by etransitivity|].
    intros Hq. rewrite Hq2, Hq1 by done. done.
Qed.

Lemma same_context_stmt_frame quiet (s s' : CodeGenCPU) :
  same_context s s' -> stmt_frame quiet s s'.
Proof.
  intros (?&He&?&?). unfold stmt_frame. rewrite He. split_and!; try done; reflexivity.
Qed.

Lemma preserves_bind {A B} (R : CodeGenCPU -> CodeGenCPU -> Prop) `{!PreOrder R}
    (m : M A) (k : A -> M B) :
  preserves R m -> (forall a, preserves R (k a)) -> preserves R (m ≫= k).
Proof.
  intros Hm Hk s b s' (a & s1 & H1 & H2)%bind_Ok.
  etransitivity; [eapply Hm | eapply Hk]; eauto.
Qed.

Lemma preserves_ret {A} (R : CodeGenCPU -> CodeGenCPU -> Prop) `{!PreOrder R} (a : A) :
  preserves R (mret a).
Proof. intros s b s' [= <- <-]. reflexivity. Qed.

Lemma preserves_fatal {A} (R : CodeGenCPU -> CodeGenCPU -> Prop) (msg : string) :
  preserves R (@fatal A msg).
Proof. intros s b s' [=]. Qed.

Lemma preserves_gets {A} (R : CodeGenCPU -> CodeGenCPU -> Prop) `{!PreOrder R}
    (f : CodeGenCPU -> A) :
  preserves R (gets f).
Proof. intros s b s' [= <- <-]. reflexivity. Qed.

Lemma preserves_get (R : CodeGenCPU -> CodeGenCPU -> Prop) `{!PreOrder R} : preserves R get.
Proof. intros s b s' [= <- <-]. reflexivity. Qed.

Lemma preserves_ICHECK (R : CodeGenCPU -> CodeGenCPU -> Prop) `{!PreOrder R} c msg :
  preserves R (ICHECK c msg).
Proof. destruct c; [by apply preserves_ret | apply preserves_fatal]. Qed.

Lemma preserves_modify (R : CodeGenCPU -> CodeGenCPU -> Prop) (f : CodeGenCPU -> CodeGenCPU) :
  (forall s, R s (f s)) -> preserves R (modify f).
Proof. intros Hf s b s' [= _ <-]. apply Hf. Qed.

Lemma preserves_weaken {A} (R R' : CodeGenCPU -> CodeGenCPU -> Prop) (m : M A) :
  (forall s s', R s s' -> R' s s') -> preserves R m -> preserves R' m.
Proof. intros HR Hm s a s' H. eauto. Qed.

Lemma ctx_stmt_frame {A} quiet (m : M A) :
  preserves same_context m -> preserves (stmt_frame quiet) m.
Proof. apply preserves_weaken, same_context_stmt_frame. Qed.

Create HintDb pres discriminated.

Ltac pres_step :=
  first
    [ solve [auto with pres nocore]
    | progress cbv zeta
    | apply preserves_bind; [typeclasses eauto | | intros ?]
    | apply preserves_ret; typeclasses eauto
    | apply preserves_fatal
    | apply preserves_gets; typeclasses eauto
    | apply preserves_get; typeclasses eauto
    | apply preserves_ICHECK; typeclasses eauto
    | solve [apply preserves_modify; intros ?; unfold same_context; simpl; done]
    | match goal with
      | |- preserves _ (match ?x with _ => _ end) => destruct x
      | |- preserves _ (if ?c then _ else _) => destruct c
      end ].

Ltac pres := repeat pres_step.

Lemma fresh_inst_ctx : preserves same_context fresh_inst.
Proof. by intros s a s' [= <- <-]. Qed.

Lemma BasicBlock_Create_ctx name f : preserves same_context (BasicBlock_Create name f).
Proof. by intros s a s' [= <- <-]. Qed.

Lemma SetInsertPoint_ctx b : preserves same_context (SetInsertPoint b).
Proof. unfold SetInsertPoint. pres. Qed.

Lemma GetInsertBlock_ctx : preserves same_context GetInsertBlock.
Proof. unfold GetInsertBlock. pres. Qed.

Lemma emit_ctx i : preserves same_context (emit i).
Proof.
  unfold emit. apply preserves_modify. intros s. by destruct (insert_pos s).
Qed.

Lemma addIncoming_ctx phi v b : preserves same_context (addIncoming phi v b).
Proof. unfold addIncoming. pres. Qed.

Lemma Function_Create_ctx fty l name : preserves same_context (Function_Create fty l name).
Proof. by intros s a s' [= <- <-]. Qed.

Lemma new_GlobalVariable_ctx ty l init name :
  preserves same_context (new_GlobalVariable ty l init name).
Proof. by intros s a s' [= <- <-]. Qed.

#[global] Hint Resolve fresh_inst_ctx BasicBlock_Create_ctx SetInsertPoint_ctx
  GetInsertBlock_ctx emit_ctx addIncoming_ctx Function_Create_ctx new_GlobalVariable_ctx : pres.

Lemma CreateAlloca_ctx ty num : preserves same_context (CreateAlloca ty num).
Proof. unfold CreateAlloca. pres. Qed.

Lemma CreateLoad_ctx ty addr : preserves same_context (CreateLoad ty addr).
Proof. unfold CreateLoad. pres. Qed.

Lemma CreateStore_ctx v addr : preserves same_context (CreateStore v addr).
Proof. unfold CreateStore. pres. Qed.

Lemma CreateCall_ctx fty callee args : preserves same_context (CreateCall fty callee args).
Proof. unfold CreateCall. pres. Qed.

Lemma CreateBr_ctx d : preserves same_context (CreateBr d).
Proof. unfold CreateBr. pres. Qed.

Lemma CreateCondBr_ctx c t f : preserves same_context (CreateCondBr c t f).
Proof. unfold CreateCondBr. pres. Qed.

Lemma CreateRet_ctx v : preserves same_context (CreateRet v).
Proof. unfold CreateRet. pres. Qed.

Lemma CreatePHI_ctx ty : preserves same_context (CreatePHI ty).
Proof. unfold CreatePHI. pres. Qed.

#[global] Hint Resolve CreateAlloca_ctx CreateLoad_ctx CreateStore_ctx CreateCall_ctx
  CreateBr_ctx CreateCondBr_ctx CreateRet_ctx CreatePHI_ctx : pres.

Lemma WithFunctionEntry_ctx {A} (m : M A) :
  preserves same_context m -> preserves same_context (WithFunctionEntry m).
Proof. intros Hm. unfold WithFunctionEntry. pres. Qed.

Lemma CheckCallSuccess_ctx retcode : preserves same_context (CheckCallSuccess retcode).
Proof. unfold CheckCallSuccess. pres. Qed.

Lemma GetContextPtr_ctx gv : preserves same_context (GetContextPtr gv).
Proof. unfold GetContextPtr. pres. Qed.

#[global] Hint Resolve WithFunctionEntry_ctx CheckCallSuccess_ctx GetContextPtr_ctx : pres.

Lemma RuntimeTVMFFIFunctionCall_ctx : preserves same_context RuntimeTVMFFIFunctionCall.
Proof. unfold RuntimeTVMFFIFunctionCall. pres. Qed.

Lemma RuntimeTVMGetFuncFromEnv_ctx : preserves same_context RuntimeTVMGetFuncFromEnv.
Proof. unfold RuntimeTVMGetFuncFromEnv. pres. Qed.

Lemma RuntimeTVMParallelLaunch_ctx : preserves same_context RuntimeTVMParallelLaunch.
Proof. unfold RuntimeTVMParallelLaunch. pres. Qed.

Lemma RuntimeTVMParallelBarrier_ctx : preserves same_context RuntimeTVMParallelBarrier.
Proof. unfold RuntimeTVMParallelBarrier. pres. Qed.

#[global] Hint Resolve RuntimeTVMFFIFunctionCall_ctx RuntimeTVMGetFuncFromEnv_ctx
  RuntimeTVMParallelLaunch_ctx RuntimeTVMParallelBarrier_ctx : pres.

Lemma GetPackedFuncHandle_ctx fname : preserves same_context (GetPackedFuncHandle fname).
Proof. unfold GetPackedFuncHandle. pres. Qed.

Lemma CreateStaticHandle_ctx : preserves same_context CreateStaticHandle.
Proof. unfold CreateStaticHandle. pres. Qed.

Lemma GetVarValue_ctx v : preserves same_context (GetVarValue v).
Proof. unfold GetVarValue. pres. Qed.

Lemma CreateStructRefPtr_ctx t buf index kind :
  preserves same_context (CreateStructRefPtr t buf index kind).
Proof. unfold CreateStructRefPtr, array_member. pres. Qed.

#[global] Hint Resolve GetPackedFuncHandle_ctx CreateStaticHandle_ctx GetVarValue_ctx
  CreateStructRefPtr_ctx : pres.

Lemma as_IntImm_ctx e : preserves same_context (as_IntImm e).
Proof. unfold as_IntImm. pres. Qed.

#[global] Hint Resolve as_IntImm_ctx : pres.

Lemma MakeCallPackedLowered_ctx mv args r_type b e lookup :
  (forall i, preserves same_context (mv i)) ->
  preserves same_context (MakeCallPackedLowered mv args r_type b e lookup).
Proof. intros Hmv. unfold MakeCallPackedLowered. pres. Qed.

Lemma CreateCallPacked_ctx mv dtype op args :
  (forall i, preserves same_context (mv i)) ->
  preserves same_context (CreateCallPacked mv dtype op args).
Proof.
  intros Hmv. unfold CreateCallPacked. pres; by apply MakeCallPackedLowered_ctx.
Qed.

Lemma CreateIntrinsic_ctx mv dtype op args :
  (forall i, preserves same_context (mv i)) ->
  preserves same_context (CreateIntrinsic mv dtype op args).
Proof.
  intros Hmv. unfold CreateIntrinsic.
  destruct op; pres; try (by apply CreateCallPacked_ctx);
    try (apply WithFunctionEntry_ctx; pres).
Qed.

(** Induction on expressions, with the arguments of a call as premises. *)
Lemma PrimExpr_rect_args (P : PrimExpr -> Prop) :
  (forall t v, P (IntImm t v)) ->
  (forall s, P (StringImm s)) ->
  (forall v, P (VarE v)) ->
  (forall t a, P a -> P (Cast t a)) ->
  (forall a b, P a -> P b -> P (Add a b)) ->
  (forall a b, P a -> P b -> P (Sub a b)) ->
  (forall a b, P a -> P b -> P (Mul a b)) ->
  (forall a b, P a -> P b -> P (Div a b)) ->
  (forall a b, P a -> P b -> P (Min a b)) ->
  (forall t op args, Forall P args -> P (CallE t op args)) ->
  forall e, P e.
Proof.
  intros HI HS HV HC HA HSu HM HD HMi HCall.
  fix IH 1. intros [t v|s|v|t a|a b|a b|a b|a b|a b|t op args].
  - apply HI.
  - apply HS.
  - apply HV.
  - apply HC, IH.
  - apply HA; apply IH.
  - apply HSu; apply IH.
  - apply HM; apply IH.
  - apply HD; apply IH.
  - apply HMi; apply IH.
  - apply HCall. induction args as [|a args IHa]; constructor; [apply IH | exact IHa].
Qed.

Lemma MakeValue_of_preserves R (lowered : list (M Value)) :
  Forall (preserves R) lowered -> forall i, preserves R (MakeValue_of lowered i).
Proof.
  intros Hall i. unfold MakeValue_of.
  destruct (lowered !! i) as [m|] eqn:Hl; simpl; [|apply preserves_fatal].
  eapply Forall_lookup_1 in Hall; eauto.
Qed.

Lemma MakeValue_ctx e : preserves same_context (MakeValue e).
Proof.
  induction e using PrimExpr_rect_args; simpl; pres;
    try (apply CreateIntrinsic_ctx, MakeValue_of_preserves; by apply Forall_fmap).
Qed.

#[global] Hint Resolve MakeValue_ctx : pres.

(** ** Statement lowering restores the context *)

Ltac bind_inv H :=
  repeat match type of H with
  | (_ ≫= _) _ = Ok _ _ =>
      let a := fresh "a" in let s := fresh "s" in let H1 := fresh "H" in
      apply bind_Ok in H as (a & s & H1 & H)
  | (if ?c then _ else _) _ = Ok _ _ => destruct c eqn:?
  | (match ?x with _ => _ end) _ = Ok _ _ => destruct x eqn:?
  end.

Ltac case_split :=
  repeat match goal with
  | |- (if ?c then _ else _) _ = Ok _ _ -> _ => destruct c
  | |- (match ?x with _ => _ end) _ = Ok _ _ -> _ => destruct x
  end.

Ltac step_facts :=
  repeat match goal with
  | H : gets _ _ = Ok _ _ |- _ => unfold gets in H; injection H as <- <-
  | H : get _ = Ok _ _ |- _ => unfold get in H; injection H as <- <-
  | H : mret _ _ = Ok _ _ |- _ => unfold mret, M_ret in H; injection H as <- <-
  | H : fatal _ _ = Ok _ _ |- _ => discriminate H
  | H : modify _ _ = Ok _ _ |- _ => unfold modify in H; injection H as <-
  | H : ICHECK ?c _ _ = Ok _ _ |- _ =>
      let E := fresh "E" in
      destruct c eqn:E;
        [unfold ICHECK, mret, M_ret in H; injection H as <- <- | discriminate H]
  | H : ?m ?s = Ok _ ?s' |- _ =>
      let F := fresh "F" in
      assert (F : same_context s s')
        by (apply (fun p : preserves same_context m => p _ _ _ H); pres);
      clear H
  end.

Ltac elim_eqs :=
  repeat match goal with
  | H : var_map_ ?x = _ |- _ => is_var x; try rewrite H in *; clear H
  | H : parallel_env_ ?x = _ |- _ => is_var x; try rewrite H in *; clear H
  | H : function_ ?x = _ |- _ => is_var x; try rewrite H in *; clear H
  | H : runtime_ ?x = _ |- _ => is_var x; try rewrite H in *; clear H
  | H : parallel_loop_count (parallel_env_ ?x) = _ |- _ =>
      is_var x; try rewrite H in *; clear H
  end.

Ltac use_body :=
  repeat match goal with
  | Hb : preserves _ ?m, H : ?m _ = Ok _ _ |- _ => apply Hb in H
  end.

Ltac frame_facts :=
  use_body; subst;
  unfold same_context, stmt_frame in *; simpl in *; destruct_and?;
  repeat match goal with
  | H : true = true -> _ |- _ => specialize (H eq_refl)
  | H : false = true -> _ |- _ => clear H
  end;
  elim_eqs.

Ltac frame_split :=
  refine (conj _ (conj _ (conj _ (conj _ _))));
  try match goal with
      | |- ?x = ?x => exact eq_refl
      | |- _ -> ?x = ?x => intros _; exact eq_refl
      | |- false = true -> _ => intros ?; discriminate
      | |- env_extends _ _ => first [assumption | reflexivity]
      end.

Lemma negb_isSome_None {A} (o : option A) : negb (isSome o) = true -> o = None.
Proof. by destruct o. Qed.

Lemma stmt_frame_quiet q (s s' : CodeGenCPU) : stmt_frame true s s' -> stmt_frame q s s'.
Proof.
  intros (?&?&?&?&Hq). unfold stmt_frame. split_and!; try done. intros _. by apply Hq.
Qed.

Lemma CreateSerialFor_frame quiet begin end_ stride lv (body : M unit) :
  preserves (stmt_frame quiet) body ->
  preserves (stmt_frame quiet) (CreateSerialFor begin end_ stride lv body).
Proof.
  intros Hb s a s'. unfold CreateSerialFor. intros H.
  bind_inv H. step_facts.
  apply negb_isSome_None in E.
  destruct quiet; frame_facts; frame_split.
  all: rewrite delete_insert_id by exact E; exact eq_refl.
Qed.

Lemma closure_field_types_ctx vfields : preserves same_context (closure_field_types vfields).
Proof. induction vfields as [|v rest IH]; simpl; pres. Qed.

Lemma store_closure_fields_ctx ctype cvalue i vfields :
  preserves same_context (store_closure_fields ctype cvalue i vfields).
Proof. revert i. induction vfields as [|v rest IH]; intros i; simpl; pres. Qed.

#[global] Hint Resolve closure_field_types_ctx store_closure_fields_ctx : pres.

Lemma PackClosureData_ctx vfields name : preserves same_context (PackClosureData vfields name).
Proof. unfold PackClosureData. pres. Qed.

Lemma unpack_fields_ctx cdata i vfields vmap :
  preserves same_context (unpack_fields cdata i vfields vmap).
Proof. revert i vmap. induction vfields as [|v rest IH]; intros i vmap; simpl; pres. Qed.

Lemma UnpackClosureData_ctx cdata vfields vmap :
  preserves same_context (UnpackClosureData cdata vfields vmap).
Proof. apply unpack_fields_ctx. Qed.

Lemma fresh_Var_ctx name t : preserves same_context (fresh_Var name t).
Proof. by intros s a s' [= <- <-]. Qed.

#[global] Hint Resolve PackClosureData_ctx UnpackClosureData_ctx fresh_Var_ctx : pres.

Lemma CreateParallelLaunch_frame q q' (body : M unit) st n name :
  preserves (stmt_frame q) body ->
  preserves (stmt_frame q') (CreateParallelLaunch body st n name).
Proof.
  intros Hb s a s'. unfold CreateParallelLaunch. intros H.
  bind_inv H. step_facts. frame_facts. frame_split.
Qed.

Lemma CreateStaticInit_frame q (body : M unit) fname st :
  preserves (stmt_frame q) body ->
  preserves (stmt_frame q) (CreateStaticInit body fname st).
Proof.
  intros Hb s a s'. unfold CreateStaticInit. intros H.
  bind_inv H. step_facts. destruct q; frame_facts; frame_split.
Qed.

Lemma bind_arguments_runtime f idx vargs values :
  preserves (fun s s' => function_ s' = function_ s /\ runtime_ s' = runtime_ s /\
                         parallel_env_ s' = parallel_env_ s)
            (bind_arguments f idx vargs values).
Proof.
  revert idx values. induction vargs as [|v vargs IH]; intros idx [|x values]; simpl;
    try (by intros s a s' [= <- <-]).
  intros s a s' (a1 & s1 & H1 & H2)%bind_Ok.
  apply IH in H2. injection H1 as H1. subst s1. exact H2.
Qed.

Lemma mapM_GetVarValue_ctx l : preserves same_context (mapM GetVarValue l).
Proof. induction l as [|v l IH]; simpl; pres. Qed.

#[global] Hint Resolve mapM_GetVarValue_ctx : pres.

Lemma CreateComputeScope_frame q (body : M unit) value st :
  preserves (stmt_frame q) body ->
  preserves (stmt_frame q) (CreateComputeScope body value st).
Proof.
  intros Hb s a s'. unfold CreateComputeScope. intros H.
  bind_inv H. step_facts.
  match goal with H : bind_arguments _ _ _ _ _ = Ok _ _ |- _ =>
    apply bind_arguments_runtime in H end.
  destruct q; frame_facts; frame_split.
Qed.

Lemma VisitStmt_AttrStmt_frame q (body : M unit) key value st :
  preserves (stmt_frame q) body ->
  preserves (stmt_frame q) (VisitStmt_AttrStmt body key value st).
Proof.
  intros Hb s a s'. unfold VisitStmt_AttrStmt. case_split.
  all: try (intros H; by apply Hb in H).
  all: try (intros H; discriminate H).
  - by apply CreateStaticInit_frame.
  - by apply CreateComputeScope_frame.
  - intros H. bind_inv H. step_facts. destruct q; frame_facts; frame_split.
    all: unfold env_extends in *; simpl in *; destruct_and?; split_and!; congruence.
  - by apply (CreateParallelLaunch_frame q).
  - intros H. bind_inv H. step_facts. destruct q; frame_facts; frame_split.
Qed.

Ltac sframe :=
  repeat first
    [ apply CreateSerialFor_frame; assumption
    | apply preserves_bind; [typeclasses eauto | | intros ?]
    | apply ctx_stmt_frame; solve [pres]
    | match goal with
      | |- preserves _ (if ?c then _ else _) => destruct c
      end ].

Lemma VisitStmt_For_frame q (self body : M unit) lv mn ext kind st :
  (q = true -> kind <> kParallel) ->
  preserves (stmt_frame false) self ->
  preserves (stmt_frame q) body ->
  preserves (stmt_frame q) (VisitStmt_For self body lv mn ext kind st).
Proof.
  intros Hq Hself Hb s a s'. unfold VisitStmt_For.
  intros (a0 & s0 & H0 & H)%bind_Ok. step_facts. revert H.
  destruct kind; try (intros H; discriminate H).
  - (* serial *)
    intros H. apply (fun p : preserves (stmt_frame q) _ => p _ _ _ H). sframe.
  - (* parallel *)
    intros H. bind_inv H; step_facts.
    + (* already in an environment: a loop is counted *)
      destruct q; [exfalso; by apply Hq|].
      match goal with H : _ ?s2 = Ok _ ?s3 |- _ =>
        assert (F : stmt_frame false s2 s3)
          by (apply (fun p : preserves (stmt_frame false) _ => p _ _ _ H); sframe);
        clear H
      end.
      apply negb_true_iff in E0.
      clear Hb Hself. frame_facts. frame_split.
      unfold env_extends in *. simpl in *. destruct_and?. split_and!; try congruence. lia.
    + (* no environment: launch *)
      match goal with H : CreateParallelLaunch _ _ _ _ _ = Ok _ _ |- _ =>
        by apply (CreateParallelLaunch_frame false q _ _ _ _ Hself) in H end.
  - (* unrolled *)
    intros H. apply (fun p : preserves (stmt_frame q) _ => p _ _ _ H). sframe.
Qed.

Lemma Stmt_ind_seq (P : Stmt -> Prop) :
  (forall lv mn ext kind body, P body -> P (For lv mn ext kind body)) ->
  (forall key value body, P body -> P (AttrStmt key value body)) ->
  (forall seq, Forall P seq -> P (SeqStmt seq)) ->
  (forall value, P (Evaluate value)) ->
  forall s, P s.
Proof.
  intros HF HA HS HE. fix IH 1. intros [lv mn ext kind body|key value body|seq|value].
  - apply HF, IH.
  - apply HA, IH.
  - apply HS. induction seq as [|st seq IHs]; constructor; [apply IH | exact IHs].
  - apply HE.
Qed.

Lemma VisitStmt_frame st :
  forall q, (q = true -> has_parallel_for st = false) -> preserves (stmt_frame q) (VisitStmt st).
Proof.
  induction st as [lv mn ext kind body IH|key value body IH|seq IH|value] using Stmt_ind_seq;
    intros q Hq.
  - cbn [VisitStmt]. apply VisitStmt_For_frame.
    + intros -> ->. by specialize (Hq eq_refl).
    + apply VisitStmt_For_frame; [discriminate | apply preserves_fatal | by apply IH].
    + apply IH. intros ->. specialize (Hq eq_refl). simpl in Hq. by destruct kind.
  - cbn [VisitStmt]. apply VisitStmt_AttrStmt_frame, IH, Hq.
  - cbn [VisitStmt].
    assert (Hall : q = true -> Forall (fun st => has_parallel_for st = false) seq).
    { intros ->. specialize (Hq eq_refl). simpl in Hq.
      apply Forall_forall. intros st Hin.
      destruct (has_parallel_for st) eqn:Hp; [|done].
      assert (existsb has_parallel_for seq = true); [|congruence].
      apply existsb_exists. exists st. split; [by apply list_elem_of_In | done]. }
    clear Hq. induction seq as [|st seq IHseq].
    + apply preserves_ret. typeclasses eauto.
    + apply Forall_cons in IH as [IH1 IH2].
      apply preserves_bind; [typeclasses eauto | |intros _].
      * apply IH1. intros Hq. by apply Hall, Forall_cons in Hq as [? _].
      * apply IHseq; [done|]. intros Hq. by apply Hall, Forall_cons in Hq as [_ ?].
  - cbn [VisitStmt]. apply ctx_stmt_frame. pres.
Qed.

(** C9.  A parallel launch whose body contains no parallel loop is a fatal
    generation error: the environment of the launch starts with a loop count
    of zero, lowering a body without parallel loop leaves the count at zero,
    and the check that follows the lowering of the closure body rejects a
    zero count. *)
Theorem CreateParallelLaunch_without_parallel_for (body : Stmt) (num_task : Z) (name : string)
    (s : CodeGenCPU) :
  has_parallel_for body = false ->
  exists msg, CreateParallelLaunch (VisitStmt body) body num_task name s = Fatal msg.
Proof.
  intros Hno.
  destruct (CreateParallelLaunch (VisitStmt body) body num_task name s) as [a s'|msg] eqn:H;
    [exfalso | by exists msg].
  revert H. unfold CreateParallelLaunch. intros H.
  bind_inv H. step_facts.
  match goal with H : VisitStmt body _ = Ok _ _ |- _ =>
    apply (VisitStmt_frame body true (fun _ => Hno)) in H as (_ & _ & _ & _ & Hcount) end.
  specialize (Hcount eq_refl). subst.
  match goal with F : same_context _ ?s14, E : negb (parallel_loop_count (parallel_env_ ?s14) =? 0) = true |- _ =>
    destruct F as (_ & Fe & _ & _); rewrite Fe, Hcount in E; simpl in E; discriminate E end.
Qed.

Lemma CreateParallelLaunch_without_parallel_for_witness :
  has_parallel_for (Evaluate (IntImm (Int 32) 0)) = false /\
  exists msg,
    CreateParallelLaunch (VisitStmt (Evaluate (IntImm (Int 32) 0)))
      (Evaluate (IntImm (Int 32) 0)) 0 "pragma_parallel" demo_state = Fatal msg.
Proof.
  split; [reflexivity|].
  apply CreateParallelLaunch_without_parallel_for. reflexivity.
Defined.

(** On a body that lowers without error the failure is the diagnostic of the
    launch itself. *)
Example launch_point_without_loop :
  VisitStmt (AttrStmt "pragma_parallel_launch_point" (IntImm (Int 32) 0)
                      (Evaluate (IntImm (Int 32) 0))) demo_state
  = Fatal "Cannot find parallel loop within parallel launch".
Proof. vm_compute. reflexivity. Qed.

(** The same launch point around a parallel loop lowers. *)
Example launch_point_with_loop :
  exists s',
    VisitStmt (AttrStmt "pragma_parallel_launch_point" (IntImm (Int 32) 0)
                 (For (mkVar (inl 0%nat) "i" (Int 32)) (IntImm (Int 32) 0) (IntImm (Int 32) 16)
                      kParallel (SeqStmt []))) demo_state
    = Ok tt s'.
Proof. eexists. vm_compute. reflexivity. Qed.

Lemma VisitStmt_barrier (value : PrimExpr) (body : Stmt) :
  VisitStmt (AttrStmt "pragma_parallel_barrier_when_finish" value body) =
  (pe ← gets parallel_env_;
   ICHECK (isSome (penv pe)) "Cannot run barrier without parallel environment";;
   ICHECK (negb (in_parallel_loop pe))
          "Cannot not place within parallel loop as the workload may differ";;
   VisitStmt body;;
   bar_callee ← RuntimeTVMParallelBarrier;
   pe ← gets parallel_env_;
   tid ← match task_id pe with
         | Some v => GetVarValue v
         | None => fatal "undefined task id"
         end;
   CreateCall ftype_tvm_parallel_barrier_ bar_callee
     [tid; default (ConstantNull (llvmGetPointerTo t_tvm_parallel_group_env_)) (penv pe)];;
   mret tt).
Proof. reflexivity. Qed.

(** C7.  A barrier statement outside a parallel environment, or inside one
    while a per-task sub-range loop is being lowered, is a fatal error.  In an
    active environment with no sub-range loop open, once the body of the
    statement has been lowered, the barrier primitive is called with the value
    of the environment's task id and with its synchronization block. *)
Theorem barrier_lowering (value : PrimExpr) (body : Stmt) (s : CodeGenCPU) :
  let stmt := AttrStmt "pragma_parallel_barrier_when_finish" value body in
  (penv (parallel_env_ s) = None ->
   VisitStmt stmt s = Fatal "Cannot run barrier without parallel environment") /\
  (isSome (penv (parallel_env_ s)) = true -> in_parallel_loop (parallel_env_ s) = true ->
   VisitStmt stmt s
   = Fatal "Cannot not place within parallel loop as the workload may differ") /\
  (forall p tv tid s1,
     penv (parallel_env_ s) = Some p -> in_parallel_loop (parallel_env_ s) = false ->
     task_id (parallel_env_ s) = Some tv -> var_map_ s !! vnode tv = Some tid ->
     VisitStmt body s = Ok tt s1 ->
     VisitStmt stmt s =
       (bar_callee ← RuntimeTVMParallelBarrier;
        CreateCall ftype_tvm_parallel_barrier_ bar_callee [tid; p];; mret tt) s1).
Proof.
  intros stmt. unfold stmt. rewrite VisitStmt_barrier. split_and!.
  - intros Hp. unfold mbind, M_bind, gets, ICHECK. rewrite Hp. reflexivity.
  - intros Hp Hin. unfold mbind, M_bind, gets, ICHECK. rewrite Hp, Hin. reflexivity.
  - intros p tv tid s1 Hp Hin Htv Htid Hbody.
    pose proof (VisitStmt_frame body false (fun H => ltac:(discriminate H)) _ _ _ Hbody)
      as (Hvm & _ & _ & (Ht & _ & Hpe & _) & _).
    unfold mbind at 1, M_bind at 1, gets at 1.
    unfold mbind at 1, M_bind at 1, ICHECK at 1. rewrite Hp. cbn [isSome mret M_ret].
    unfold mbind at 1, M_bind at 1, ICHECK at 1. rewrite Hin. cbn [negb mret M_ret].
    rewrite (bind_step _ _ _ _ _ Hbody).
    destruct (RuntimeTVMParallelBarrier s1) as [callee s2|msg] eqn:Hcallee.
    + rewrite !(bind_step _ _ _ _ _ Hcallee).
      apply RuntimeTVMParallelBarrier_ctx in Hcallee as (Hvm2 & Hpe2 & _ & _).
      unfold mbind at 1, M_bind at 1, gets at 1.
      unfold mbind at 1, M_bind at 1. rewrite Hpe2, Ht, Htv.
      unfold GetVarValue at 1, mbind at 1, M_bind at 1, gets at 1.
      rewrite Hvm2, Hvm, Htid. cbn [mret M_ret]. rewrite Hpe, Hp. reflexivity.
    + rewrite !(bind_Fatal _ _ _ _ Hcallee). reflexivity.
Qed.

Lemma barrier_lowering_witness :
  exists s',
    VisitStmt (AttrStmt "pragma_parallel_barrier_when_finish" (IntImm (Int 32) 0) (SeqStmt []))
              demo_env_state = Ok tt s' /\
    blocks s' !! 0%nat =
      Some (mkBlock "entry" 4
              [Call 0 (FunctionValue 3 ftype_tvm_parallel_barrier_)
                 [Argument 4 0 t_int_;
                  Argument 4 2 (llvmGetPointerTo t_tvm_parallel_group_env_)]]).
Proof.
  destruct (barrier_lowering (IntImm (Int 32) 0) (SeqStmt []) demo_env_state) as (_ & _ & H).
  specialize (H (Argument 4 2 (llvmGetPointerTo t_tvm_parallel_group_env_))
                (mkVar (inr 0%nat) "task_id" (Int 32)) (Argument 4 0 t_int_) demo_env_state
                eq_refl eq_refl eq_refl eq_refl eq_refl).
  eexists. split; [rewrite H; vm_compute; reflexivity | vm_compute; reflexivity].
Defined.

(** ** Machine integers and the block partition *)

Lemma pow2_split (w : Z) : 1 <= w -> 2 ^ w = 2 * 2 ^ (w - 1).
Proof. intros Hw. rewrite <- Z.pow_succ_r by lia. f_equal. lia. Qed.

Lemma signed_in_range (w z : Z) : 1 <= w -> in_range w z -> signed_ w z = z.
Proof.
  intros Hw [Hlo Hhi]. unfold signed_. pose proof (pow2_split w Hw) as Hp.
  assert (0 < 2 ^ (w - 1)) by (apply Z.pow_pos_nonneg; lia).
  destruct (Z_lt_le_dec z 0) as [Hneg|Hpos].
  - assert (Hm : z mod 2 ^ w = z + 2 ^ w).
    { symmetry. apply (Z.mod_unique _ _ (-1)); lia. }
    rewrite Hm. destruct (z + 2 ^ w <? 2 ^ (w - 1)) eqn:Hc; [apply Z.ltb_lt in Hc|]; lia.
  - rewrite Z.mod_small by lia.
    destruct (z <? 2 ^ (w - 1)) eqn:Hc; [|apply Z.ltb_ge in Hc]; lia.
Qed.

Lemma signed_mod (w a b : Z) : a mod 2 ^ w = b mod 2 ^ w -> signed_ w a = signed_ w b.
Proof. unfold signed_. by intros ->. Qed.

Lemma cval_signed (w : Z) m v z r :
  1 <= w -> eval_value m v = Some (RInt r) -> cval w m v z -> in_range w z -> signed_ w r = z.
Proof.
  intros Hw Hr (r' & Hr' & Hm) Hin. rewrite Hr in Hr'. injection Hr' as <-.
  rewrite (signed_mod _ _ _ Hm). by apply signed_in_range.
Qed.

Lemma cval_const (w : Z) m z : cval w m (ConstantInt (TInt w) z) z.
Proof. exists (unsigned_ w z). split; [reflexivity|]. apply Zmod_mod. Qed.

Lemma cval_add (w : Z) m a b x y :
  getType a = TInt w -> cval w m a x -> cval w m b y -> cval w m (BinOp OpAdd a b) (x + y).
Proof.
  intros Ht (r1 & H1 & E1) (r2 & H2 & E2). exists (unsigned_ w (r1 + r2)).
  split; [simpl; rewrite H1, H2, Ht; reflexivity|].
  unfold unsigned_. rewrite Zmod_mod, Zplus_mod, E1, E2, <- Zplus_mod. reflexivity.
Qed.

Lemma cval_sub (w : Z) m a b x y :
  getType a = TInt w -> cval w m a x -> cval w m b y -> cval w m (BinOp OpSub a b) (x - y).
Proof.
  intros Ht (r1 & H1 & E1) (r2 & H2 & E2). exists (unsigned_ w (r1 - r2)).
  split; [simpl; rewrite H1, H2, Ht; reflexivity|].
  unfold unsigned_. rewrite Zmod_mod, Zminus_mod, E1, E2, <- Zminus_mod. reflexivity.
Qed.

Lemma cval_mul (w : Z) m a b x y :
  getType a = TInt w -> cval w m a x -> cval w m b y -> cval w m (BinOp OpMul a b) (x * y).
Proof.
  intros Ht (r1 & H1 & E1) (r2 & H2 & E2). exists (unsigned_ w (r1 * r2)).
  split; [simpl; rewrite H1, H2, Ht; reflexivity|].
  unfold unsigned_. rewrite Zmod_mod, Zmult_mod, E1, E2, <- Zmult_mod. reflexivity.
Qed.

Lemma cval_sdiv (w : Z) m a b x y :
  1 <= w -> getType a = TInt w -> cval w m a x -> cval w m b y ->
  in_range w x -> in_range w y -> y <> 0 ->
  cval w m (BinOp OpSDiv a b) (Z.quot x y).
Proof.
  intros Hw Ht (r1 & H1 & E1) (r2 & H2 & E2) Hx Hy Hy0.
  assert (S1 : signed_ w r1 = x) by (rewrite (signed_mod _ _ _ E1); by apply signed_in_range).
  assert (S2 : signed_ w r2 = y) by (rewrite (signed_mod _ _ _ E2); by apply signed_in_range).
  exists (unsigned_ w (Z.quot x y)). split; [|apply Zmod_mod].
  simpl. rewrite H1, H2, Ht. simpl. unfold eval_binop. rewrite S1, S2.
  destruct (y =? 0) eqn:Hc; [apply Z.eqb_eq in Hc; lia | reflexivity].
Qed.

Lemma cval_min (w : Z) m a b x y :
  1 <= w -> getType a = TInt w -> cval w m a x -> cval w m b y ->
  in_range w x -> in_range w y ->
  cval w m (Select (ICmp ICMP_SLT a b) a b) (Z.min x y).
Proof.
  intros Hw Ht (r1 & H1 & E1) (r2 & H2 & E2) Hx Hy.
  assert (S1 : signed_ w r1 = x) by (rewrite (signed_mod _ _ _ E1); by apply signed_in_range).
  assert (S2 : signed_ w r2 = y) by (rewrite (signed_mod _ _ _ E2); by apply signed_in_range).
  destruct (x <? y) eqn:Hc.
  - apply Z.ltb_lt in Hc. exists r1. split; [|by rewrite Z.min_l by lia].
    cbn [eval_value]. rewrite H1, H2, Ht. simpl. rewrite S1, S2.
    apply Z.ltb_lt in Hc. rewrite Hc. reflexivity.
  - apply Z.ltb_ge in Hc. exists r2. split; [|by rewrite Z.min_r by lia].
    cbn [eval_value]. rewrite H1, H2, Ht. simpl. rewrite S1, S2.
    apply Z.ltb_ge in Hc. rewrite Hc. reflexivity.
Qed.

Lemma DataType_eqb_Int (a b : Z) : DataType_eqb (Int a) (Int b) = (a =? b).
Proof.
  unfold DataType_eqb, Int. cbn [code bits lanes code_eqb].
  change (1 =? 1) with true. by rewrite andb_true_r.
Qed.

Lemma LType_eqb_TInt (a b : Z) : LType_eqb (TInt a) (TInt b) = (a =? b).
Proof. reflexivity. Qed.

(** The cast of a 32-bit variable to the type of the extent. *)
Lemma cval_cast_var (w : Z) m (var : Var) (v : Value) (r z : Z) :
  1 <= w -> vdtype var = Int 32 -> getType v = TInt 32 ->
  eval_value m v = Some (RInt r) -> signed_ 32 r = z ->
  forall s, var_map_ s !! vnode var = Some v ->
  exists cv, MakeValue (cast (Int w) (VarE var)) s = Ok cv s /\
             getType cv = TInt w /\ cval w m cv z.
Proof.
  intros Hw Hdt Hty Hev Hz s Hvm.
  unfold cast. cbn [dtype_of]. rewrite Hdt, DataType_eqb_Int.
  destruct (32 =? w) eqn:Heq.
  - apply Z.eqb_eq in Heq. subst w.
    exists v. split; [|split; [done|]].
    + cbn [MakeValue]. unfold GetVarValue, mbind, M_bind, gets. by rewrite Hvm.
    + exists r. split; [done|]. rewrite <- Hz. unfold signed_.
      destruct (_ <? _); [by rewrite Zmod_mod|].
      rewrite Zminus_mod, Z_mod_same_full, Z.sub_0_r, !Zmod_mod. reflexivity.
  - exists (IntCast v (TInt w)). split; [|split; [done|]].
    + cbn [MakeValue dtype_of]. unfold GetVarValue, mbind, M_bind, gets. rewrite Hvm.
      cbn [mret M_ret]. rewrite Hdt.
      unfold CreateCast. rewrite Hty.
      change (DTypeToLLVMType (Int w)) with (TInt w).
      rewrite LType_eqb_TInt, Heq. reflexivity.
    + exists (unsigned_ w (signed_ 32 r)). split; [cbn [eval_value]; by rewrite Hev, Hty|].
      rewrite Hz. apply Zmod_mod.
Qed.

Lemma range_sizes_telescope (lo hi : Z -> Z) (n : nat) :
  (forall k, 0 <= k < Z.of_nat n -> hi k = lo (k + 1)) ->
  range_sizes lo hi n = lo (Z.of_nat n) - lo 0.
Proof.
  unfold range_sizes. induction n as [|n IH]; intros Hc.
  - cbn [seq map fold_right]. change (Z.of_nat 0) with 0. lia.
  - rewrite seq_S, map_app, fold_right_app. cbn [map fold_right Nat.add].
    assert (Hf : forall l z, fold_right Z.add z l = fold_right Z.add 0 l + z).
    { induction l as [|x l IHl]; intros z; simpl; [lia | rewrite IHl; lia]. }
    rewrite Hf, IH by (intros k Hk; apply Hc; lia).
    rewrite Nat2Z.inj_succ. unfold Z.succ. simpl. rewrite (Hc (Z.of_nat n)) by lia. lia.
Qed.

Lemma cval_of_signed (w : Z) m v r z :
  eval_value m v = Some (RInt r) -> signed_ w r = z -> cval w m v z.
Proof.
  intros Hev <-. exists r. split; [done|]. unfold signed_.
  destruct (_ <? _); [by rewrite Zmod_mod|].
  rewrite Zminus_mod, Z_mod_same_full, Z.sub_0_r, !Zmod_mod. reflexivity.
Qed.

Lemma MakeValue_Add a b x y s :
  MakeValue a s = Ok x s -> MakeValue b s = Ok y s ->
  MakeValue (Add a b) s = Ok (BinOp OpAdd x y) s.
Proof.
  intros Ha Hb. cbn [MakeValue]. by rewrite (bind_step _ _ _ _ _ Ha), (bind_step _ _ _ _ _ Hb).
Qed.

Lemma MakeValue_Sub a b x y s :
  MakeValue a s = Ok x s -> MakeValue b s = Ok y s ->
  MakeValue (Sub a b) s = Ok (BinOp OpSub x y) s.
Proof.
  intros Ha Hb. cbn [MakeValue]. by rewrite (bind_step _ _ _ _ _ Ha), (bind_step _ _ _ _ _ Hb).
Qed.

Lemma MakeValue_Mul a b x y s :
  MakeValue a s = Ok x s -> MakeValue b s = Ok y s ->
  MakeValue (Mul a b) s = Ok (BinOp OpMul x y) s.
Proof.
  intros Ha Hb. cbn [MakeValue]. by rewrite (bind_step _ _ _ _ _ Ha), (bind_step _ _ _ _ _ Hb).
Qed.

Lemma MakeValue_Div a b x y s :
  MakeValue a s = Ok x s -> MakeValue b s = Ok y s ->
  MakeValue (Div a b) s = Ok (BinOp OpSDiv x y) s.
Proof.
  intros Ha Hb. cbn [MakeValue]. by rewrite (bind_step _ _ _ _ _ Ha), (bind_step _ _ _ _ _ Hb).
Qed.

Lemma MakeValue_Min a b x y s :
  MakeValue a s = Ok x s -> MakeValue b s = Ok y s ->
  MakeValue (Min a b) s = Ok (Select (ICmp ICMP_SLT x y) x y) s.
Proof.
  intros Ha Hb. cbn [MakeValue]. by rewrite (bind_step _ _ _ _ _ Ha), (bind_step _ _ _ _ _ Hb).
Qed.

Lemma dtype_of_cast_var (w : Z) (v : Var) : vdtype v = Int 32 -> dtype_of (cast (Int w) (VarE v)) = Int w.
Proof.
  intros Hd. unfold cast. cbn [dtype_of]. rewrite Hd, DataType_eqb_Int.
  destruct (32 =? w) eqn:Hc; [|reflexivity]. apply Z.eqb_eq in Hc. subst. exact Hd.
Qed.

Section block_partition.
Variables (s : CodeGenCPU) (m : Machine) (extent : PrimExpr) (tvar nvar : Var).
Variables (ev tv nv : Value) (w e ti ni : Z).
Hypothesis Hw : 1 <= w.
Hypothesis Hdt : dtype_of extent = Int w.
Hypothesis Hext : MakeValue extent s = Ok ev s.
Hypothesis Hety : getType ev = TInt w.
Hypothesis Heev : eval_value m ev = Some (RInt e).
Hypothesis Htd : vdtype tvar = Int 32.
Hypothesis Htv : var_map_ s !! vnode tvar = Some tv.
Hypothesis Htty : getType tv = TInt 32.
Hypothesis Htev : eval_value m tv = Some (RInt ti).
Hypothesis Hnd : vdtype nvar = Int 32.
Hypothesis Hnv : var_map_ s !! vnode nvar = Some nv.
Hypothesis Hnty : getType nv = TInt 32.
Hypothesis Hnev : eval_value m nv = Some (RInt ni).

Let E := signed_ w e.
Let T := signed_ 32 ti.
Let N := signed_ 32 ni.
Let task_id := cast (Int w) (VarE tvar).
Let num_task := cast (Int w) (VarE nvar).

Hypothesis HE : 0 < E.
Hypothesis HN : 0 < N.
Hypothesis HT : 0 <= T < N.
Hypothesis Hfit : E + N - 1 < 2 ^ (w - 1).

Let step := (E + N - 1) / N.

Lemma step_bounds : E <= N * step <= E + N - 1 /\ 0 < step.
Proof.
  unfold step. pose proof (Z.mul_div_le (E + N - 1) N HN).
  pose proof (Z.mul_succ_div_gt (E + N - 1) N HN).
  split; [lia|]. apply Z.div_str_pos. lia.
Qed.

Lemma step_value :
  exists ct cn sv,
    MakeValue task_id s = Ok ct s /\ getType ct = TInt w /\ cval w m ct T /\
    MakeValue num_task s = Ok cn s /\ getType cn = TInt w /\ cval w m cn N /\
    MakeValue (block_step extent num_task) s = Ok sv s /\ getType sv = TInt w /\
    cval w m sv step.
Proof.
  destruct step_bounds as [Hs Hs0].
  assert (Hp : 0 < 2 ^ (w - 1)) by (apply Z.pow_pos_nonneg; lia).
  destruct (cval_cast_var w m tvar tv ti T Hw Htd Htty Htev eq_refl s Htv)
    as (ct & Hct & Hctt & Hcv).
  destruct (cval_cast_var w m nvar nv ni N Hw Hnd Hnty Hnev eq_refl s Hnv)
    as (cn & Hcn & Hcnt & Hcnv).
  pose proof (cval_of_signed w m ev e E Heev eq_refl) as Hce.
  exists ct, cn, (BinOp OpSDiv (BinOp OpSub (BinOp OpAdd ev cn) (ConstantInt (TInt w) 1)) cn).
  split_and!; try done.
  - unfold block_step, make_const. rewrite Hdt.
    apply MakeValue_Div; [|exact Hcn].
    apply MakeValue_Sub; [|reflexivity].
    apply MakeValue_Add; [exact Hext | exact Hcn].
  - unfold step. rewrite <- Z.quot_div_nonneg by lia.
    apply cval_sdiv; try done; try (unfold in_range; lia).
    change (DTypeToLLVMType (Int w)) with (TInt w).
    apply cval_sub; [done | | apply cval_const].
    by apply cval_add.
Qed.

Lemma begin_value :
  run_expr s m (block_begin extent task_id num_task) = Some (Z.min (T * step) E).
Proof.
  destruct step_bounds as [Hs Hs0].
  assert (Hp : 0 < 2 ^ (w - 1)) by (apply Z.pow_pos_nonneg; lia).
  destruct step_value as (ct & cn & sv & Hct & Hctt & Hcv & Hcn & Hcnt & Hcnv & Hsv & Hsvt & Hcs).
  pose proof (cval_of_signed w m ev e E Heev eq_refl) as Hce.
  assert (Hb : 0 <= T * step <= E + N - 1) by nia.
  assert (Hm : cval w m (Select (ICmp ICMP_SLT (BinOp OpMul ct sv) ev) (BinOp OpMul ct sv) ev)
                 (Z.min (T * step) E)).
  { apply cval_min; try done; try (unfold in_range; lia). by apply cval_mul. }
  unfold run_expr, block_begin, min_.
  rewrite (MakeValue_Min _ _ _ _ _ (MakeValue_Mul _ _ _ _ _ Hct Hsv) Hext).
  destruct Hm as (r & Hr & Hrm). rewrite Hr. f_equal.
  cbn [dtype_of]. unfold task_id. rewrite dtype_of_cast_var by done. cbn [bits Int].
  rewrite (signed_mod _ _ _ Hrm). apply signed_in_range; [done|]. unfold in_range. lia.
Qed.

Lemma end_value :
  run_expr s m (block_end extent task_id num_task) = Some (Z.min ((T + 1) * step) E).
Proof.
  destruct step_bounds as [Hs Hs0].
  assert (Hp : 0 < 2 ^ (w - 1)) by (apply Z.pow_pos_nonneg; lia).
  destruct step_value as (ct & cn & sv & Hct & Hctt & Hcv & Hcn & Hcnt & Hcnv & Hsv & Hsvt & Hcs).
  pose proof (cval_of_signed w m ev e E Heev eq_refl) as Hce.
  assert (Hb : 0 <= (T + 1) * step <= E + N - 1) by nia.
  set (t1 := BinOp OpAdd ct (ConstantInt (TInt w) 1)).
  assert (Hm : cval w m (Select (ICmp ICMP_SLT (BinOp OpMul t1 sv) ev) (BinOp OpMul t1 sv) ev)
                 (Z.min ((T + 1) * step) E)).
  { apply cval_min; try done; try (unfold in_range; lia).
    apply cval_mul; [done | | done]. apply cval_add; [done | done | apply cval_const]. }
  unfold run_expr, block_end, min_, make_const. rewrite Hdt.
  assert (Ht1 : MakeValue (Add task_id (IntImm (Int w) 1)) s = Ok t1 s)
    by (apply MakeValue_Add; [exact Hct | reflexivity]).
  rewrite (MakeValue_Min _ _ _ _ _ (MakeValue_Mul _ _ _ _ _ Ht1 Hsv) Hext).
  destruct Hm as (r & Hr & Hrm). rewrite Hr. f_equal.
  cbn [dtype_of]. unfold task_id. rewrite dtype_of_cast_var by done. cbn [bits Int].
  rewrite (signed_mod _ _ _ Hrm). apply signed_in_range; [done|]. unfold in_range. lia.
Qed.

End block_partition.

Lemma ceil_div_add (a b : Z) : 0 < b -> ceil_div a b = (a + b - 1) / b.
Proof.
  intros Hb. unfold ceil_div.
  apply (Z.div_unique _ _ _ (b - 1 - (- a) mod b)); [pose proof (Z.mod_pos_bound (- a) b Hb); lia|].
  pose proof (Z.div_mod (- a) b ltac:(lia)). lia.
Qed.

(** ** The stride partition *)

Lemma cast_var_all (w : Z) m (var : Var) (v : Value) (r z : Z) :
  1 <= w -> vdtype var = Int 32 -> getType v = TInt 32 ->
  eval_value m v = Some (RInt r) -> signed_ 32 r = z ->
  exists cv, getType cv = TInt w /\ cval w m cv z /\
    forall s, var_map_ s !! vnode var = Some v ->
              MakeValue (cast (Int w) (VarE var)) s = Ok cv s.
Proof.
  intros Hw Hdt Hty Hev Hz.
  destruct (32 =? w) eqn:Heq.
  - exists v. apply Z.eqb_eq in Heq. subst w. split_and!; [done | by eapply cval_of_signed |].
    intros s Hvm. unfold cast. cbn [dtype_of]. rewrite Hdt, DataType_eqb_Int. cbn [Z.eqb Pos.eqb].
    cbn [MakeValue]. unfold GetVarValue, mbind, M_bind, gets. by rewrite Hvm.
  - exists (IntCast v (TInt w)). split_and!; [done | |].
    + exists (unsigned_ w (signed_ 32 r)). split; [cbn [eval_value]; by rewrite Hev, Hty|].
      rewrite Hz. apply Zmod_mod.
    + intros s Hvm. unfold cast. cbn [dtype_of]. rewrite Hdt, DataType_eqb_Int, Heq.
      cbn [MakeValue dtype_of]. unfold GetVarValue, mbind, M_bind, gets. rewrite Hvm.
      cbn [mret M_ret]. rewrite Hdt.
      unfold CreateCast. rewrite Hty.
      change (DTypeToLLVMType (Int w)) with (TInt w).
      rewrite LType_eqb_TInt, Heq. reflexivity.
Qed.

Lemma ceil_div_pos (a b : Z) : 0 < b -> 0 < a -> ceil_div (a - b) b = ceil_div a b - 1 /\ 0 < ceil_div a b.
Proof.
  intros Hb Ha. rewrite !ceil_div_add by done.
  replace (a - b + b - 1) with (a + b - 1 + (-1) * b) by lia.
  rewrite Z.div_add by lia. split; [lia|]. apply Z.div_str_pos. lia.
Qed.

Lemma ceil_div_nonpos (a b : Z) : 0 < b -> a <= 0 -> ceil_div a b <= 0.
Proof.
  intros Hb Ha. rewrite ceil_div_add by done.
  pose proof (Z.mul_div_le (a + b - 1) b Hb). nia.
Qed.

Lemma ceil_div_lt (a b k : Z) : 0 < b -> k < ceil_div a b <-> k * b < a.
Proof.
  intros Hb. rewrite ceil_div_add by done.
  pose proof (Z.mul_div_le (a + b - 1) b Hb).
  pose proof (Z.mul_succ_div_gt (a + b - 1) b Hb).
  split; intros; nia.
Qed.

Lemma serial_for_run_stride (w N E e st : Z) :
  1 <= w -> 0 < N -> signed_ w e = E -> st mod 2 ^ w = N mod 2 ^ w ->
  E + N - 1 < 2 ^ (w - 1) ->
  forall (n : nat) (i b : Z),
    0 <= i < 2 ^ (w - 1) -> b mod 2 ^ w = i mod 2 ^ w ->
    n = Z.to_nat (ceil_div (E - i) N) ->
    serial_for_run (S n) w b e st = (map (fun k => i + Z.of_nat k * N) (seq 0 n), true).
Proof.
  intros Hw HN He Hst Hfit n.
  induction n as [|n IH]; intros i b Hi Hb Hn.
  - cbn [serial_for_run seq map]. rewrite He, (signed_mod _ _ _ Hb).
    rewrite signed_in_range by (done || unfold in_range; lia).
    destruct (i <? E) eqn:Hc; [|reflexivity]. apply Z.ltb_lt in Hc.
    pose proof (ceil_div_pos (E - i) N HN ltac:(lia)). lia.
  - assert (Hlt : i < E).
    { destruct (Z_lt_le_dec i E) as [|Hge]; [done|].
      pose proof (ceil_div_nonpos (E - i) N HN ltac:(lia)). lia. }
    change (serial_for_run (S (S n)) w b e st)
      with (if signed_ w b <? signed_ w e then
              let '(l, done_) := serial_for_run (S n) w (unsigned_ w (b + st)) e st in
              (signed_ w b :: l, done_)
            else ([], true)).
    rewrite He, (signed_mod _ _ _ Hb).
    rewrite signed_in_range by (done || unfold in_range; lia).
    apply Z.ltb_lt in Hlt as Hc. rewrite Hc.
    rewrite (IH (i + N)).
    + cbn [seq map]. f_equal. f_equal; [lia|].
      rewrite <- seq_shift, map_map. apply map_ext. intros k. lia.
    + lia.
    + unfold unsigned_. rewrite Zmod_mod, Zplus_mod, Hb, Hst, <- Zplus_mod. reflexivity.
    + destruct (ceil_div_pos (E - i) N HN ltac:(lia)) as [Hd _].
      replace (E - (i + N)) with (E - i - N) by lia. lia.
Qed.

Lemma stride_indices_spec (T N E i : Z) :
  0 < N -> 0 <= T ->
  i ∈ stride_indices T N E <-> (0 <= i < E /\ exists k, 0 <= k /\ i = T + k * N).
Proof.
  intros HN HT. unfold stride_indices. rewrite list_elem_of_fmap. split.
  - intros (k & -> & Hk). apply elem_of_seq in Hk.
    assert (Z.of_nat k < ceil_div (E - T) N) by lia.
    apply ceil_div_lt in H; [|done]. split; [nia|]. exists (Z.of_nat k). lia.
  - intros (Hi & k & Hk & ->). exists (Z.to_nat k). rewrite Z2Nat.id by lia.
    split; [done|]. apply elem_of_seq.
    assert (k < ceil_div (E - T) N) by (apply ceil_div_lt; [done | lia]). lia.
Qed.

Lemma bind_unfold {A B} (m : M A) (k : A -> M B) (s : CodeGenCPU) :
  (m ≫= k) s = match m s with Ok a s' => k a s' | Fatal msg => Fatal msg end.
Proof. reflexivity. Qed.

Lemma VisitStmt_For_stride (vself vbody : M unit) (lv : Var) (t0 : DataType) (extent : PrimExpr)
    (body : Stmt) (s : CodeGenCPU) (p : Value) (tvar nvar : Var) (bv ev sv : Value) :
  penv (parallel_env_ s) = Some p ->
  task_id (parallel_env_ s) = Some tvar -> num_task (parallel_env_ s) = Some nvar ->
  in_parallel_loop (parallel_env_ s) = false -> stride_pattern (parallel_env_ s) = true ->
  let s1 := set_parallel_env_ (set_in_parallel_loop true (parallel_env_ s)) s in
  MakeValue (cast (dtype_of extent) (VarE tvar)) s1 = Ok bv s1 ->
  MakeValue extent s1 = Ok ev s1 ->
  MakeValue (cast (dtype_of extent) (VarE nvar)) s1 = Ok sv s1 ->
  VisitStmt_For vself vbody lv (IntImm t0 0) extent kParallel body s =
    (CreateSerialFor bv ev sv lv vbody;;
     modify (fun s => set_parallel_env_ (set_in_parallel_loop false (parallel_env_ s)) s);;
     modify (fun s => set_parallel_env_ (incr_parallel_loop_count (parallel_env_ s)) s)) s1.
Proof.
  intros Hp Ht Hn Hin Hsp s1 Hb He Hs.
  unfold VisitStmt_For. cbn [is_zero]. change (0 =? 0) with true.
  unfold mbind at 1, M_bind at 1, ICHECK at 1.
  unfold mbind at 1, M_bind at 1, gets at 1.
  cbn [mret M_ret]. rewrite Hp, Ht, Hn, Hin, Hsp. cbn [negb].
  unfold mbind at 1, M_bind at 1, ICHECK at 1.
  unfold mbind at 1, M_bind at 1, modify at 1.
  unfold mbind at 1, M_bind at 1. cbn [mret M_ret]. fold s1.
  rewrite (bind_step _ _ _ _ _ Hb), (bind_step _ _ _ _ _ He), (bind_step _ _ _ _ _ Hs).
  rewrite (bind_unfold (CreateSerialFor bv ev sv lv vbody)).
  match goal with |- ?x = ?x => exact eq_refl end.
Qed.

(** C2 (amended).  Under the stride partition, when [num_task > 0] and both
    [num_task] and [extent + num_task - 1] are representable in the signed
    integer type of the extent, the lowering emits a serial loop with initial
    value [task_id], bound [extent] and step [num_task], and the run of that
    loop for task [t] visits exactly the indices [t, t + num_task, ...] that
    lie in [0, extent), in increasing order, and leaves the loop. *)
Theorem stride_partition_indices (s : CodeGenCPU) (m : Machine) (extent : PrimExpr)
    (tvar nvar lv : Var) (t0 : DataType) (body : Stmt) (vself vbody : M unit)
    (p ev tv nv : Value) (w e ti ni : Z) :
  1 <= w -> dtype_of extent = Int w ->
  (forall st, var_map_ st = var_map_ s -> MakeValue extent st = Ok ev st) ->
  getType ev = TInt w -> eval_value m ev = Some (RInt e) ->
  vdtype tvar = Int 32 -> var_map_ s !! vnode tvar = Some tv ->
  getType tv = TInt 32 -> eval_value m tv = Some (RInt ti) ->
  vdtype nvar = Int 32 -> var_map_ s !! vnode nvar = Some nv ->
  getType nv = TInt 32 -> eval_value m nv = Some (RInt ni) ->
  penv (parallel_env_ s) = Some p ->
  task_id (parallel_env_ s) = Some tvar -> num_task (parallel_env_ s) = Some nvar ->
  in_parallel_loop (parallel_env_ s) = false -> stride_pattern (parallel_env_ s) = true ->
  let E := signed_ w e in
  let T := signed_ 32 ti in
  let N := signed_ 32 ni in
  0 < N -> 0 <= T < N -> N < 2 ^ (w - 1) -> E + N - 1 < 2 ^ (w - 1) ->
  (exists bv sv,
     MakeValue (cast (Int w) (VarE tvar)) s = Ok bv s /\
     MakeValue (cast (Int w) (VarE nvar)) s = Ok sv s /\
     VisitStmt_For vself vbody lv (IntImm t0 0) extent kParallel body s =
       (CreateSerialFor bv ev sv lv vbody;;
        modify (fun s => set_parallel_env_ (set_in_parallel_loop false (parallel_env_ s)) s);;
        modify (fun s => set_parallel_env_ (incr_parallel_loop_count (parallel_env_ s)) s))
         (set_parallel_env_ (set_in_parallel_loop true (parallel_env_ s)) s)) /\
  (exists fuel, stride_loop_run fuel s m extent tvar nvar = Some (stride_indices T N E, true)) /\
  (forall i, i ∈ stride_indices T N E <-> (0 <= i < E /\ exists k, 0 <= k /\ i = T + k * N)).
Proof.
  intros Hw Hdt Hext Hety Heev Htd Htv Htty Htev Hnd Hnv Hnty Hnev Hp Ht Hn Hin Hsp E T N
         HN HT HNw Hfit.
  destruct (cast_var_all w m tvar tv ti T Hw Htd Htty Htev eq_refl) as (bv & Hbt & Hbc & Hbv).
  destruct (cast_var_all w m nvar nv ni N Hw Hnd Hnty Hnev eq_refl) as (sv & Hst & Hsc & Hsv).
  split_and!.
  - exists bv, sv. split_and!; [by apply Hbv | by apply Hsv |].
    apply (VisitStmt_For_stride _ _ _ _ _ _ _ p tvar nvar); try done.
    + rewrite Hdt. by apply Hbv.
    + by apply Hext.
    + rewrite Hdt. by apply Hsv.
  - exists (S (Z.to_nat (ceil_div (E - T) N))).
    destruct Hbc as (b & Hb & Hbm). destruct Hsc as (st & Hs & Hsm).
    unfold stride_loop_run. rewrite Hdt, (Hbv s Htv), (Hsv s Hnv), (Hext s eq_refl), Hb, Heev, Hs.
    f_equal. cbn [bits Int]. unfold stride_indices.
    apply (serial_for_run_stride w N E e st Hw HN eq_refl Hsm Hfit); [lia | exact Hbm | reflexivity].
  - intros i. apply stride_indices_spec; lia.
Qed.

Lemma stride_partition_indices_witness :
  exists fuel,
    stride_loop_run fuel demo_stride_state (demo_machine 1 3) (IntImm (Int 32) 10)
                    demo_task_id demo_num_task = Some ([1; 4; 7], true).
Proof.
  destruct (stride_partition_indices demo_stride_state (demo_machine 1 3) (IntImm (Int 32) 10)
              demo_task_id demo_num_task (mkVar (inr 7%nat) "i" (Int 32)) (Int 32) (SeqStmt [])
              (mret tt) (mret tt) (Argument 4 2 (llvmGetPointerTo t_tvm_parallel_group_env_))
              (ConstantInt (TInt 32) 10) (Argument 4 0 t_int_) (Argument 4 1 t_int_)
              32 10 1 3) as (_ & H & _);
    [lia | reflexivity | intros st _; reflexivity | reflexivity ..
    | reflexivity | split; [discriminate | reflexivity] | reflexivity | reflexivity | exact H].
Defined.

(** C2 as stated fails when the loop variable wraps around: with an 8-bit
    extent of 127 and two tasks, task 0 goes on after index 126 with index
    -128, which is not in [0, 127). *)
Lemma stride_partition_overflow :
  exists l,
    stride_loop_run 65 demo_stride_state (demo_machine 0 2) (IntImm (Int 8) 127)
                    demo_task_id demo_num_task = Some (l, false) /\
    l !! 64%nat = Some (-128) /\ length (stride_indices 0 2 127) = 64%nat.
Proof. eexists. split_and!; vm_compute; reflexivity. Qed.

(** The run of the blocks emitted for a parallel loop under the stride
    partition agrees with [serial_for_run]: task 1 of 3 over an extent of 10
    enters the body with the loop variable at 1, 4 and 7. *)
Example stride_loop_blocks :
  let s := state_of (VisitStmt (For (mkVar (inr 7%nat) "i" (Int 32)) (IntImm (Int 32) 0)
                                    (IntImm (Int 32) 10) kParallel (SeqStmt []))
                               demo_stride_state) demo_stride_state in
  run_blocks 20 (blocks s) 2 0 0 0 (demo_machine 1 3) = Some [RInt 1; RInt 4; RInt 7].
Proof. vm_compute. reflexivity. Qed.

(** ** The handle cache *)

#[global] Instance lookups_kept_preorder fname : PreOrder (lookups_kept fname).
Proof.
  split.
  - by intros s.
  - intros s1 s2 s3 (H1 & H2 & H3 & H4) (H5 & H6 & H7 & H8).
    unfold lookups_kept. rewrite H5, H1, H7, H3, H8, H4. split_and!; [done | lia | done | done].
Qed.

#[global] Instance point_kept_preorder : PreOrder point_kept.
Proof.
  split.
  - by intros s.
  - intros s1 s2 s3 H1 H2 Hp. destruct (H1 Hp) as [Hp2 Hb2]. destruct (H2 Hp2) as [Hp3 Hb3].
    split; [done | congruence].
Qed.

Lemma sum_list_with_cons {A} (g : A -> nat) (x : A) (l : list A) :
  sum_list_with g (x :: l) = (g x + sum_list_with g l)%nat.
Proof. reflexivity. Qed.

Lemma sum_list_with_alter {A} (g : A -> nat) (f : A -> A) (c : nat) (k : nat) (l : list A) :
  (forall x, g (f x) = (g x + c)%nat) ->
  sum_list_with g (alter f k l) =
    (sum_list_with g l + if decide (k < length l)%nat then c else 0)%nat.
Proof.
  intros Hg. revert k. induction l as [|x l IH]; intros k.
  - destruct (decide (k < length (@nil A))%nat) as [Hlt|_]; [simpl in Hlt; lia | simpl; lia].
  - destruct k as [|k].
    + destruct (decide (0 < length (x :: l))%nat) as [_|Hn]; [|simpl in Hn; lia].
      change (alter f 0%nat (x :: l)) with (f x :: l).
      rewrite !sum_list_with_cons, Hg. lia.
    + specialize (IH k).
      destruct (decide (S k < length (x :: l))%nat) as [H1|H1];
        destruct (decide (k < length l)%nat) as [H2|H2]; simpl in H1;
        try lia; change (alter f (S k) (x :: l)) with (x :: alter f k l);
        rewrite !sum_list_with_cons, IH; lia.
Qed.

Lemma filter_insert_at {A} (P : A -> bool) (k : nat) (x : A) (l : list A) :
  length (List.filter P (insert_at k x l)) =
    (length (List.filter P l) + if P x then 1 else 0)%nat.
Proof.
  unfold insert_at. rewrite <- (take_drop k l) at 3.
  rewrite !List.filter_app, !length_app. simpl. destruct (P x); simpl; lia.
Qed.

Lemma lookup_calls_emit fname i s s' :
  emit i s = Ok tt s' ->
  lookup_calls fname s' =
    (lookup_calls fname s +
     if decide (insert_block s < length (blocks s))%nat
     then if is_get_func_call fname i then 1 else 0 else 0)%nat /\
  length (blocks s') = length (blocks s).
Proof.
  unfold emit, modify. intros [= <-]. unfold lookup_calls.
  destruct (insert_pos s); cbn [blocks set_blocks set_insert_pos]; rewrite length_alter.
  - split; [|done]. apply sum_list_with_alter. intros bb. unfold block_lookups. cbn [bb_insts].
    apply filter_insert_at.
  - split; [|done]. apply sum_list_with_alter. intros bb. unfold block_lookups. cbn [bb_insts].
    rewrite List.filter_app, length_app. simpl. destruct (is_get_func_call fname i); simpl; lia.
Qed.

Lemma filter_map_length {A} (P : A -> bool) (f : A -> A) (l : list A) :
  (forall x, P (f x) = P x) -> length (List.filter P (map f l)) = length (List.filter P l).
Proof.
  intros Hf. induction l as [|x l IH]; [done|]. simpl. rewrite Hf. destruct (P x); simpl; lia.
Qed.

Lemma sum_list_with_map_same {A} (g : A -> nat) (f : A -> A) (l : list A) :
  (forall x, g (f x) = g x) -> sum_list_with g (map f l) = sum_list_with g l.
Proof.
  intros Hf. induction l as [|x l IH]; [done|].
  change (map f (x :: l)) with (f x :: map f l). by rewrite !sum_list_with_cons, Hf, IH.
Qed.

Lemma emit_kept fname i :
  is_get_func_call fname i = false -> preserves (lookups_kept fname) (emit i).
Proof.
  intros Hi s [] s' H. pose proof (lookup_calls_emit fname _ _ _ H) as [H1 H2]. rewrite Hi in H1.
  unfold emit, modify in H. injection H as <-.
  split_and!; [rewrite H1; case_decide; lia | lia | by destruct (insert_pos s)
              | by destruct (insert_pos s)].
Qed.

Lemma emit_point i : preserves point_kept (emit i).
Proof.
  unfold emit, modify. intros s a s' [= _ <-]. unfold point_kept. intros Hp.
  rewrite Hp. simpl. split; [exact Hp | reflexivity].
Qed.

Lemma fresh_inst_kept fname : preserves (lookups_kept fname) fresh_inst.
Proof. by intros s a s' [= <- <-]. Qed.

Lemma fresh_inst_point : preserves point_kept fresh_inst.
Proof. by intros s a s' [= <- <-]. Qed.

Lemma BasicBlock_Create_kept fname name f :
  preserves (lookups_kept fname) (BasicBlock_Create name f).
Proof.
  intros s a s' [= <- <-]. unfold lookups_kept, lookup_calls. cbn [blocks set_blocks].
  rewrite sum_list_with_app, length_app. simpl. split_and!; [lia | lia | done | done].
Qed.

Lemma SetInsertPoint_kept fname b : preserves (lookups_kept fname) (SetInsertPoint b).
Proof. by intros s a s' [= _ <-]. Qed.

Lemma addIncoming_kept fname phi v b : preserves (lookups_kept fname) (addIncoming phi v b).
Proof.
  unfold addIncoming. destruct phi; try by intros ? ? ? [= <- <-].
  intros st a st' [= _ <-]. unfold lookups_kept, lookup_calls. cbn [blocks set_blocks].
  rewrite length_map. split_and!; [|done..]. apply sum_list_with_map_same. intros bb.
  unfold block_lookups. cbn [bb_insts]. apply filter_map_length.
  intros x. destruct x; try done. simpl. by destruct (_ =? _)%nat.
Qed.

#[global] Hint Extern 1 (is_get_func_call _ _ = false) => reflexivity : pres.
#[global] Hint Resolve emit_kept emit_point fresh_inst_kept fresh_inst_point
  BasicBlock_Create_kept SetInsertPoint_kept addIncoming_kept : pres.

Lemma CreateLoad_kept fname ty addr : preserves (lookups_kept fname) (CreateLoad ty addr).
Proof. unfold CreateLoad. pres. Qed.

Lemma CreateLoad_point ty addr : preserves point_kept (CreateLoad ty addr).
Proof. unfold CreateLoad. pres. Qed.

Lemma CreateAlloca_kept fname ty num : preserves (lookups_kept fname) (CreateAlloca ty num).
Proof. unfold CreateAlloca. pres. Qed.

Lemma CreateStore_kept fname v addr : preserves (lookups_kept fname) (CreateStore v addr).
Proof. unfold CreateStore. pres. Qed.

Lemma CreateBr_kept fname d : preserves (lookups_kept fname) (CreateBr d).
Proof. unfold CreateBr. pres. Qed.

Lemma CreateCondBr_kept fname c t f : preserves (lookups_kept fname) (CreateCondBr c t f).
Proof. unfold CreateCondBr. pres. Qed.

Lemma CreateRet_kept fname v : preserves (lookups_kept fname) (CreateRet v).
Proof. unfold CreateRet. pres. Qed.

Lemma CreatePHI_kept fname ty : preserves (lookups_kept fname) (CreatePHI ty).
Proof. unfold CreatePHI. pres. Qed.

#[global] Hint Resolve CreateLoad_kept CreateLoad_point CreateAlloca_kept CreateStore_kept
  CreateBr_kept CreateCondBr_kept CreateRet_kept CreatePHI_kept : pres.

Lemma WithFunctionEntry_kept {A} fname (m : M A) :
  preserves (lookups_kept fname) m -> preserves (lookups_kept fname) (WithFunctionEntry m).
Proof.
  intros Hm. unfold WithFunctionEntry, GetInsertBlock. pres.
Qed.

Lemma WithFunctionEntry_point {A} (m : M A) : preserves point_kept (WithFunctionEntry m).
Proof.
  intros s a s'. unfold WithFunctionEntry, GetInsertBlock. intros H. bind_inv H.
  - injection H0 as <- <-. injection H as <- <-. injection H4 as _ <-.
    unfold point_kept. intros _. split; reflexivity.
  - discriminate H.
Qed.

Lemma CheckCallSuccess_kept fname retcode :
  preserves (lookups_kept fname) (CheckCallSuccess retcode).
Proof. unfold CheckCallSuccess. pres. Qed.

Lemma GetContextPtr_kept fname gv : preserves (lookups_kept fname) (GetContextPtr gv).
Proof. unfold GetContextPtr. pres. Qed.

Lemma GetContextPtr_point gv : preserves point_kept (GetContextPtr gv).
Proof. unfold GetContextPtr. pres. Qed.

#[global] Hint Resolve WithFunctionEntry_kept WithFunctionEntry_point CheckCallSuccess_kept
  GetContextPtr_kept GetContextPtr_point : pres.

Lemma RuntimeTVMGetFuncFromEnv_kept fname :
  preserves (lookups_kept fname) RuntimeTVMGetFuncFromEnv.
Proof. unfold RuntimeTVMGetFuncFromEnv. pres. Qed.

Lemma RuntimeTVMGetFuncFromEnv_point : preserves point_kept RuntimeTVMGetFuncFromEnv.
Proof. unfold RuntimeTVMGetFuncFromEnv. pres. Qed.

#[global] Hint Resolve RuntimeTVMGetFuncFromEnv_kept RuntimeTVMGetFuncFromEnv_point : pres.

Lemma CreateCall_lookups fname fty callee a b s v s' :
  CreateCall fty callee [a; ConstantString fname; b] s = Ok v s' ->
  (insert_block s < length (blocks s))%nat ->
  lookup_calls fname s' = S (lookup_calls fname s) /\
  (length (blocks s) <= length (blocks s'))%nat /\
  globals s' = globals s /\ func_handle_map_ s' = func_handle_map_ s.
Proof.
  unfold CreateCall. intros H Hlt. bind_inv H.
  injection H0 as <- <-. injection H as _ <-. destruct a1.
  pose proof (lookup_calls_emit fname _ _ _ H1) as [H3 H2].
  unfold emit, modify in H1. injection H1 as <-.
  rename H3 into H1. cbn [is_get_func_call] in H1. rewrite String.eqb_refl in H1.
  change (blocks (set_next_inst (S (next_inst s)) s)) with (blocks s) in *.
  change (insert_block (set_next_inst (S (next_inst s)) s)) with (insert_block s) in *.
  change (lookup_calls fname (set_next_inst (S (next_inst s)) s))
    with (lookup_calls fname s) in *.
  rewrite decide_True in H1 by done.
  split_and!; [lia | lia | by destruct (insert_pos s) | by destruct (insert_pos s)].
Qed.

Ltac kept_facts fname :=
  repeat match goal with
  | H : gets _ _ = Ok _ _ |- _ => unfold gets in H; injection H as <- <-
  | H : mret _ _ = Ok _ _ |- _ => unfold mret, M_ret in H; injection H as <- <-
  | H : GetInsertBlock _ = Ok _ _ |- _ => unfold GetInsertBlock, gets in H; injection H as <- <-
  | H : CreateCall _ _ [_; GetConstString _; _] _ = Ok _ _ |- _ =>
      let F := fresh "Hcall" in
      pose proof (CreateCall_lookups _ _ _ _ _ _ _ _ H) as F; clear H
  | H : SetInsertPoint _ _ = Ok _ _ |- _ =>
      unfold SetInsertPoint, modify in H; injection H as _ <-
  | H : BasicBlock_Create _ _ _ = Ok _ _ |- _ =>
      unfold BasicBlock_Create in H; injection H as <- <-
  | H : ?m ?s = Ok _ ?s' |- _ =>
      let F := fresh "F" in
      assert (F : lookups_kept fname s s')
        by (apply (fun p : preserves (lookups_kept fname) m => p _ _ _ H); pres);
      try (let G := fresh "G" in
           assert (G : point_kept s s')
             by (apply (fun p : preserves point_kept m => p _ _ _ H); pres));
      clear H
  end.

Ltac point_facts :=
  repeat match goal with
  | G : point_kept (set_insert_pos None ?x) ?b |- _ =>
      let P := fresh "P" in let B := fresh "B" in
      destruct (G eq_refl) as [P B]; clear G
  | G : point_kept ?a ?b, P : insert_pos ?a = None |- _ =>
      let P' := fresh "P" in let B := fresh "B" in
      destruct (G P) as [P' B]; clear G
  end.

Lemma lookup_calls_new_block fname name f s :
  lookup_calls fname (set_blocks (blocks s ++ [mkBlock name f []]) s) = lookup_calls fname s.
Proof. unfold lookup_calls. cbn [blocks set_blocks]. rewrite sum_list_with_app. simpl. lia. Qed.

Lemma GetPackedFuncHandle_emits fname s v s' :
  GetPackedFuncHandle fname s = Ok v s' ->
  lookup_calls fname s' = S (lookup_calls fname s) /\
  match func_handle_map_ s !! fname with
  | Some h => globals s' = globals s /\ func_handle_map_ s' = func_handle_map_ s
  | None =>
      globals s' = globals s ++ [mkGlobal (".tvm_func." +:+ fname) t_tvm_func_handle_
                                   InternalLinkage (ConstantNull t_tvm_func_handle_)] /\
      func_handle_map_ s' =
        <[fname := GlobalValue (length (globals s)) t_tvm_func_handle_]> (func_handle_map_ s)
  end.
Proof.
  unfold GetPackedFuncHandle. intros H.
  apply bind_Ok in H as (cache & s0 & H0 & H). injection H0 as <- <-.
  apply bind_Ok in H as (hptr & s1 & H1 & H).
  assert (Hcell : lookup_calls fname s1 = lookup_calls fname s /\ blocks s1 = blocks s /\
                  match func_handle_map_ s !! fname with
                  | Some h => globals s1 = globals s /\ func_handle_map_ s1 = func_handle_map_ s
                  | None =>
                      globals s1 = globals s ++
                        [mkGlobal (".tvm_func." +:+ fname) t_tvm_func_handle_
                           InternalLinkage (ConstantNull t_tvm_func_handle_)] /\
                      func_handle_map_ s1 =
                        <[fname := GlobalValue (length (globals s)) t_tvm_func_handle_]>
                          (func_handle_map_ s)
                  end).
  { destruct (func_handle_map_ s !! fname) as [h|].
    - injection H1 as <- <-. refine (conj eq_refl (conj eq_refl (conj eq_refl eq_refl))).
    - bind_inv H1. injection H0 as <- <-. injection H2 as _ <-. injection H1 as _ <-.
      refine (conj eq_refl (conj eq_refl (conj eq_refl eq_refl))). }
  clear H1. destruct Hcell as (Hc1 & Hb1 & Hcell).
  bind_inv H.
  kept_facts fname; point_facts.
  unfold lookups_kept in *; destruct_and?.
  all: repeat match goal with
       | H : context [lookup_calls ?f (set_insert_pos ?p (set_insert_block ?b ?x))] |- _ =>
           change (lookup_calls f (set_insert_pos p (set_insert_block b x)))
             with (lookup_calls f x) in H
       | H : context [lookup_calls _ (set_blocks (_ ++ [_]) _)] |- _ =>
           rewrite lookup_calls_new_block in H
       end.
  all: cbn [blocks set_blocks set_insert_pos set_insert_block insert_block globals
            func_handle_map_] in *.
  all: rewrite ?length_app in *; cbn [length] in *.
  all: match goal with
       | H : (insert_block ?x < _)%nat -> _ |- _ =>
           let Hv := fresh "Hv" in
           assert (Hv : (insert_block x < length (blocks x))%nat) by lia;
           destruct (H Hv) as (? & ? & ? & ?); clear H
       end.
  all: split; [lia|].
  all: match goal with
       | |- match _ !! _ with _ => _ end =>
           match goal with
           | |- context [globals ?x = globals ?y /\ _] =>
               assert (Hg : globals x = globals s1)
                 by (repeat (etransitivity; [eassumption|]); exact eq_refl);
               assert (Hm : func_handle_map_ x = func_handle_map_ s1)
                 by (repeat (etransitivity; [eassumption|]); exact eq_refl)
           end
       end.
  all: rewrite Hg, Hm.
  all: destruct (func_handle_map_ s !! fname); exact Hcell.
Qed.

(** C4 as stated fails: resolving the name "f" twice in one function emits
    the get-function-by-name call twice, once at each resolution. *)
Lemma handle_cache_slow_path_twice :
  (exists v1 v2,
     GetPackedFuncHandle "f" demo_state = Ok v1 demo_resolved_once /\
     GetPackedFuncHandle "f" demo_resolved_once = Ok v2 demo_resolved_twice) /\
  lookup_calls "f" demo_state = 0%nat /\
  lookup_calls "f" demo_resolved_once = 1%nat /\
  lookup_calls "f" demo_resolved_twice = 2%nat.
Proof.
  split; [eexists _, _; split; vm_compute; reflexivity|].
  split_and!; vm_compute; reflexivity.
Qed.

(** ** Closure records *)

Lemma le_bytes_S (n : nat) (z : Z) :
  le_bytes (S n) z = (z mod 256) :: le_bytes n (z / 256).
Proof.
  unfold le_bytes. cbn [seq map]. f_equal.
  - change (256 ^ Z.of_nat 0) with 1. by rewrite Z.div_1_r.
  - rewrite <- seq_shift, map_map. apply map_ext. intros k.
    rewrite Nat2Z.inj_succ, Z.pow_succ_r by lia. by rewrite Z.div_div by lia.
Qed.

Lemma from_le_bytes (n : nat) (z : Z) : 0 <= z -> from_le (le_bytes n z) = z mod 256 ^ Z.of_nat n.
Proof.
  revert z. induction n as [|n IH]; intros z Hz.
  - change (256 ^ Z.of_nat 0) with 1. by rewrite Z.mod_1_r.
  - rewrite le_bytes_S. cbn [from_le foldr]. fold (from_le (le_bytes n (z / 256))).
    rewrite IH by (apply Z.div_pos; lia).
    rewrite Nat2Z.inj_succ, Z.pow_succ_r by lia. rewrite Z.rem_mul_r by lia. reflexivity.
Qed.

Lemma length_le_bytes n z : length (le_bytes n z) = n.
Proof. unfold le_bytes. by rewrite length_map, length_seq. Qed.

Lemma int_bytes_bits (w : Z) : 1 <= w <= 128 -> 2 ^ w <= 256 ^ Z.of_nat (Z.to_nat (int_bytes w)).
Proof.
  intros Hw. unfold int_bytes.
  assert (H256 : forall k, 0 <= k -> 256 ^ k = 2 ^ (8 * k)).
  { intros k Hk. rewrite Z.pow_mul_r by lia. reflexivity. }
  repeat match goal with |- context [if ?c then _ else _] => destruct c eqn:? end;
    rewrite Z2Nat.id, H256 by lia; apply Z.pow_le_mono_r; lia.
Qed.

Lemma mapM_byte_of (l : list Z) : mapM byte_of (MByte <$> l) = Some l.
Proof. induction l as [|x l IH]; [done|]. cbn. by rewrite IH. Qed.

Lemma int_range (w z : Z) :
  (1 <=? w) && (w <=? 128) && (0 <=? z) && (z <? 2 ^ w) = true ->
  1 <= w <= 128 /\ 0 <= z < 2 ^ w.
Proof. rewrite !andb_true_iff, !Z.leb_le, Z.ltb_lt. lia. Qed.

Lemma decode_encode (pb : Z) (ty : LType) (v : RVal) (bytes rest : list MemVal) :
  has_type pb ty v = true -> encode pb ty v = Some bytes ->
  decode pb ty (bytes ++ rest) = Some v.
Proof.
  intros Ht He. unfold decode.
  set (n := Z.to_nat (getTypeAllocSize pb ty)) in *.
  assert (Hlen : length bytes = n).
  { unfold encode in He. fold n in He.
    destruct ty, v; try discriminate; injection He as <-;
      by rewrite length_fmap, ?length_le_bytes, ?length_seq. }
  rewrite take_app_length' by done. rewrite Hlen, Nat.eqb_refl. cbn [negb].
  unfold encode in He. fold n in He.
  destruct ty as [|w|w|t| |]; destruct v; try discriminate; cbn [has_type] in Ht;
    injection He as <-.
  1, 2: apply int_range in Ht as [Hw Hz]; rewrite mapM_byte_of; cbn; do 2 f_equal;
    rewrite from_le_bytes by (apply Z.mod_pos_bound; lia);
    pose proof (int_bytes_bits w Hw) as Hb; cbn [getTypeAllocSize] in n; fold n in Hb;
    unfold unsigned_; rewrite (Z.mod_small z (2 ^ w)) by lia;
    rewrite (Z.mod_small z (256 ^ _)) by lia; apply Z.mod_small; lia.
  all: apply Z.ltb_lt in Ht; cbn [getTypeAllocSize] in n.
  all: destruct n as [|n'] eqn:En; [subst n; lia|].
  all: cbn [seq fmap list_fmap]; by rewrite bool_decide_true.
Qed.

Lemma agree_refl n m : agree n m m.
Proof. by split_and!. Qed.

Lemma agree_set_mem n m m' mm : agree n m m' -> agree n m (set_mem mm m').
Proof. intros (H1 & H2 & H3). by split_and!. Qed.

Lemma agree_set_reg n m m' id v : agree n m m' -> (n <= id)%nat -> agree n m (set_reg id v m').
Proof.
  intros (H1 & H2 & H3) Hid. split_and!; [|done..].
  intros r Hr. cbn [regs set_reg]. rewrite lookup_insert_ne by lia. by apply H1.
Qed.

Lemma exec_insts_app prev l1 l2 m m1 :
  exec_insts prev l1 m = Some (Next m1) ->
  exec_insts prev (l1 ++ l2) m = exec_insts prev l2 m1.
Proof.
  revert m. induction l1 as [|i l1 IH]; intros m H.
  - by injection H as <-.
  - cbn [exec_insts app] in *. destruct (exec_inst prev i m) as [[m'| |]|]; try discriminate.
    by apply IH.
Qed.

Lemma eval_field_addr ctype c cty base m i :
  regs m !! c = Some (RPtr base [0]) -> Z.of_nat i < 2 ^ 31 ->
  eval_value m (field_addr ctype (InstResult c cty) i) = Some (RPtr base [Z.of_nat i; 0]).
Proof.
  intros Hc Hi. unfold field_addr, CreateInBoundsGEP, ConstInt32. cbn [eval_value].
  rewrite Hc. cbn [mbind option_bind mapM eval_value getType int_width t_int32_].
  assert (Hs : signed_ 32 (unsigned_ 32 (Z.of_nat i)) = Z.of_nat i).
  { unfold unsigned_. rewrite (signed_mod 32 _ (Z.of_nat i)) by apply Zmod_mod.
    apply signed_in_range; [lia|]. unfold in_range. lia. }
  rewrite Hs. reflexivity.
Qed.

Lemma encode_has_type pb ty v : has_type pb ty v = true -> is_Some (encode pb ty v).
Proof. destruct ty, v; try discriminate; intros _; by eexists. Qed.

Lemma exec_closure_stores prev ctype c cty base n0 m :
  (c < n0)%nat -> regs m !! c = Some (RPtr base [0]) ->
  forall xs vs i m0,
    agree n0 m m0 ->
    Forall2 (fun x v => evaluates n0 m x v /\ has_type (ptr_bytes m) (getType x) v = true) xs vs ->
    Z.of_nat (i + length xs) < 2 ^ 31 ->
    exists m1,
      exec_insts prev (closure_stores ctype (InstResult c cty) i xs) m0 = Some (Next m1) /\
      agree n0 m m1 /\
      (forall j x v, xs !! j = Some x -> vs !! j = Some v ->
         exists bytes rest,
           encode (ptr_bytes m) (getType x) v = Some bytes /\
           mem m1 !! (base, [Z.of_nat (i + j); 0]) = Some (bytes ++ rest)) /\
      (forall k, (k < i)%nat ->
         mem m1 !! (base, [Z.of_nat k; 0]) = mem m0 !! (base, [Z.of_nat k; 0])).
Proof.
  intros Hc Hreg xs vs i m0 Hag HF. revert i m0 Hag.
  induction HF as [|x v xs vs [Hev Hty] HF IH]; intros i m0 Hag Hlen.
  - exists m0. split_and!; [done | done | | done]. intros j x v Hx. by rewrite lookup_nil in Hx.
  - cbn [length] in Hlen. cbn [closure_stores exec_insts exec_inst].
    rewrite (Hev m0 Hag). cbn [mbind option_bind].
    destruct Hag as (Hr & Ha & Hp).
    rewrite (eval_field_addr ctype c cty base m0 i) by (rewrite ?Hr by done; done || lia).
    cbn [mbind option_bind]. rewrite Hp.
    destruct (encode_has_type _ _ _ Hty) as [bytes Hb]. rewrite Hb. cbn [mbind option_bind].
    set (m0' := set_mem _ m0).
    destruct (IH (S i) m0') as (m1 & Hex & Hag1 & Hcells & Hkeep).
    { by apply agree_set_mem. }
    { lia. }
    exists m1. split_and!; [done | done | |].
    + intros [|j] x' v' Hx Hv.
      * injection Hx as <-. injection Hv as <-. exists bytes. eexists. split; [done|].
        rewrite Hkeep by lia. rewrite Nat.add_0_r. subst m0'. cbn [mem set_mem].
        apply lookup_insert_eq.
      * replace (i + S j)%nat with (S i + j)%nat by lia. by apply Hcells.
    + intros k Hk. rewrite Hkeep by lia. subst m0'. cbn [mem set_mem].
      apply lookup_insert_ne. intros [= E]. lia.
Qed.

Lemma exec_closure_loads prev c cty base n0 m tys :
  (c < n0)%nat -> regs m !! c = Some (RPtr base [0]) ->
  forall vs i id m0,
    agree n0 m m0 -> (n0 <= id)%nat ->
    (forall j v, vs !! j = Some v ->
       exists cell, mem m0 !! (base, [Z.of_nat (i + j); 0]) = Some cell /\
                    decode (ptr_bytes m) (nth (i + j) tys TVoid) cell = Some v) ->
    Z.of_nat (i + length vs) < 2 ^ 31 ->
    exists m1,
      exec_insts prev (closure_loads (TStruct tys) (InstResult c cty) id i (length vs)) m0
        = Some (Next m1) /\
      agree n0 m m1 /\
      (forall j v, vs !! j = Some v -> regs m1 !! (id + j)%nat = Some v) /\
      (forall r, (r < id)%nat -> regs m1 !! r = regs m0 !! r).
Proof.
  intros Hc Hreg vs. induction vs as [|v vs IH]; intros i id m0 Hag Hid Hcells Hlen.
  - exists m0. split_and!; [done | done | | done]. intros j v Hv. by rewrite lookup_nil in Hv.
  - cbn [length] in Hlen. cbn [length closure_loads exec_insts exec_inst].
    pose proof Hag as (Hr & Ha & Hp).
    rewrite (eval_field_addr (TStruct tys) c cty base m0 i) by (rewrite ?Hr by done; done || lia).
    cbn [mbind option_bind].
    destruct (Hcells 0%nat v eq_refl) as (cell & Hcell & Hdec). rewrite Nat.add_0_r in Hcell, Hdec.
    rewrite Hcell. cbn [mbind option_bind getStructElementType]. rewrite Hp, Hdec.
    cbn [mbind option_bind].
    destruct (IH (S i) (S id) (set_reg id v m0)) as (m1 & Hex & Hag1 & Hregs & Hkeep).
    { by apply agree_set_reg. }
    { lia. }
    { intros j v' Hv'. replace (S i + j)%nat with (i + S j)%nat by lia. by apply Hcells. }
    { lia. }
    exists m1. split_and!; [done | done | |].
    + intros [|j] v' Hv'.
      * injection Hv' as <-. rewrite Nat.add_0_r, Hkeep by lia. cbn [regs set_reg].
        apply lookup_insert_eq.
      * replace (id + S j)%nat with (S id + j)%nat by lia. by apply Hregs.
    + intros r Hr'. rewrite Hkeep by lia. cbn [regs set_reg]. apply lookup_insert_ne. lia.
Qed.

Lemma closure_code_run prev c cty base n0 m xs vs :
  (c < n0)%nat -> regs m !! c = Some (RPtr base [0]) ->
  Forall2 (fun x v => evaluates n0 m x v /\ has_type (ptr_bytes m) (getType x) v = true) xs vs ->
  Z.of_nat (length xs) < 2 ^ 31 ->
  exists m1,
    exec_insts prev
      (closure_stores (TStruct (map getType xs)) (InstResult c cty) 0 xs ++
       closure_loads (TStruct (map getType xs)) (InstResult c cty) n0 0 (length xs)) m
      = Some (Next m1) /\
    agree n0 m m1 /\
    (forall j v, vs !! j = Some v -> regs m1 !! (n0 + j)%nat = Some v).
Proof.
  intros Hc Hreg HF Hlen.
  destruct (exec_closure_stores prev (TStruct (map getType xs)) c cty base n0 m Hc Hreg
              xs vs 0%nat m (agree_refl _ _) HF) as (ms & Hex & Hag & Hcells & _); [lia|].
  pose proof (Forall2_length _ _ _ HF) as Hl.
  destruct (exec_closure_loads prev c cty base n0 m (map getType xs) Hc Hreg
              vs 0%nat n0 ms Hag (le_n _)) as (m1 & Hex1 & Hag1 & Hregs & _).
  - intros j v Hv.
    destruct (lookup_lt_is_Some_2 xs j) as [x Hx]; [rewrite Hl; by eapply lookup_lt_Some|].
    destruct (Hcells j x v Hx Hv) as (bytes & rest & Hb & Hcell).
    exists (bytes ++ rest). split; [done|]. cbn [Nat.add].
    assert (Hnth : nth j (map getType xs) TVoid = getType x).
    { apply nth_lookup_Some. by rewrite list_lookup_fmap, Hx. }
    rewrite Hnth. apply decode_encode; [|done].
    eapply Forall2_lookup_lr in HF; [|done..]. by destruct HF.
  - lia.
  - exists m1. split_and!; [|done..]. rewrite (exec_insts_app _ _ _ _ _ Hex). by rewrite Hl.
Qed.

Lemma emitted_nil s : emitted [] 0 s = s.
Proof.
  unfold emitted, set_next_inst, set_blocks. destruct s. cbn. rewrite Nat.add_0_r. f_equal.
  apply list_alter_id. intros []. cbn. by rewrite app_nil_r.
Qed.

Lemma emitted_app l1 k1 l2 k2 s :
  emitted l2 k2 (emitted l1 k1 s) = emitted (l1 ++ l2) (k1 + k2) s.
Proof.
  unfold emitted, set_next_inst, set_blocks. destruct s. cbn. rewrite Nat.add_assoc. f_equal.
  rewrite list_alter_alter_eq. apply list_alter_ext; [|done]. intros b _. cbn.
  by rewrite app_assoc.
Qed.

Lemma CreateStore_emitted v addr s :
  insert_pos s = None -> CreateStore v addr s = Ok tt (emitted [Store v addr] 0 s).
Proof.
  intros Hp. unfold CreateStore, emit, modify. rewrite Hp. f_equal.
  unfold emitted, set_next_inst, set_blocks. destruct s. cbn. by rewrite Nat.add_0_r.
Qed.

Lemma CreateLoad_emitted ty addr s :
  insert_pos s = None ->
  CreateLoad ty addr s =
    Ok (InstResult (next_inst s) ty) (emitted [Load (next_inst s) ty addr] 1 s).
Proof.
  intros Hp. unfold CreateLoad, fresh_inst, mbind, M_bind, emit, modify, mret, M_ret.
  unfold emitted, set_next_inst, set_blocks. destruct s. cbn in *. subst. cbn.
  by rewrite Nat.add_1_r.
Qed.

Lemma closure_field_types_bound vfields xs s :
  Forall2 (bound_to s) vfields xs -> closure_field_types vfields s = Ok (map getType xs) s.
Proof.
  induction 1 as [|v x vfields xs Hv HF IH]; [done|].
  cbn [closure_field_types]. unfold mbind at 1, M_bind at 1, gets at 1.
  unfold bound_to in Hv. rewrite Hv. by rewrite (bind_step _ _ _ _ _ IH).
Qed.

Lemma store_closure_fields_emitted ctype cv vfields :
  forall xs i s, insert_pos s = None -> Forall2 (bound_to s) vfields xs ->
    store_closure_fields ctype cv i vfields s = Ok tt (emitted (closure_stores ctype cv i xs) 0 s).
Proof.
  induction vfields as [|v vfields IH]; intros xs i s Hp HF.
  - apply Forall2_nil_inv_l in HF as ->.
    cbn [store_closure_fields closure_stores]. by rewrite emitted_nil.
  - apply Forall2_cons_inv_l in HF as (x & xs' & Hv & HF & ->).
    cbn [store_closure_fields closure_stores].
    unfold mbind at 1, M_bind at 1, gets at 1. unfold bound_to in Hv. rewrite Hv.
    rewrite (bind_step _ _ _ _ _ (CreateStore_emitted _ _ _ Hp)).
    rewrite (IH xs' (S i) (emitted _ 0 s) Hp HF), emitted_app. reflexivity.
Qed.

Lemma unpack_fields_emitted cdata vfields :
  forall i vmap s, insert_pos s = None ->
    unpack_fields cdata i vfields vmap s =
      Ok (closure_vmap (tp_type cdata) (next_inst s) i vfields vmap)
         (emitted (closure_loads (tp_type cdata) (tp_addr cdata) (next_inst s) i (length vfields))
                  (length vfields) s).
Proof.
  induction vfields as [|v vfields IH]; intros i vmap s Hp.
  - cbn [unpack_fields closure_vmap closure_loads length]. by rewrite emitted_nil.
  - cbn [unpack_fields closure_vmap closure_loads length].
    rewrite (bind_step _ _ _ _ _ (CreateLoad_emitted _ _ _ Hp)).
    rewrite (IH (S i) _ (emitted _ 1 s) Hp), emitted_app.
    change (next_inst (emitted ?l 1 s)) with (next_inst s + 1)%nat.
    rewrite Nat.add_1_r. reflexivity.
Qed.

Lemma closure_vmap_other ctype vfields :
  forall id i vmap k, Forall (fun v => vnode v <> k) vfields ->
    closure_vmap ctype id i vfields vmap !! k = vmap !! k.
Proof.
  induction vfields as [|v vfields IH]; intros id i vmap k HF; [done|].
  apply Forall_cons in HF as [Hv HF]. cbn [closure_vmap].
  rewrite IH by done. by apply lookup_insert_ne.
Qed.

Lemma closure_vmap_lookup ctype vfields :
  forall id i vmap v, v ∈ vfields ->
    exists j v', vfields !! j = Some v' /\ vnode v' = vnode v /\
      closure_vmap ctype id i vfields vmap !! vnode v =
        Some (InstResult (id + j) (getStructElementType ctype (i + j))).
Proof.
  induction vfields as [|v0 vfields IH]; intros id i vmap v Hin.
  - by apply elem_of_nil in Hin.
  - cbn [closure_vmap].
    destruct (decide (Exists (fun v' => vnode v' = vnode v) vfields)) as [Hex|Hno].
    + apply Exists_exists in Hex as (v1 & Hin1 & Hn1).
      destruct (IH (S id) (S i) (<[vnode v0 := InstResult id (getStructElementType ctype i)]> vmap)
                  v1 Hin1) as (j & v' & Hj & Hn & Hl).
      exists (S j), v'. split_and!; [done | congruence |].
      rewrite <- Hn1, Hl.
      replace (id + S j)%nat with (S id + j)%nat by lia.
      by replace (i + S j)%nat with (S i + j)%nat by lia.
    + apply not_Exists_Forall in Hno; [|intros ?; apply _].
      apply elem_of_cons in Hin as [->|Hin].
      * exists 0%nat, v0. split_and!; [done..|].
        rewrite closure_vmap_other by (eapply Forall_impl; [exact Hno|]; by intros ? ?).
        rewrite lookup_insert_eq, !Nat.add_0_r. reflexivity.
      * exfalso. rewrite Forall_forall in Hno. by apply (Hno v Hin).
Qed.

Lemma WithFunctionEntry_alloca ctype entry s :
  insert_pos s = None -> getEntryBlock (function_ s) (blocks s) = Some entry ->
  WithFunctionEntry (CreateAlloca ctype (ConstInt32 1)) s =
    Ok (InstResult (next_inst s) (llvmGetPointerTo ctype)) (with_alloca ctype entry s).
Proof.
  intros Hp He. unfold WithFunctionEntry, GetInsertBlock.
  unfold mbind at 1, M_bind at 1, gets at 1.
  unfold mbind at 1, M_bind at 1, get at 1. rewrite He.
  unfold mbind, M_bind, modify, CreateAlloca, fresh_inst, emit, modify, SetInsertPoint, modify,
    mret, M_ret.
  unfold with_alloca, set_next_inst, set_blocks, set_insert_pos, set_insert_block, insert_at.
  destruct s. cbn in *. subst. reflexivity.
Qed.

(** C5.  Packing the captured variables into a closure record and unpacking
    the record right away succeeds whenever the variables are bound; the
    unpacked map binds every captured variable to a load whose value, after
    the emitted stores and loads have run, is the value of the original.  An
    empty list gives a null closure pointer and a size of zero bytes, and
    emits nothing. *)
Theorem closure_round_trip (s : CodeGenCPU) (vfields : list Var) (xs : list Value)
    (name : string) (vmap0 : gmap (nat + nat) Value) (entry : nat) :
  insert_pos s = None ->
  getEntryBlock (function_ s) (blocks s) = Some entry ->
  Forall2 (bound_to s) vfields xs ->
  let ctype := TStruct (map getType xs) in
  let c := next_inst s in
  let cvalue := InstResult c (llvmGetPointerTo ctype) in
  let code := closure_stores ctype cvalue 0 xs ++ closure_loads ctype cvalue (S c) 0 (length xs) in
  exists cdata nbytes s1 vmap' s2,
    PackClosureData vfields name s = Ok (cdata, nbytes) s1 /\
    UnpackClosureData cdata vfields vmap0 s1 = Ok vmap' s2 /\
    (vfields = [] ->
       cdata = mkTypedPointer t_void_p_ (ConstantNull t_void_p_) /\ nbytes = 0 /\
       s2 = s /\ vmap' = vmap0) /\
    (vfields <> [] ->
       cdata = mkTypedPointer ctype cvalue /\
       nbytes = getTypeAllocSize (pointer_bytes (runtime_ s)) ctype /\
       s2 = emitted code (length xs) (with_alloca ctype entry s)) /\
    (forall prev m base vs,
       regs m !! c = Some (RPtr base [0]) ->
       Forall2 (fun x v => evaluates (S c) m x v /\
                           has_type (ptr_bytes m) (getType x) v = true) xs vs ->
       Z.of_nat (length xs) < 2 ^ 31 ->
       exists m1,
         exec_insts prev code m = Some (Next m1) /\
         forall v x, v ∈ vfields -> bound_to s v x ->
           exists l, vmap' !! vnode v = Some l /\ getType l = getType x /\
                     eval_value m1 l = eval_value m x).
Proof.
  intros Hp He HF ctype c cvalue code.
  pose proof (Forall2_length _ _ _ HF) as Hlen.
  destruct (decide (vfields = [])) as [->|Hne].
  - apply Forall2_nil_inv_l in HF as Hxs. subst xs.
    exists (mkTypedPointer t_void_p_ (ConstantNull t_void_p_)), 0, s, vmap0, s.
    split_and!; [done | done | done | done |].
    intros prev m base vs _ _ _. exists m. split; [done|].
    intros v x Hin. by apply elem_of_nil in Hin.
  - set (sa := with_alloca ctype entry s).
    set (stores := closure_stores ctype cvalue 0 xs).
    assert (Hpack : PackClosureData vfields name s =
                      Ok (mkTypedPointer ctype cvalue,
                          getTypeAllocSize (pointer_bytes (runtime_ s)) ctype)
                         (emitted stores 0 sa)).
    { unfold PackClosureData.
      destruct (length vfields =? 0)%nat eqn:E0;
        [apply Nat.eqb_eq in E0; destruct vfields; [done | discriminate]|].
      rewrite (bind_step _ _ _ _ _ (closure_field_types_bound _ _ _ HF)).
      fold ctype. cbv zeta.
      rewrite (bind_step _ _ _ _ _ (WithFunctionEntry_alloca ctype entry s Hp He)).
      fold cvalue sa.
      rewrite (bind_step _ _ _ _ _ (store_closure_fields_emitted ctype cvalue vfields xs 0%nat
                                      sa Hp HF)).
      reflexivity. }
    set (vmap' := closure_vmap ctype (S c) 0 vfields vmap0).
    assert (Hunpack : UnpackClosureData (mkTypedPointer ctype cvalue) vfields vmap0
                        (emitted stores 0 sa) = Ok vmap' (emitted code (length xs) sa)).
    { unfold UnpackClosureData.
      rewrite (unpack_fields_emitted _ vfields 0%nat vmap0 (emitted stores 0 sa) Hp).
      rewrite emitted_app. cbn [tp_type tp_addr].
      change (next_inst (emitted stores 0 sa)) with (S c + 0)%nat.
      rewrite Nat.add_0_r, Hlen. reflexivity. }
    eexists _, _, _, _, _. split; [exact Hpack|]. split; [exact Hunpack|].
    split_and!.
    + intros Hnil. by destruct Hne.
    + intros _. by split_and!.
    + intros prev m base vs Hreg Hvs Hbound.
      destruct (closure_code_run prev c (llvmGetPointerTo ctype) base (S c) m xs vs
                  (Nat.lt_succ_diag_r _) Hreg Hvs Hbound) as (m1 & Hex & Hag & Hregs).
      exists m1. split; [exact Hex|].
      intros v x Hin Hx.
      destruct (closure_vmap_lookup ctype vfields (S c) 0%nat vmap0 v Hin)
        as (j & v' & Hj & Hn & Hl).
      destruct (Forall2_lookup_l _ _ _ _ _ HF Hj) as (x' & Hxj & Hx').
      unfold bound_to in Hx, Hx'. rewrite Hn, Hx in Hx'. injection Hx' as <-.
      assert (Hty : getStructElementType ctype (0 + j) = getType x).
      { cbn [getStructElementType ctype Nat.add]. apply nth_lookup_Some.
        by rewrite list_lookup_fmap, Hxj. }
      rewrite Hty in Hl. eexists. split; [exact Hl|]. split; [done|].
      destruct (Forall2_lookup_l _ _ _ _ _ Hvs Hxj) as (val & Hval & Hev & _).
      cbn [eval_value]. rewrite (Hregs _ _ Hval). symmetry. apply Hev, agree_refl.
Qed.

Lemma closure_round_trip_witness :
  exists cdata nbytes s1 vmap' s2,
    PackClosureData [demo_task_id; demo_num_task] "closure" demo_env_state
      = Ok (cdata, nbytes) s1 /\
    UnpackClosureData cdata [demo_task_id; demo_num_task] ∅ s1 = Ok vmap' s2 /\
    nbytes = 8.
Proof.
  destruct (closure_round_trip demo_env_state [demo_task_id; demo_num_task]
              [Argument 4 0 t_int_; Argument 4 1 t_int_] "closure" ∅ 0)
    as (cdata & nbytes & s1 & vmap' & s2 & H1 & H2 & _ & H3 & _);
    [reflexivity | reflexivity | repeat constructor |].
  destruct H3 as (_ & Hn & _); [discriminate|].
  exists cdata, nbytes, s1, vmap', s2. split; [exact H1|]. split; [exact H2|].
  rewrite Hn. reflexivity.
Defined.

(** The stores and loads of a closure of two 32-bit integers, run on a machine
    where the closure record has been allocated: the two loads read back the
    values of the two captured arguments. *)
Example closure_code_runs :
  let ctype := TStruct [t_int_; t_int_] in
  let cvalue := InstResult 0 (llvmGetPointerTo ctype) in
  let xs := [Argument 4 0 t_int_; Argument 4 1 t_int_] in
  let m := mkMachine {[ 0%nat := RPtr (inr 0%nat) [0] ]} [RInt 1; RInt 3] ∅ 1 8 in
  exists m1,
    exec_insts 0 (closure_stores ctype cvalue 0 xs ++ closure_loads ctype cvalue 1 0 2) m
      = Some (Next m1) /\
    regs m1 !! 1%nat = Some (RInt 1) /\ regs m1 !! 2%nat = Some (RInt 3).
Proof. eexists. split_and!; vm_compute; reflexivity. Qed.

(** ** The payload of a tagged value *)

Lemma struct_set_emits (bufE indexE valueE : PrimExpr) (dt tk : DataType) (s : CodeGenCPU)
    (buf index value : Value) (ref : TypedPointer) :
  MakeValue valueE s = Ok value s -> MakeValue bufE s = Ok buf s ->
  MakeValue indexE s = Ok index s ->
  CreateStructRefPtr (dtype_of valueE) buf index kTVMFFIAnyUnionValue s = Ok ref s ->
  insert_pos s = None ->
  let pb := pointer_bytes (runtime_ s) in
  let value' := if isPointerTy (getType value)
                then CreatePointerCast value (tp_type ref) else value in
  let zero := Store (ConstInt64 0)
                    (CreatePointerCast (tp_addr ref) (llvmGetPointerTo t_int64_)) in
  MakeValue (CallE dt tvm_struct_set [bufE; indexE; IntImm tk kTVMFFIAnyUnionValue; valueE]) s =
    Ok (ConstInt32 0)
       (emitted ((if getTypeAllocSize pb (tp_type ref) =? 8 then [] else [zero]) ++
                 [Store value' (tp_addr ref)]) 0 s).
Proof.
  intros Hv Hb Hi Href Hp pb value' zero.
  cbn [MakeValue map]. unfold CreateIntrinsic.
  cbn [length Nat.eqb ICHECK]. unfold mbind at 1, M_bind at 1. cbn [mret M_ret].
  cbn [lookup list_lookup as_IntImm]. unfold mbind at 1, M_bind at 1. cbn [mret M_ret].
  unfold MakeValue_of. cbn [lookup list_lookup default].
  rewrite (bind_step _ _ _ _ _ Hv), (bind_step _ _ _ _ _ Hb), (bind_step _ _ _ _ _ Hi).
  cbn [fmap option_fmap option_map default].
  rewrite (bind_step _ _ _ _ _ Href).
  change (kTVMFFIAnyUnionValue =? kArrAddr) with false.
  change (kTVMFFIAnyUnionValue =? kTVMFFIAnyUnionValue) with true.
  cbn [negb ICHECK]. unfold mbind at 1, M_bind at 1. cbn [mret M_ret].
  unfold mbind at 1, M_bind at 1, gets at 1. fold pb. fold value'.
  destruct (getTypeAllocSize pb (tp_type ref) =? 8) eqn:E; cbn [negb].
  - unfold mbind at 1, M_bind at 1. cbn [mret M_ret].
    rewrite (bind_step _ _ _ _ _ (CreateStore_emitted _ _ _ Hp)). reflexivity.
  - rewrite (bind_step _ _ _ _ _ (CreateStore_emitted _ _ _ Hp)).
    rewrite (bind_step _ _ _ _ _ (CreateStore_emitted _ _ (emitted _ 0 s) Hp)).
    rewrite emitted_app. reflexivity.
Qed.

Lemma eval_value_set_mem mm m : forall v, eval_value (set_mem mm m) v = eval_value m v.
Proof.
  fix IH 1. intros v. destruct v; cbn [eval_value]; try reflexivity.
  - apply IH.
  - rewrite (IH v). destruct (eval_value m v) as [b|]; [|reflexivity]. cbn [mbind option_bind].
    assert (Hl : mapM (fun i => x ← eval_value (set_mem mm m) i;
                                match x with
                                | RInt z => Some (signed_ (int_width (getType i)) z)
                                | _ => None
                                end) idxs
                 = mapM (fun i => x ← eval_value m i;
                                match x with
                                | RInt z => Some (signed_ (int_width (getType i)) z)
                                | _ => None
                                end) idxs).
    { induction idxs as [|i idxs IHl]; [reflexivity|]. cbn [mapM]. by rewrite (IH i), IHl. }
    by rewrite Hl.
  - by rewrite (IH v1), (IH v2).
  - by rewrite (IH v1), (IH v2).
  - by rewrite (IH v1), (IH v2), (IH v3).
  - by rewrite (IH v).
Qed.

Lemma int_bytes_narrow (w : Z) : w <= 8 -> int_bytes w = 1.
Proof. intros Hw. unfold int_bytes. by rewrite (proj2 (Z.leb_le _ _) Hw). Qed.

Lemma zero_fill_read_back prev m (addr value : Value) base path w z id :
  eval_value m addr = Some (RPtr base path) ->
  getType value = TInt w -> 1 <= w <= 8 ->
  eval_value m value = Some (RInt z) -> 0 <= z < 2 ^ w ->
  let i64_addr := CreatePointerCast addr (llvmGetPointerTo t_int64_) in
  exists m1,
    exec_insts prev [Store (ConstInt64 0) i64_addr; Store value addr] m = Some (Next m1) /\
    exec_inst prev (Load id t_int64_ i64_addr) m1 = Some (Next (set_reg id (RInt z) m1)).
Proof.
  intros Ha Hty Hw Hv Hz i64_addr.
  assert (Hz8 : z < 256).
  { assert (2 ^ w <= 2 ^ 8) by (apply Z.pow_le_mono_r; lia). change (2 ^ 8) with 256 in *. lia. }
  set (old := default [] (mem m !! (base, path))).
  set (m0 := set_mem (<[(base, path) := (MByte <$> le_bytes 8 0) ++ drop 8 old]> (mem m)) m).
  assert (H0 : exec_inst prev (Store (ConstInt64 0) i64_addr) m = Some (Next m0)).
  { unfold i64_addr, CreatePointerCast, ConstInt64. cbn [exec_inst eval_value].
    rewrite Ha. reflexivity. }
  set (cell := MByte z :: replicate 7 (MByte 0) ++ drop 8 old).
  set (m1 := set_mem (<[(base, path) := cell]> (mem m0)) m0).
  assert (H1 : exec_inst prev (Store value addr) m0 = Some (Next m1)).
  { assert (Hv0 : eval_value m0 value = Some (RInt z))
      by (unfold m0; rewrite eval_value_set_mem; exact Hv).
    assert (Ha0 : eval_value m0 addr = Some (RPtr base path))
      by (unfold m0; rewrite eval_value_set_mem; exact Ha).
    cbn [exec_inst]. rewrite Hv0, Ha0.
    cbn [mbind option_bind]. rewrite Hty. cbn [encode getTypeAllocSize].
    rewrite int_bytes_narrow by lia. unfold unsigned_. rewrite (Z.mod_small z) by lia.
    cbn [mbind option_bind]. unfold m1. do 3 f_equal.
    unfold m0. cbn [mem set_mem]. rewrite lookup_insert_eq.
    change (Z.to_nat 1) with 1%nat. rewrite le_bytes_S, Z.mod_small by lia.
    reflexivity. }
  exists m1. split.
  - cbn [exec_insts]. by rewrite H0, H1.
  - unfold i64_addr, CreatePointerCast. cbn [exec_inst eval_value].
    assert (Ha1 : eval_value m1 addr = Some (RPtr base path))
      by (unfold m1, m0; rewrite !eval_value_set_mem; exact Ha).
    assert (Hm1 : mem m1 !! (base, path) = Some cell)
      by (unfold m1; cbn [mem set_mem]; apply lookup_insert_eq).
    rewrite Ha1. cbn [mbind option_bind]. rewrite Hm1. cbn [mbind option_bind].
    assert (Hd : decode (ptr_bytes m1) t_int64_ cell = Some (RInt z)).
    { unfold decode, cell. cbn. change (Z.to_nat 8) with 8%nat. cbn.
      rewrite take_0. cbn. unfold unsigned_. do 2 f_equal. rewrite Z.mod_small; lia. }
    rewrite Hd. reflexivity.
Qed.

(** X1.  A struct-set of the payload field of a tagged value whose slot type
    is not 8 bytes wide emits a store of the 64-bit zero to the payload
    address and then the store of the value, in this order and nothing else.
    When the value is an integer of at most 8 bits (the boolean), running
    the two stores and then loading the payload as a 64-bit integer yields
    the value itself: the other seven bytes read as zero. *)
Theorem struct_set_payload_zero_fill (bufE indexE valueE : PrimExpr) (dt tk : DataType)
    (s : CodeGenCPU) (buf index value : Value) (ref : TypedPointer) :
  MakeValue valueE s = Ok value s -> MakeValue bufE s = Ok buf s ->
  MakeValue indexE s = Ok index s ->
  CreateStructRefPtr (dtype_of valueE) buf index kTVMFFIAnyUnionValue s = Ok ref s ->
  insert_pos s = None ->
  getTypeAllocSize (pointer_bytes (runtime_ s)) (tp_type ref) <> 8 ->
  let value' := if isPointerTy (getType value)
                then CreatePointerCast value (tp_type ref) else value in
  let i64_addr := CreatePointerCast (tp_addr ref) (llvmGetPointerTo t_int64_) in
  let code := [Store (ConstInt64 0) i64_addr; Store value' (tp_addr ref)] in
  MakeValue (CallE dt tvm_struct_set [bufE; indexE; IntImm tk kTVMFFIAnyUnionValue; valueE]) s
    = Ok (ConstInt32 0) (emitted code 0 s) /\
  (forall prev m base path w z id,
     eval_value m (tp_addr ref) = Some (RPtr base path) ->
     getType value = TInt w -> 1 <= w <= 8 ->
     eval_value m value = Some (RInt z) -> 0 <= z < 2 ^ w ->
     exists m1,
       exec_insts prev code m = Some (Next m1) /\
       exec_inst prev (Load id t_int64_ i64_addr) m1 = Some (Next (set_reg id (RInt z) m1))).
Proof.
  intros Hv Hb Hi Href Hp Hsz value' i64_addr code. split.
  - rewrite (struct_set_emits bufE indexE valueE dt tk s buf index value ref) by done.
    apply Z.eqb_neq in Hsz. by rewrite Hsz.
  - intros prev m base path w z id Ha Hty Hw Hz Hr.
    unfold code, value'. rewrite Hty. cbn [isPointerTy].
    by apply (zero_fill_read_back prev m (tp_addr ref) value base path w z id).
Qed.

Lemma struct_set_payload_zero_fill_witness :
  (exists s',
     MakeValue (CallE (Int 32) tvm_struct_set
                  [VarE demo_any_var; IntImm (Int 32) 0;
                   IntImm (Int 32) kTVMFFIAnyUnionValue; IntImm Bool 1]) demo_any_state
       = Ok (ConstInt32 0) s' /\
     blocks s' !! 0%nat = Some (mkBlock "entry" 4 demo_payload_code)) /\
  (exists m1,
     exec_insts 0 demo_payload_code (mkMachine ∅ [RPtr (inr 0%nat) [0]] ∅ 1 8)
       = Some (Next m1) /\
     exec_inst 0 (Load 7 t_int64_ (CreatePointerCast demo_payload_addr (llvmGetPointerTo t_int64_)))
               m1 = Some (Next (set_reg 7 (RInt 1) m1))).
Proof.
  destruct (struct_set_payload_zero_fill (VarE demo_any_var) (IntImm (Int 32) 0) (IntImm Bool 1)
              (Int 32) (Int 32) demo_any_state (Argument 4 0 t_void_p_)
              (ConstantInt (TInt 32) 0) (ConstantInt (TInt 1) 1)
              (mkTypedPointer t_int8_ demo_payload_addr))
    as [Hemit Hrun]; [reflexivity | reflexivity | reflexivity | reflexivity | reflexivity
                     | discriminate |].
  split.
  - eexists. split; [exact Hemit | vm_compute; reflexivity].
  - apply (Hrun 0%nat (mkMachine ∅ [RPtr (inr 0%nat) [0]] ∅ 1 8) (inr 0%nat) [2; 0] 1 1 7%nat);
      [reflexivity | reflexivity | lia | reflexivity | lia].
Defined.

(** ** Addresses of record fields *)

(** X3.  A request for a field of a tensor descriptor (the kinds below
    [kArrKindBound_]) needs a base of type [void*] or pointer to the
    descriptor: any other base is a fatal error.  With such a base the request
    succeeds, the address is an in-bounds element address from the base (cast
    to the descriptor pointer when it was [void*]) that starts at [index], and
    its element type is the type of the named field: the descriptor itself for
    the address kind, [void*] for the data, pointers to shape indices for
    shape and strides, 32-bit integers for the dimension count and the device
    fields, 8-bit integers for type code and bits, a 16-bit integer for the
    lanes, a 64-bit integer for the byte offset. *)
Theorem CreateStructRefPtr_array_field (t : DataType) (buf index : Value) (kind : Z)
    (s : CodeGenCPU) :
  0 <= kind < kArrKindBound_ ->
  let is_void_p := LType_eqb (getType buf) t_void_p_ in
  let is_array_p := LType_eqb (getType buf) (llvmGetPointerTo t_tvm_array_) in
  let base := if is_void_p then CreatePointerCast buf (llvmGetPointerTo t_tvm_array_) else buf in
  (is_void_p || is_array_p = false ->
   CreateStructRefPtr t buf index kind s =
     Fatal "Check failed: buf->getType() == t_tvm_array_*") /\
  (is_void_p || is_array_p = true ->
   exists ref path,
     CreateStructRefPtr t buf index kind s = Ok ref s /\
     tp_type ref = array_field_type kind /\
     tp_addr ref = CreateInBoundsGEP t_tvm_array_ base (index :: path)).
Proof.
  intros Hk is_void_p is_array_p base.
  assert (Hcases : kind = 0 \/ kind = 1 \/ kind = 2 \/ kind = 3 \/ kind = 4 \/ kind = 5 \/
                   kind = 6 \/ kind = 7 \/ kind = 8 \/ kind = 9 \/ kind = 10)
    by (unfold kArrKindBound_ in Hk; lia).
  unfold CreateStructRefPtr, array_member, ICHECK. subst base. fold is_void_p is_array_p.
  destruct is_void_p, is_array_p; cbn [orb]; (split; [intros Hn | intros Hy]); try discriminate.
  all: repeat (destruct Hcases as [-> | Hcases]); try subst kind.
  all: try (eexists _, _; split_and!; reflexivity).
  all: reflexivity.
Qed.

Lemma CreateStructRefPtr_array_field_witness :
  exists ref path,
    CreateStructRefPtr Handle (Argument 0 0 t_void_p_) (ConstInt32 3) kArrNDim demo_state
      = Ok ref demo_state /\
    tp_type ref = t_int_ /\
    tp_addr ref =
      CreateInBoundsGEP t_tvm_array_
        (CreatePointerCast (Argument 0 0 t_void_p_) (llvmGetPointerTo t_tvm_array_))
        (ConstInt32 3 :: path).
Proof.
  destruct (CreateStructRefPtr_array_field Handle (Argument 0 0 t_void_p_) (ConstInt32 3)
              kArrNDim demo_state) as [_ H]; [unfold kArrNDim, kArrKindBound_; lia|].
  exact (H eq_refl).
Defined.

(** X4.  A kind that names neither a descriptor field nor a field of a tagged
    value never yields a pointer: from [kArrKindBound_] on, the two
    tagged-value kinds apart, the request fails with "unknown field code"
    whatever the base is, and a negative kind fails as well. *)
Theorem CreateStructRefPtr_unknown_kind (t : DataType) (buf index : Value) (kind : Z)
    (s : CodeGenCPU) :
  kind < 0 \/ kind = kArrKindBound_ \/ kTVMFFIAnyUnionValue < kind ->
  (exists msg, CreateStructRefPtr t buf index kind s = Fatal msg) /\
  (kArrKindBound_ <= kind -> CreateStructRefPtr t buf index kind s = Fatal "unknown field code").
Proof.
  intros Hk. unfold CreateStructRefPtr, ICHECK.
  unfold kArrAddr, kArrData, kArrShape, kArrStrides, kArrNDim, kArrTypeCode, kArrTypeBits,
    kArrTypeLanes, kArrByteOffset, kArrDeviceId, kArrDeviceType, kArrKindBound_,
    kTVMFFIAnyTypeIndex, kTVMFFIAnyUnionValue in *.
  repeat match goal with
         | |- context [?a =? ?b] => destruct (Z.eqb_spec a b); [lia|]
         end.
  destruct (kind <? 11) eqn:Hlt.
  - apply Z.ltb_lt in Hlt. split; [|lia].
    repeat match goal with
           | |- context [if ?c then _ else _] => destruct c
           end; by eexists.
  - split; [by eexists | reflexivity].
Qed.

Lemma CreateStructRefPtr_unknown_kind_witness :
  CreateStructRefPtr Handle (Argument 0 0 t_void_p_) (ConstInt32 0) 14 demo_state
    = Fatal "unknown field code".
Proof.
  apply (CreateStructRefPtr_unknown_kind Handle (Argument 0 0 t_void_p_) (ConstInt32 0) 14
           demo_state);
    [right; right; reflexivity | unfold kArrKindBound_; lia].
Defined.

(** ** Writing and reading a record field *)

Lemma struct_set_lowering (bufE indexE valueE : PrimExpr) (dt tk : DataType) (kind : Z)
    (s : CodeGenCPU) (buf index value : Value) (ref : TypedPointer) :
  MakeValue valueE s = Ok value s -> MakeValue bufE s = Ok buf s ->
  MakeValue indexE s = Ok index s ->
  CreateStructRefPtr (dtype_of valueE) buf index kind s = Ok ref s ->
  insert_pos s = None -> kind <> kArrAddr ->
  MakeValue (CallE dt tvm_struct_set [bufE; indexE; IntImm tk kind; valueE]) s =
    Ok (ConstInt32 0)
       (emitted (struct_set_code (pointer_bytes (runtime_ s)) kind ref value) 0 s).
Proof.
  intros Hv Hb Hi Href Hp Hk.
  cbn [MakeValue map]. unfold CreateIntrinsic.
  cbn [length Nat.eqb ICHECK]. unfold mbind at 1, M_bind at 1. cbn [mret M_ret].
  cbn [lookup list_lookup as_IntImm]. unfold mbind at 1, M_bind at 1. cbn [mret M_ret].
  unfold MakeValue_of. cbn [lookup list_lookup default].
  rewrite (bind_step _ _ _ _ _ Hv), (bind_step _ _ _ _ _ Hb), (bind_step _ _ _ _ _ Hi).
  cbn [fmap option_fmap option_map default].
  rewrite (bind_step _ _ _ _ _ Href).
  apply Z.eqb_neq in Hk. rewrite Hk.
  cbn [negb ICHECK]. unfold mbind at 1, M_bind at 1. cbn [mret M_ret].
  unfold mbind at 1, M_bind at 1, gets at 1. unfold struct_set_code.
  destruct (kind =? kTVMFFIAnyUnionValue); cbn [andb];
    [destruct (getTypeAllocSize _ (tp_type ref) =? 8); cbn [negb]|].
  - unfold mbind at 1, M_bind at 1. cbn [mret M_ret].
    rewrite (bind_step _ _ _ _ _ (CreateStore_emitted _ _ _ Hp)). reflexivity.
  - rewrite (bind_step _ _ _ _ _ (CreateStore_emitted _ _ _ Hp)).
    rewrite (bind_step _ _ _ _ _ (CreateStore_emitted _ _ (emitted _ 0 s) Hp)).
    rewrite emitted_app. reflexivity.
  - unfold mbind at 1, M_bind at 1. cbn [mret M_ret].
    rewrite (bind_step _ _ _ _ _ (CreateStore_emitted _ _ _ Hp)). reflexivity.
Qed.

Lemma struct_get_lowering (bufE indexE : PrimExpr) (t tk : DataType) (kind : Z)
    (s : CodeGenCPU) (buf index : Value) (ref : TypedPointer) :
  MakeValue bufE s = Ok buf s -> MakeValue indexE s = Ok index s ->
  CreateStructRefPtr t buf index kind s = Ok ref s ->
  insert_pos s = None -> kind <> kArrAddr -> DataType_eqb t Bool = false ->
  MakeValue (CallE t tvm_struct_get [bufE; indexE; IntImm tk kind]) s =
    Ok (InstResult (next_inst s) (tp_type ref))
       (emitted [Load (next_inst s) (tp_type ref) (tp_addr ref)] 1 s).
Proof.
  intros Hb Hi Href Hp Hk Ht.
  cbn [MakeValue map]. unfold CreateIntrinsic.
  cbn [length Nat.eqb ICHECK]. unfold mbind at 1, M_bind at 1. cbn [mret M_ret].
  cbn [lookup list_lookup as_IntImm]. unfold mbind at 1, M_bind at 1. cbn [mret M_ret].
  unfold MakeValue_of. cbn [lookup list_lookup default].
  rewrite (bind_step _ _ _ _ _ Hb), (bind_step _ _ _ _ _ Hi).
  rewrite (bind_step _ _ _ _ _ Href).
  apply Z.eqb_neq in Hk. rewrite Hk, Ht.
  rewrite (bind_step _ _ _ _ _ (CreateLoad_emitted _ _ _ Hp)). reflexivity.
Qed.

Lemma CreateStructRefPtr_any_state (t : DataType) (buf index : Value) (kind : Z)
    (s s' : CodeGenCPU) (ref : TypedPointer) :
  CreateStructRefPtr t buf index kind s = Ok ref s' ->
  forall st, CreateStructRefPtr t buf index kind st = Ok ref st.
Proof.
  unfold CreateStructRefPtr, array_member, ICHECK.
  repeat match goal with
         | |- context [if ?c then _ else _] => destruct c
         end;
    intros H st; try discriminate H;
    unfold mbind, M_bind, mret, M_ret, fatal in *; by injection H as <- _.
Qed.

Lemma store_load_read_back prev m (addr value : Value) (ty : LType) base path v id :
  eval_value m addr = Some (RPtr base path) -> eval_value m value = Some v ->
  getType value = ty -> has_type (ptr_bytes m) ty v = true ->
  exists m1,
    exec_insts prev [Store value addr; Load id ty addr] m = Some (Next m1) /\
    regs m1 !! id = Some v.
Proof.
  intros Ha Hv Hty Ht.
  destruct (encode_has_type _ _ _ Ht) as [bytes Hb].
  set (cell := bytes ++ drop (length bytes) (default [] (mem m !! (base, path)))).
  set (m0 := set_mem (<[(base, path) := cell]> (mem m)) m).
  assert (H0 : exec_inst prev (Store value addr) m = Some (Next m0)).
  { cbn [exec_inst]. rewrite Hv, Ha. cbn [mbind option_bind]. rewrite Hty, Hb. reflexivity. }
  assert (Ha0 : eval_value m0 addr = Some (RPtr base path))
    by (unfold m0; rewrite eval_value_set_mem; exact Ha).
  assert (Hm0 : mem m0 !! (base, path) = Some cell)
    by (unfold m0; cbn [mem set_mem]; apply lookup_insert_eq).
  exists (set_reg id v m0). split.
  - cbn [exec_insts]. rewrite H0. cbn [exec_inst]. rewrite Ha0. cbn [mbind option_bind].
    rewrite Hm0. cbn [mbind option_bind].
    change (ptr_bytes m0) with (ptr_bytes m). unfold cell.
    rewrite (decode_encode _ _ _ _ _ Ht Hb). reflexivity.
  - cbn [regs set_reg]. apply lookup_insert_eq.
Qed.

(** X5.  A struct-set followed by a struct-get of the same field with the
    same data type (not the address kind, not a boolean) lowers to the stores
    of the set and one load from the same address with the same element type;
    when the stored value has that element type, the load yields, at run
    time, the value that was stored. *)
Theorem struct_set_get_round_trip (bufE indexE valueE : PrimExpr) (dt tk : DataType)
    (kind : Z) (s : CodeGenCPU) (buf index value : Value) (ref : TypedPointer) :
  MakeValue valueE s = Ok value s ->
  (forall st, var_map_ st = var_map_ s -> MakeValue bufE st = Ok buf st) ->
  (forall st, var_map_ st = var_map_ s -> MakeValue indexE st = Ok index st) ->
  CreateStructRefPtr (dtype_of valueE) buf index kind s = Ok ref s ->
  insert_pos s = None -> kind <> kArrAddr -> DataType_eqb (dtype_of valueE) Bool = false ->
  let value' := if isPointerTy (getType value)
                then CreatePointerCast value (tp_type ref) else value in
  let id := next_inst s in
  let code := struct_set_code (pointer_bytes (runtime_ s)) kind ref value ++
              [Load id (tp_type ref) (tp_addr ref)] in
  exists s1,
    MakeValue (CallE dt tvm_struct_set [bufE; indexE; IntImm tk kind; valueE]) s
      = Ok (ConstInt32 0) s1 /\
    MakeValue (CallE (dtype_of valueE) tvm_struct_get [bufE; indexE; IntImm tk kind]) s1
      = Ok (InstResult id (tp_type ref)) (emitted code 1 s) /\
    (forall prev m base path v,
       eval_value m (tp_addr ref) = Some (RPtr base path) ->
       eval_value m value' = Some v -> getType value' = tp_type ref ->
       has_type (ptr_bytes m) (tp_type ref) v = true ->
       exists m1, exec_insts prev code m = Some (Next m1) /\ regs m1 !! id = Some v).
Proof.
  intros Hv Hb Hi Href Hp Hk Ht value' id code.
  set (setc := struct_set_code (pointer_bytes (runtime_ s)) kind ref value).
  exists (emitted setc 0 s). split_and!.
  - apply (struct_set_lowering bufE indexE valueE dt tk kind s buf index value ref);
      [done | by apply Hb | by apply Hi | done..].
  - rewrite (struct_get_lowering bufE indexE (dtype_of valueE) tk kind (emitted setc 0 s)
               buf index ref); [| by apply Hb | by apply Hi | | done..].
    + rewrite emitted_app. change (next_inst (emitted setc 0 s)) with (next_inst s + 0)%nat.
      rewrite Nat.add_0_r. reflexivity.
    + eapply CreateStructRefPtr_any_state, Href.
  - intros prev m base path v Ha Hval Hty Hht. unfold code, struct_set_code.
    fold value'.
    destruct ((kind =? kTVMFFIAnyUnionValue) && _); cbn [app].
    + set (zaddr := CreatePointerCast (tp_addr ref) (llvmGetPointerTo t_int64_)).
      assert (H0 : exists m0 mm, exec_inst prev (Store (ConstInt64 0) zaddr) m = Some (Next m0) /\
                                 m0 = set_mem mm m).
      { unfold zaddr, CreatePointerCast, ConstInt64. cbn [exec_inst eval_value]. rewrite Ha.
        eexists _, _. split; reflexivity. }
      destruct H0 as (m0 & mm & H0 & ->).
      destruct (store_load_read_back prev (set_mem mm m) (tp_addr ref) value' (tp_type ref)
                  base path v id) as (m1 & Hex & Hr);
        [by rewrite eval_value_set_mem | by rewrite eval_value_set_mem | done | done |].
      exists m1. split; [|done]. cbn [exec_insts] in *. by rewrite H0.
    + by apply (store_load_read_back prev m (tp_addr ref) value' (tp_type ref) base path v id).
Qed.

Lemma struct_set_get_round_trip_witness :
  exists s1 s2 m1,
    MakeValue (CallE (Int 32) tvm_struct_set
                 [VarE demo_any_var; IntImm (Int 32) 0;
                  IntImm (Int 32) kTVMFFIAnyUnionValue; IntImm (Int 64) 42]) demo_any_state
      = Ok (ConstInt32 0) s1 /\
    MakeValue (CallE (Int 64) tvm_struct_get
                 [VarE demo_any_var; IntImm (Int 32) 0; IntImm (Int 32) kTVMFFIAnyUnionValue]) s1
      = Ok (InstResult 0 t_int64_) s2 /\
    exec_insts 0 (default [] (bb_insts <$> blocks s2 !! 0%nat))
               (mkMachine ∅ [RPtr (inr 0%nat) [0]] ∅ 1 8) = Some (Next m1) /\
    regs m1 !! 0%nat = Some (RInt 42).
Proof.
  destruct (struct_set_get_round_trip (VarE demo_any_var) (IntImm (Int 32) 0) (IntImm (Int 64) 42)
              (Int 32) (Int 32) kTVMFFIAnyUnionValue demo_any_state (Argument 4 0 t_void_p_)
              (ConstantInt (TInt 32) 0) (ConstantInt (TInt 64) 42)
              (mkTypedPointer t_int64_
                 (CreatePointerCast
                    (CreateInBoundsGEP t_tvm_ffi_any_
                       (CreatePointerCast (Argument 4 0 t_void_p_)
                                          (llvmGetPointerTo t_tvm_ffi_any_))
                       [ConstInt32 0; ConstInt32 2])
                    (llvmGetPointerTo t_int64_))))
    as (s1 & Hset & Hget & Hrun);
    [reflexivity | intros st Hst; cbn [MakeValue]; unfold GetVarValue, mbind, M_bind, gets;
                   rewrite Hst; reflexivity
    | intros st _; reflexivity | reflexivity | reflexivity | discriminate | reflexivity |].
  destruct (Hrun 0%nat (mkMachine ∅ [RPtr (inr 0%nat) [0]] ∅ 1 8) (inr 0%nat) [2; 0] (RInt 42))
    as (m1 & Hex & Hreg); [reflexivity | reflexivity | reflexivity | reflexivity |].
  exists s1. eexists. exists m1.
  split; [exact Hset|]. split; [exact Hget|]. split; [exact Hex | exact Hreg].
Defined.

(** ** Closure records: failure and bindings *)

Lemma closure_field_types_unbound (vfields : list Var) (s : CodeGenCPU) :
  Exists (fun v => var_map_ s !! vnode v = None) vfields ->
  closure_field_types vfields s = Fatal "Check failed: it != var_map_.end()".
Proof.
  induction vfields as [|v vfields IH]; intros Hex; [by apply Exists_nil in Hex|].
  cbn [closure_field_types]. unfold mbind at 1, M_bind at 1, gets at 1.
  destruct (var_map_ s !! vnode v) as [x|] eqn:Hv; [|reflexivity].
  apply Exists_cons in Hex as [Hex|Hex]; [congruence|].
  by rewrite (bind_Fatal _ _ _ _ (IH Hex)).
Qed.

(** X6.  Packing a closure needs every captured variable bound: when one of
    them has no value in the variable map, [PackClosureData] is a fatal error
    (the check on the map lookup) and returns no closure. *)
Theorem PackClosureData_unbound (vfields : list Var) (name : string) (s : CodeGenCPU) :
  Exists (fun v => var_map_ s !! vnode v = None) vfields ->
  PackClosureData vfields name s = Fatal "Check failed: it != var_map_.end()".
Proof.
  intros Hex. unfold PackClosureData.
  destruct vfields as [|v vfields]; [by apply Exists_nil in Hex|].
  cbn [length Nat.eqb].
  by rewrite (bind_Fatal _ _ _ _ (closure_field_types_unbound _ _ Hex)).
Qed.

Lemma PackClosureData_unbound_witness :
  PackClosureData [demo_task_id; mkVar (inl 9%nat) "x" (Int 32)] "closure" demo_env_state
    = Fatal "Check failed: it != var_map_.end()".
Proof.
  apply PackClosureData_unbound. apply Exists_cons_tl, Exists_cons_hd. reflexivity.
Defined.

(** X7.  Unpacking a closure record never fails: it emits one load per
    captured variable, in order, each from the field of the same index with
    that field's type, binds every captured variable to a load of the list,
    and leaves the binding of every other variable of the map as it was. *)
Theorem UnpackClosureData_binds (cdata : TypedPointer) (vfields : list Var)
    (vmap : gmap (nat + nat) Value) (s : CodeGenCPU) :
  insert_pos s = None ->
  exists vmap',
    UnpackClosureData cdata vfields vmap s =
      Ok vmap' (emitted (closure_loads (tp_type cdata) (tp_addr cdata) (next_inst s) 0
                                       (length vfields))
                        (length vfields) s) /\
    (forall v, v ∈ vfields ->
       exists j, (j < length vfields)%nat /\
         vmap' !! vnode v =
           Some (InstResult (next_inst s + j) (getStructElementType (tp_type cdata) j))) /\
    (forall k, Forall (fun v => vnode v <> k) vfields -> vmap' !! k = vmap !! k).
Proof.
  intros Hp. eexists. split; [apply (unpack_fields_emitted cdata vfields 0%nat vmap s Hp)|].
  split.
  - intros v Hin.
    destruct (closure_vmap_lookup (tp_type cdata) vfields (next_inst s) 0%nat vmap v Hin)
      as (j & v' & Hj & _ & Hl).
    exists j. split; [by eapply lookup_lt_Some | exact Hl].
  - intros k Hk. by apply closure_vmap_other.
Qed.

Lemma UnpackClosureData_binds_witness :
  exists vmap' s',
    UnpackClosureData (mkTypedPointer (TStruct [t_int_]) (Argument 4 2 t_void_p_))
                      [demo_task_id] ∅ demo_state = Ok vmap' s' /\
    vmap' !! vnode demo_num_task = None.
Proof.
  destruct (UnpackClosureData_binds (mkTypedPointer (TStruct [t_int_]) (Argument 4 2 t_void_p_))
              [demo_task_id] ∅ demo_state eq_refl) as (vmap' & H & _ & Hother).
  exists vmap'. eexists. split; [exact H|].
  rewrite Hother; [reflexivity|]. repeat constructor. discriminate.
Defined.

(** ** Context kept across statements *)

(** X8.  Lowering a statement restores the generator's context: when
    [VisitStmt] succeeds, the variable map, the current function and the
    runtime table are those it started with, the parallel environment still
    has its task id, task count, synchronization block and in-loop flag, and
    its count of parallel loops has not decreased.  Nested closures, compute
    scopes and loop variables are all undone on the way out. *)
Theorem VisitStmt_restores_context (st : Stmt) (s s' : CodeGenCPU) :
  VisitStmt st s = Ok tt s' ->
  var_map_ s' = var_map_ s /\ function_ s' = function_ s /\ runtime_ s' = runtime_ s /\
  task_id (parallel_env_ s') = task_id (parallel_env_ s) /\
  num_task (parallel_env_ s') = num_task (parallel_env_ s) /\
  penv (parallel_env_ s') = penv (parallel_env_ s) /\
  in_parallel_loop (parallel_env_ s') = in_parallel_loop (parallel_env_ s) /\
  parallel_loop_count (parallel_env_ s) <= parallel_loop_count (parallel_env_ s').
Proof.
  intros H.
  pose proof (VisitStmt_frame st false (fun E => ltac:(discriminate E)) _ _ _ H)
    as (Hv & Hf & Hr & (Ht & Hn & Hp & Hi & Hc) & _).
  refine (conj Hv (conj Hf (conj Hr (conj Ht (conj Hn (conj Hp (conj Hi Hc))))))).
Qed.

Lemma VisitStmt_restores_context_witness :
  VisitStmt demo_launch demo_any_state = Ok tt demo_launched /\
  var_map_ demo_launched = var_map_ demo_any_state /\
  function_ demo_launched = function_ demo_any_state /\
  (length (functions demo_any_state) < length (functions demo_launched))%nat.
Proof.
  assert (H : VisitStmt demo_launch demo_any_state = Ok tt demo_launched)
    by (vm_compute; reflexivity).
  destruct (VisitStmt_restores_context _ _ _ H) as (Hv & Hf & _).
  split; [exact H|]. split; [exact Hv|]. split; [exact Hf|]. vm_compute. lia.
Defined.

(** X9.  Only parallel loops are counted: lowering a statement that contains
    no parallel loop leaves the environment's count of parallel loops as it
    was. *)
Theorem VisitStmt_counts_parallel_loops_only (st : Stmt) (s s' : CodeGenCPU) :
  has_parallel_for st = false ->
  VisitStmt st s = Ok tt s' ->
  parallel_loop_count (parallel_env_ s') = parallel_loop_count (parallel_env_ s).
Proof.
  intros Hno H.
  pose proof (VisitStmt_frame st true (fun _ => Hno) _ _ _ H) as (_ & _ & _ & _ & Hc).
  by apply Hc.
Qed.

Lemma VisitStmt_counts_parallel_loops_only_witness :
  exists s',
    VisitStmt (SeqStmt [Evaluate (VarE demo_task_id); Evaluate (IntImm (Int 32) 1)])
              demo_env_state = Ok tt s' /\
    parallel_loop_count (parallel_env_ s') = 1.
Proof.
  eexists. split; [vm_compute; reflexivity|].
  rewrite (VisitStmt_counts_parallel_loops_only
             (SeqStmt [Evaluate (VarE demo_task_id); Evaluate (IntImm (Int 32) 1)])
             demo_env_state _ eq_refl); [reflexivity | vm_compute; reflexivity].
Defined.

(** ** Nested parallel loops *)

Lemma in_loop_context (s s' : CodeGenCPU) : same_context s s' -> in_loop s -> in_loop s'.
Proof. intros (_ & Hpe & _) [H1 H2]. unfold in_loop. by rewrite Hpe. Qed.

Lemma in_loop_frame q (s s' : CodeGenCPU) : stmt_frame q s s' -> in_loop s -> in_loop s'.
Proof.
  intros (_ & _ & _ & (_ & _ & Hp & Hi & _) & _) [H1 H2]. unfold in_loop. by rewrite Hi, Hp.
Qed.

Ltac ctx_facts :=
  repeat match goal with
  | H : gets _ _ = Ok _ _ |- _ => unfold gets in H; injection H as <- <-
  | H : get _ = Ok _ _ |- _ => unfold get in H; injection H as <- <-
  | H : mret _ _ = Ok _ _ |- _ => unfold mret, M_ret in H; injection H as <- <-
  | H : fatal _ _ = Ok _ _ |- _ => discriminate H
  | H : ICHECK ?c _ _ = Ok _ _ |- _ =>
      let E := fresh "E" in
      destruct c eqn:E;
        [unfold ICHECK, mret, M_ret in H; injection H as <- <- | discriminate H]
  | H : modify _ ?s = Ok _ ?s', L : in_loop ?s |- _ =>
      let F := fresh "L" in
      assert (F : in_loop s') by (unfold modify in H; injection H as _ <-; exact L);
      clear H
  | H : ?m ?s = Ok _ ?s', L : in_loop ?s |- _ =>
      let F := fresh "L" in
      assert (F : in_loop s')
        by (apply (in_loop_context s s'); [|exact L];
            apply (fun p : preserves same_context m => p _ _ _ H); pres);
      clear H
  end.

Lemma parallel_for_in_loop lv mn e b (self body : M unit) (s s' : CodeGenCPU) :
  in_loop s -> VisitStmt_For self body lv mn e kParallel b s = Ok tt s' -> False.
Proof.
  intros [Hin Hp]. unfold VisitStmt_For. intros H. bind_inv H.
  all: repeat match goal with
       | H : gets _ _ = Ok _ _ |- _ => unfold gets in H; injection H as <- <-
       | H : ICHECK (is_zero _) _ _ = Ok _ _ |- _ =>
           unfold ICHECK in H; destruct (is_zero mn); [injection H as _ <-|discriminate H]
       | H : fatal _ _ = Ok _ _ |- _ => discriminate H
       end.
  all: try (rewrite Hin in *; discriminate).
  all: try (match goal with E : penv _ = None |- _ => rewrite E in Hp; discriminate end).
Qed.

Lemma serial_for_in_loop begin end_ stride lv (body : M unit) (s s' : CodeGenCPU) :
  (forall s0 s1, in_loop s0 -> body s0 = Ok tt s1 -> False) ->
  in_loop s -> CreateSerialFor begin end_ stride lv body s = Ok tt s' -> False.
Proof.
  intros Hb L. unfold CreateSerialFor. intros H. bind_inv H. ctx_facts.
  match goal with
  | H : body ?x = Ok ?a ?y, L : in_loop ?x |- _ => destruct a; exact (Hb x y L H)
  end.
Qed.

Lemma bind_arguments_in_loop f vargs : forall idx values s s',
  in_loop s -> bind_arguments f idx vargs values s = Ok tt s' -> in_loop s'.
Proof.
  induction vargs as [|v vargs IH]; intros idx values s s' L.
  - cbn [bind_arguments]. by intros [= <-].
  - destruct values as [|x values]; cbn [bind_arguments]; [by intros [= <-]|].
    intros H. bind_inv H. ctx_facts. by eapply IH.
Qed.

Lemma static_init_in_loop (body : M unit) fname st (s s' : CodeGenCPU) :
  in_loop s -> CreateStaticInit body fname st s = Ok tt s' -> False.
Proof.
  intros L. unfold CreateStaticInit. intros H. bind_inv H. ctx_facts.
  all: match goal with
       | E : negb (isSome (penv (parallel_env_ ?x))) = true, L : in_loop ?x |- _ =>
           destruct L as [_ L]; rewrite L in E; discriminate E
       end.
Qed.

Lemma compute_scope_in_loop (body : M unit) value st (s s' : CodeGenCPU) :
  (forall s0 s1, in_loop s0 -> body s0 = Ok tt s1 -> False) ->
  in_loop s -> CreateComputeScope body value st s = Ok tt s' -> False.
Proof.
  intros Hb L. unfold CreateComputeScope. intros H. bind_inv H. ctx_facts.
  all: match goal with
       | H : bind_arguments _ _ _ _ ?x = Ok ?a ?y, L : in_loop ?x |- _ =>
           destruct a; apply (bind_arguments_in_loop _ _ _ _ _ _ L) in H
       end.
  all: ctx_facts.
  all: match goal with
       | Hb : forall s0 s1, in_loop s0 -> ?b s0 = Ok tt s1 -> False,
         H : ?b ?x = Ok ?a ?y, L : in_loop ?x |- _ => destruct a; exact (Hb x y L H)
       end.
Qed.

Lemma exposed_parallel_for_in_loop (st : Stmt) :
  forall s s', in_loop s -> exposes_parallel_for st = true -> VisitStmt st s = Ok tt s' -> False.
Proof.
  induction st as [lv mn ext kind body IH|key value body IH|seq IH|value] using Stmt_ind_seq;
    intros s s' L He.
  - (* loops *)
    cbn [VisitStmt]. destruct kind; cbn [exposes_parallel_for] in He.
    + unfold VisitStmt_For. intros H. bind_inv H. ctx_facts.
      match goal with
      | H : CreateSerialFor _ _ _ _ _ ?x = Ok _ _, L : in_loop ?x |- _ =>
          exact (serial_for_in_loop _ _ _ _ _ _ _ (fun a b La => IH a b La He) L H)
      end.
    + apply parallel_for_in_loop, L.
    + unfold VisitStmt_For. intros H. bind_inv H. ctx_facts.
    + unfold VisitStmt_For. intros H. bind_inv H. ctx_facts.
      match goal with
      | H : CreateSerialFor _ _ _ _ _ ?x = Ok _ _, L : in_loop ?x |- _ =>
          exact (serial_for_in_loop _ _ _ _ _ _ _ (fun a b La => IH a b La He) L H)
      end.
    + unfold VisitStmt_For. intros H. bind_inv H. ctx_facts.
  - (* attributes *)
    cbn [VisitStmt exposes_parallel_for] in *. unfold VisitStmt_AttrStmt.
    destruct (String.eqb key "pragma_parallel_launch_point") eqn:El; [discriminate He|].
    repeat match goal with
           | |- context [if ?c then _ else _] => destruct c eqn:?
           end.
    all: try (intros H; exact (IH _ _ L He H)).
    all: try (intros H; discriminate H).
    + destruct value; try (intros H; discriminate H). apply static_init_in_loop, L.
    + apply compute_scope_in_loop; [|exact L]. intros a b La. by apply IH.
    + intros H. bind_inv H. ctx_facts. eapply IH; eassumption.
    + intros H. bind_inv H. ctx_facts.
      all: destruct L as [L _]; rewrite L in *; discriminate.
    + destruct value; try (intros H; discriminate H). intros H. exact (IH _ _ L He H).
  - (* sequences *)
    cbn [VisitStmt exposes_parallel_for] in *. revert s L He.
    induction seq as [|st seq IHseq]; intros s L He; [discriminate He|].
    apply Forall_cons in IH as [IH1 IH2]. cbn [existsb] in He.
    intros H. apply bind_Ok in H as ([] & s1 & H1 & H).
    destruct (exposes_parallel_for st) eqn:E1; [exact (IH1 _ _ L eq_refl H1)|].
    cbn [orb] in He.
    apply (IHseq IH2 s1); [|exact He|exact H].
    eapply in_loop_frame; [|exact L].
    exact (VisitStmt_frame st false (fun E => ltac:(discriminate E)) _ _ _ H1).
  - discriminate He.
Qed.

(** X10.  Inside a parallel loop no further parallel loop can be lowered in
    the same environment.  When the environment is marked as being in a
    parallel loop, lowering any statement that exposes a parallel loop (under
    serial loops, sequences, compute scopes or pragmas, short of a launch
    point of its own) never succeeds; and in a parallel environment, a
    parallel loop whose body exposes a parallel loop never lowers. *)
Theorem nested_parallel_for_rejected (st : Stmt) (s s' : CodeGenCPU) :
  isSome (penv (parallel_env_ s)) = true ->
  exposes_parallel_for st = true ->
  (in_parallel_loop (parallel_env_ s) = true -> VisitStmt st s <> Ok tt s') /\
  (forall lv mn ext, VisitStmt (For lv mn ext kParallel st) s <> Ok tt s').
Proof.
  intros Hp He. split.
  - intros Hin H. exact (exposed_parallel_for_in_loop st s s' (conj Hin Hp) He H).
  - intros lv mn ext. cbn [VisitStmt]. unfold VisitStmt_For at 1. intros H.
    bind_inv H; ctx_facts.
    all: try (match goal with E : penv _ = None |- _ => rewrite E in Hp; discriminate Hp end).
    all: match goal with
         | Hp : isSome (penv (parallel_env_ ?x)) = true, H : modify _ ?x = Ok _ ?y |- _ =>
             assert (L : in_loop y)
               by (unfold modify in H; injection H as _ <-; split; [reflexivity | exact Hp]);
             clear H
         end.
    all: match goal with
         | H : (if _ then _ else _) _ = Ok _ _ |- _ => bind_inv H
         end.
    all: ctx_facts.
    all: match goal with
         | H : CreateSerialFor _ _ _ _ _ ?x = Ok ?a _, L : in_loop ?x |- _ =>
             destruct a;
             exact (serial_for_in_loop _ _ _ _ _ _ _
                      (fun a b La => exposed_parallel_for_in_loop st a b La He) L H)
         end.
Qed.

Lemma nested_parallel_for_rejected_witness :
  VisitStmt demo_parallel_for demo_in_loop_state <> Ok tt demo_in_loop_state.
Proof.
  destruct (nested_parallel_for_rejected demo_parallel_for demo_in_loop_state
              demo_in_loop_state eq_refl eq_refl) as [H _].
  exact (H eq_refl).
Defined.

(** A parallel loop directly inside a parallel loop, in a parallel
    environment with the stride pattern: lowering stops at the inner loop
    with the message of the nesting check. *)
Example nested_parallel_for_message :
  VisitStmt (For (mkVar (inl 0%nat) "i" (Int 32)) (IntImm (Int 32) 0) (IntImm (Int 32) 8)
                 kParallel
                 (For (mkVar (inl 1%nat) "j" (Int 32)) (IntImm (Int 32) 0) (IntImm (Int 32) 8)
                      kParallel (SeqStmt [])))
            demo_stride_state
  = Fatal "Nested parallel loop is not supported by threadpool, try fuse them instead".
Proof. vm_compute. reflexivity. Qed.

(** ** The module only grows *)

Lemma blocks_kept_refl l : blocks_kept l l.
Proof. intros i b H. by exists b. Qed.

Lemma blocks_kept_trans l1 l2 l3 : blocks_kept l1 l2 -> blocks_kept l2 l3 -> blocks_kept l1 l3.
Proof.
  intros H12 H23 i b H. destruct (H12 i b H) as (b2 & H2 & Hn2 & Hp2).
  destruct (H23 i b2 H2) as (b3 & H3 & Hn3 & Hp3).
  exists b3. split; [done|]. split; congruence.
Qed.

Lemma blocks_kept_app l l2 : blocks_kept l (l ++ l2).
Proof. intros i b H. exists b. split; [by apply lookup_app_l_Some | done]. Qed.

Lemma blocks_kept_alter (f : BasicBlock -> BasicBlock) k l :
  (forall b, bb_name (f b) = bb_name b /\ bb_parent (f b) = bb_parent b) ->
  blocks_kept l (alter f k l).
Proof.
  intros Hf i b H. destruct (decide (k = i)) as [->|Hne].
  - exists (f b). split; [|apply Hf]. by rewrite list_lookup_alter_eq, H.
  - exists b. split; [|done]. by rewrite list_lookup_alter_ne.
Qed.

Lemma blocks_kept_map (f : BasicBlock -> BasicBlock) l :
  (forall b, bb_name (f b) = bb_name b /\ bb_parent (f b) = bb_parent b) ->
  blocks_kept l (map f l).
Proof.
  intros Hf i b H. exists (f b). split; [|apply Hf].
  change (map f l) with (f <$> l). by rewrite list_lookup_fmap, H.
Qed.

#[global] Instance module_grows_preorder : PreOrder module_grows.
Proof.
  split.
  - intros s. unfold module_grows.
    split_and!; [done | done | apply blocks_kept_refl | lia | done].
  - intros s1 s2 s3 (?&?&?&?&?) (?&?&?&?&?). unfold module_grows.
    split_and!; [by etransitivity | by etransitivity | by eapply blocks_kept_trans | lia
                | by etransitivity].
Qed.

Lemma module_grows_same s s' :
  functions s' = functions s -> globals s' = globals s -> blocks s' = blocks s ->
  next_inst s' = next_inst s -> func_handle_map_ s' = func_handle_map_ s ->
  module_grows s s'.
Proof.
  intros Hf Hg Hb Hn Hc. unfold module_grows. rewrite Hf, Hg, Hb, Hn, Hc.
  split_and!; [done | done | apply blocks_kept_refl | lia | done].
Qed.

Create HintDb grow discriminated.

Lemma fresh_inst_grows : preserves module_grows fresh_inst.
Proof.
  intros s a s' [= <- <-]. unfold module_grows. simpl.
  split_and!; [done | done | apply blocks_kept_refl | lia | done].
Qed.

Lemma fresh_Var_grows name t : preserves module_grows (fresh_Var name t).
Proof.
  intros s a s' [= <- <-]. unfold module_grows. simpl.
  split_and!; [done | done | apply blocks_kept_refl | lia | done].
Qed.

Lemma BasicBlock_Create_grows name f : preserves module_grows (BasicBlock_Create name f).
Proof.
  intros s a s' [= <- <-]. unfold module_grows. simpl.
  split_and!; [done | done | apply blocks_kept_app | lia | done].
Qed.

Lemma Function_Create_grows fty l name : preserves module_grows (Function_Create fty l name).
Proof.
  intros s a s' [= <- <-]. unfold module_grows. simpl.
  split_and!; [by apply prefix_app_r | done | apply blocks_kept_refl | lia | done].
Qed.

Lemma new_GlobalVariable_grows ty l init name :
  preserves module_grows (new_GlobalVariable ty l init name).
Proof.
  intros s a s' [= <- <-]. unfold module_grows. simpl.
  split_and!; [done | by apply prefix_app_r | apply blocks_kept_refl | lia | done].
Qed.

Lemma emit_grows i : preserves module_grows (emit i).
Proof.
  apply preserves_modify. intros s. unfold module_grows.
  destruct (insert_pos s); simpl;
    (split_and!; [done | done | by apply blocks_kept_alter | lia | done]).
Qed.

Lemma addIncoming_grows phi v b : preserves module_grows (addIncoming phi v b).
Proof.
  unfold addIncoming. destruct phi; try (apply preserves_ret; typeclasses eauto).
  apply preserves_modify. intros s. unfold module_grows. simpl.
  split_and!; [done | done | by apply blocks_kept_map | lia | done].
Qed.

#[global] Hint Resolve fresh_inst_grows fresh_Var_grows BasicBlock_Create_grows
  Function_Create_grows new_GlobalVariable_grows emit_grows addIncoming_grows : grow.

(** A step that only changes the generator's context (insertion point,
    variable map, environment, current function, handle cache). *)
Ltac grow_modify :=
  apply preserves_modify; intros ?; apply module_grows_same; exact eq_refl.

Ltac grow_step :=
  first
    [ assumption
    | solve [auto with grow nocore]
    | progress cbv zeta
    | apply preserves_bind; [typeclasses eauto | | intros ?]
    | apply preserves_ret; typeclasses eauto
    | apply preserves_fatal
    | apply preserves_gets; typeclasses eauto
    | apply preserves_get; typeclasses eauto
    | apply preserves_ICHECK; typeclasses eauto
    | solve [grow_modify]
    | match goal with
      | |- preserves _ (match ?x with _ => _ end) => destruct x
      | |- preserves _ (if ?c then _ else _) => destruct c
      end ].

Ltac grow := repeat grow_step.

Lemma SetInsertPoint_grows b : preserves module_grows (SetInsertPoint b).
Proof. unfold SetInsertPoint. grow. Qed.

Lemma CreateAlloca_grows ty num : preserves module_grows (CreateAlloca ty num).
Proof. unfold CreateAlloca. grow. Qed.

Lemma CreateLoad_grows ty addr : preserves module_grows (CreateLoad ty addr).
Proof. unfold CreateLoad. grow. Qed.

Lemma CreateCall_grows fty callee args : preserves module_grows (CreateCall fty callee args).
Proof. unfold CreateCall. grow. Qed.

Lemma CreatePHI_grows ty : preserves module_grows (CreatePHI ty).
Proof. unfold CreatePHI. grow. Qed.

#[global] Hint Resolve SetInsertPoint_grows CreateAlloca_grows CreateLoad_grows
  CreateCall_grows CreatePHI_grows : grow.

#[global] Hint Extern 1 (preserves module_grows (CreateStore _ _)) => apply emit_grows : grow.
#[global] Hint Extern 1 (preserves module_grows (CreateBr _)) => apply emit_grows : grow.
#[global] Hint Extern 1 (preserves module_grows (CreateCondBr _ _ _)) => apply emit_grows : grow.
#[global] Hint Extern 1 (preserves module_grows (CreateRet _)) => apply emit_grows : grow.

Lemma WithFunctionEntry_grows {A} (m : M A) :
  preserves module_grows m -> preserves module_grows (WithFunctionEntry m).
Proof. intros Hm. unfold WithFunctionEntry, GetInsertBlock. grow. Qed.

#[global] Hint Resolve WithFunctionEntry_grows : grow.

Lemma CheckCallSuccess_grows retcode : preserves module_grows (CheckCallSuccess retcode).
Proof. unfold CheckCallSuccess. grow. Qed.

Lemma GetContextPtr_grows gv : preserves module_grows (GetContextPtr gv).
Proof. unfold GetContextPtr. grow. Qed.

#[global] Hint Resolve CheckCallSuccess_grows GetContextPtr_grows : grow.

Lemma RuntimeTVMFFIFunctionCall_grows : preserves module_grows RuntimeTVMFFIFunctionCall.
Proof. unfold RuntimeTVMFFIFunctionCall. grow. Qed.

Lemma RuntimeTVMGetFuncFromEnv_grows : preserves module_grows RuntimeTVMGetFuncFromEnv.
Proof. unfold RuntimeTVMGetFuncFromEnv. grow. Qed.

Lemma RuntimeTVMParallelLaunch_grows : preserves module_grows RuntimeTVMParallelLaunch.
Proof. unfold RuntimeTVMParallelLaunch. grow. Qed.

Lemma RuntimeTVMParallelBarrier_grows : preserves module_grows RuntimeTVMParallelBarrier.
Proof. unfold RuntimeTVMParallelBarrier. grow. Qed.

#[global] Hint Resolve RuntimeTVMFFIFunctionCall_grows RuntimeTVMGetFuncFromEnv_grows
  RuntimeTVMParallelLaunch_grows RuntimeTVMParallelBarrier_grows : grow.

Lemma GetPackedFuncHandle_grows fname : preserves module_grows (GetPackedFuncHandle fname).
Proof.
  intros s v s'. unfold GetPackedFuncHandle, GetInsertBlock. intros H.
  apply bind_Ok in H as (cache & s0 & H0 & H). injection H0 as <- <-.
  apply bind_Ok in H as (hptr & s1 & H1 & H).
  transitivity s1.
  - destruct (func_handle_map_ s !! fname) as [h|] eqn:Hc.
    + injection H1 as _ <-. reflexivity.
    + bind_inv H1. injection H0 as <- <-. injection H2 as _ <-. injection H1 as _ <-.
      unfold module_grows.
      split_and!; [done | by apply prefix_app_r | apply blocks_kept_refl | cbn; lia |].
      by apply insert_subseteq.
  - revert H. apply (fun p : preserves module_grows _ => p s1 v s'). grow.
Qed.

Lemma GetVarValue_grows v : preserves module_grows (GetVarValue v).
Proof. unfold GetVarValue. grow. Qed.

Lemma CreateStructRefPtr_grows t buf index kind :
  preserves module_grows (CreateStructRefPtr t buf index kind).
Proof.
  intros s a s' Hs.
  rewrite (CreateStructRefPtr_any_state _ _ _ _ _ _ _ Hs s) in Hs.
  injection Hs as <-. reflexivity.
Qed.

Lemma as_IntImm_grows e : preserves module_grows (as_IntImm e).
Proof. unfold as_IntImm. grow. Qed.

Lemma CreateStaticHandle_grows : preserves module_grows CreateStaticHandle.
Proof. unfold CreateStaticHandle. grow. Qed.

#[global] Hint Resolve GetPackedFuncHandle_grows GetVarValue_grows CreateStructRefPtr_grows
  as_IntImm_grows CreateStaticHandle_grows
  : grow.

Lemma MakeCallPackedLowered_grows mv args r_type b e lookup :
  (forall i, preserves module_grows (mv i)) ->
  preserves module_grows (MakeCallPackedLowered mv args r_type b e lookup).
Proof. intros Hmv. unfold MakeCallPackedLowered. grow. Qed.

#[global] Hint Resolve MakeCallPackedLowered_grows : grow.

Lemma CreateCallPacked_grows mv dtype op args :
  (forall i, preserves module_grows (mv i)) ->
  preserves module_grows (CreateCallPacked mv dtype op args).
Proof.
  intros Hmv. unfold CreateCallPacked. grow.
Qed.

#[global] Hint Resolve CreateCallPacked_grows : grow.

Lemma CreateIntrinsic_grows mv dtype op args :
  (forall i, preserves module_grows (mv i)) ->
  preserves module_grows (CreateIntrinsic mv dtype op args).
Proof.
  intros Hmv. unfold CreateIntrinsic.
  destruct op; grow.
Qed.

Lemma MakeValue_grows e : preserves module_grows (MakeValue e).
Proof.
  induction e using PrimExpr_rect_args; simpl; grow;
    try (apply CreateIntrinsic_grows, MakeValue_of_preserves; by apply Forall_fmap).
Qed.

#[global] Hint Resolve MakeValue_grows : grow.

Lemma closure_field_types_grows vfields : preserves module_grows (closure_field_types vfields).
Proof. induction vfields as [|v rest IH]; simpl; grow. Qed.

Lemma store_closure_fields_grows ctype cvalue i vfields :
  preserves module_grows (store_closure_fields ctype cvalue i vfields).
Proof. revert i. induction vfields as [|v rest IH]; intros i; simpl; grow. Qed.

#[global] Hint Resolve closure_field_types_grows store_closure_fields_grows : grow.

Lemma PackClosureData_grows vfields name : preserves module_grows (PackClosureData vfields name).
Proof. unfold PackClosureData. grow. Qed.

Lemma unpack_fields_grows cdata i vfields vmap :
  preserves module_grows (unpack_fields cdata i vfields vmap).
Proof. revert i vmap. induction vfields as [|v rest IH]; intros i vmap; simpl; grow. Qed.

Lemma UnpackClosureData_grows cdata vfields vmap :
  preserves module_grows (UnpackClosureData cdata vfields vmap).
Proof. apply unpack_fields_grows. Qed.

Lemma mapM_GetVarValue_grows l : preserves module_grows (mapM GetVarValue l).
Proof. induction l as [|v l IH]; simpl; grow. Qed.

Lemma bind_arguments_grows f vargs : forall idx values,
  preserves module_grows (bind_arguments f idx vargs values).
Proof. induction vargs as [|v vargs IH]; intros idx [|x values]; simpl; grow. Qed.

#[global] Hint Resolve PackClosureData_grows UnpackClosureData_grows mapM_GetVarValue_grows
  bind_arguments_grows : grow.

Lemma CreateSerialFor_grows begin end_ stride lv (body : M unit) :
  preserves module_grows body ->
  preserves module_grows (CreateSerialFor begin end_ stride lv body).
Proof. intros Hb. unfold CreateSerialFor, GetInsertBlock. grow. Qed.

#[global] Hint Resolve CreateSerialFor_grows : grow.

Lemma CreateParallelLaunch_grows (body : M unit) st n name :
  preserves module_grows body ->
  preserves module_grows (CreateParallelLaunch body st n name).
Proof. intros Hb. unfold CreateParallelLaunch. grow. Qed.

Lemma CreateStaticInit_grows (body : M unit) fname st :
  preserves module_grows body ->
  preserves module_grows (CreateStaticInit body fname st).
Proof. intros Hb. unfold CreateStaticInit. grow. Qed.

Lemma CreateComputeScope_grows (body : M unit) value st :
  preserves module_grows body ->
  preserves module_grows (CreateComputeScope body value st).
Proof. intros Hb. unfold CreateComputeScope. grow. Qed.

#[global] Hint Resolve CreateParallelLaunch_grows CreateStaticInit_grows
  CreateComputeScope_grows : grow.

Lemma VisitStmt_AttrStmt_grows (body : M unit) key value st :
  preserves module_grows body ->
  preserves module_grows (VisitStmt_AttrStmt body key value st).
Proof.
  intros Hb. unfold VisitStmt_AttrStmt. grow.
Qed.

Lemma VisitStmt_For_grows (self body : M unit) lv mn ext kind st :
  preserves module_grows self ->
  preserves module_grows body ->
  preserves module_grows (VisitStmt_For self body lv mn ext kind st).
Proof.
  intros Hs Hb. unfold VisitStmt_For. grow.
Qed.

Lemma VisitStmt_grows st : preserves module_grows (VisitStmt st).
Proof.
  induction st as [lv mn ext kind body IH|key value body IH|seq IH|value] using Stmt_ind_seq.
  - cbn [VisitStmt]. apply VisitStmt_For_grows; [|exact IH].
    apply VisitStmt_For_grows; [apply preserves_fatal | exact IH].
  - cbn [VisitStmt]. by apply VisitStmt_AttrStmt_grows.
  - cbn [VisitStmt]. induction seq as [|st seq IHseq].
    + apply preserves_ret. typeclasses eauto.
    + apply Forall_cons in IH as [IH1 IH2].
      apply preserves_bind; [typeclasses eauto | exact IH1 | intros _; by apply IHseq].
  - cbn [VisitStmt]. grow.
Qed.

(** X11.  Lowering a statement only adds to the module.  When [VisitStmt]
    succeeds, every function and every global variable that existed before is
    still there, at the same index and unchanged, so the references the
    generator keeps to them stay valid; every basic block that existed is
    still there with its name and its parent function (only its instructions
    may have changed); the counter of instruction ids has not gone back, so
    no id is handed out twice; and a function name that had a handle cell
    keeps that cell. *)
Theorem VisitStmt_module_grows (st : Stmt) (s s' : CodeGenCPU) :
  VisitStmt st s = Ok tt s' -> module_grows s s'.
Proof. intros H. exact (VisitStmt_grows st _ _ _ H). Qed.

Lemma VisitStmt_module_grows_witness :
  module_grows demo_any_state demo_launched /\
  (length (functions demo_any_state) < length (functions demo_launched))%nat.
Proof.
  assert (H : VisitStmt demo_launch demo_any_state = Ok tt demo_launched)
    by (vm_compute; reflexivity).
  split; [exact (VisitStmt_module_grows demo_launch demo_any_state demo_launched H)|].
  vm_compute. lia.
Defined.

(** ** The stride pattern stays requested *)

#[global] Instance stride_kept_preorder : PreOrder stride_kept.
Proof.
  split.
  - intros s H. exact H.
  - intros s1 s2 s3 H12 H23 H. exact (H23 (H12 H)).
Qed.

Lemma ctx_stride_kept {A} (m : M A) : preserves same_context m -> preserves stride_kept m.
Proof.
  apply preserves_weaken. intros s s' (_ & He & _) H. by rewrite He.
Qed.

Create HintDb stride discriminated.

Ltac stride_step :=
  first
    [ assumption
    | solve [auto with stride nocore]
    | progress cbv zeta
    | match goal with
      | |- preserves _ (_ ≫= _) => apply preserves_bind; [typeclasses eauto | | intros ?]
      | |- preserves _ (modify _) =>
          apply preserves_modify; intros ? H; first [exact H | exact eq_refl]
      | |- preserves _ (fatal _) => apply preserves_fatal
      | |- preserves _ (match ?x with _ => _ end) => destruct x
      | |- preserves _ (if ?c then _ else _) => destruct c
      | |- preserves _ _ => apply ctx_stride_kept; solve [pres]
      end ].

Ltac stride := repeat stride_step.

Lemma bind_arguments_stride f vargs : forall idx values,
  preserves stride_kept (bind_arguments f idx vargs values).
Proof. induction vargs as [|v vargs IH]; intros idx [|x values]; simpl; stride. Qed.

#[global] Hint Resolve bind_arguments_stride : stride.

Lemma CreateSerialFor_stride begin end_ stride lv (body : M unit) :
  preserves stride_kept body ->
  preserves stride_kept (CreateSerialFor begin end_ stride lv body).
Proof. intros Hb. unfold CreateSerialFor. stride. Qed.

(** A launch lowers its body in an environment of its own and puts the
    environment of the caller back. *)
Lemma CreateParallelLaunch_env (body : M unit) st n name (s s' : CodeGenCPU) :
  CreateParallelLaunch body st n name s = Ok tt s' -> parallel_env_ s' = parallel_env_ s.
Proof.
  unfold CreateParallelLaunch. intros H.
  bind_inv H. step_facts. frame_facts. exact eq_refl.
Qed.

Lemma CreateParallelLaunch_stride (body : M unit) st n name :
  preserves stride_kept (CreateParallelLaunch body st n name).
Proof.
  intros s [] s' H Hs. by rewrite (CreateParallelLaunch_env _ _ _ _ _ _ H).
Qed.

#[global] Hint Resolve CreateSerialFor_stride CreateParallelLaunch_stride : stride.

Lemma CreateStaticInit_stride (body : M unit) fname st :
  preserves stride_kept body ->
  preserves stride_kept (CreateStaticInit body fname st).
Proof. intros Hb. unfold CreateStaticInit. stride. Qed.

Lemma CreateComputeScope_stride (body : M unit) value st :
  preserves stride_kept body ->
  preserves stride_kept (CreateComputeScope body value st).
Proof. intros Hb. unfold CreateComputeScope. stride. Qed.

#[global] Hint Resolve CreateStaticInit_stride CreateComputeScope_stride : stride.

Lemma VisitStmt_AttrStmt_stride (body : M unit) key value st :
  preserves stride_kept body ->
  preserves stride_kept (VisitStmt_AttrStmt body key value st).
Proof. intros Hb. unfold VisitStmt_AttrStmt. stride. Qed.

Lemma VisitStmt_For_stride_kept (self body : M unit) lv mn ext kind st :
  preserves stride_kept body ->
  preserves stride_kept (VisitStmt_For self body lv mn ext kind st).
Proof. intros Hb. unfold VisitStmt_For. stride. Qed.

Lemma VisitStmt_stride_kept st : preserves stride_kept (VisitStmt st).
Proof.
  induction st as [lv mn ext kind body IH|key value body IH|seq IH|value] using Stmt_ind_seq.
  - cbn [VisitStmt]. by apply VisitStmt_For_stride_kept.
  - cbn [VisitStmt]. by apply VisitStmt_AttrStmt_stride.
  - cbn [VisitStmt]. induction seq as [|st seq IHseq].
    + apply preserves_ret. typeclasses eauto.
    + apply Forall_cons in IH as [IH1 IH2].
      apply preserves_bind; [typeclasses eauto | exact IH1 | intros _; by apply IHseq].
  - cbn [VisitStmt]. apply ctx_stride_kept. pres.
Qed.

Lemma stride_pragma_sets v body (s s' : CodeGenCPU) :
  VisitStmt (AttrStmt "pragma_parallel_stride_pattern" v body) s = Ok tt s' ->
  stride_pattern (parallel_env_ s') = true.
Proof.
  cbn [VisitStmt]. unfold VisitStmt_AttrStmt.
  change (String.eqb "pragma_parallel_stride_pattern" coproc_uop_scope) with false.
  change (String.eqb "pragma_parallel_stride_pattern" compute_scope) with false.
  change (IsPragmaKey "pragma_parallel_stride_pattern") with true.
  change (String.eqb "pragma_parallel_stride_pattern" "pragma_parallel_stride_pattern")
    with true.
  cbv iota. intros H. bind_inv H. step_facts.
  match goal with
  | Hb : VisitStmt body _ = Ok _ _ |- _ => apply VisitStmt_stride_kept in Hb; apply Hb
  end.
  subst s2. reflexivity.
Qed.

(** X12.  The stride pattern is never switched off inside a parallel
    environment.  Lowering a statement in an environment that has the pattern
    set leaves it set; and the pragma that requests it is not scoped to its
    body: in a sequence that starts with the pragma, the statements after it
    are lowered with the pattern set as well, and it is still set at the end
    of the sequence. *)
Theorem stride_pattern_sticky (st : Stmt) (s s' : CodeGenCPU) :
  VisitStmt st s = Ok tt s' ->
  (stride_pattern (parallel_env_ s) = true -> stride_pattern (parallel_env_ s') = true) /\
  (forall v body rest,
     st = SeqStmt (AttrStmt "pragma_parallel_stride_pattern" v body :: rest) ->
     exists s1,
       VisitStmt (AttrStmt "pragma_parallel_stride_pattern" v body) s = Ok tt s1 /\
       stride_pattern (parallel_env_ s1) = true /\
       VisitStmt (SeqStmt rest) s1 = Ok tt s' /\
       stride_pattern (parallel_env_ s') = true).
Proof.
  intros H. split; [exact (VisitStmt_stride_kept st _ _ _ H)|].
  intros v body rest ->.
  change (VisitStmt (SeqStmt (AttrStmt "pragma_parallel_stride_pattern" v body :: rest)))
    with (VisitStmt (AttrStmt "pragma_parallel_stride_pattern" v body);;
          VisitStmt (SeqStmt rest)) in H.
  apply bind_Ok in H as ([] & s1 & H1 & H2).
  exists s1. pose proof (stride_pragma_sets _ _ _ _ H1) as Hs1.
  split; [exact H1|]. split; [exact Hs1|]. split; [exact H2|].
  exact (VisitStmt_stride_kept _ _ _ _ H2 Hs1).
Qed.

Lemma stride_pattern_sticky_witness :
  stride_pattern (parallel_env_ demo_env_state) = false /\
  VisitStmt demo_stride_then_loop demo_env_state = Ok tt demo_stride_then_loop_state /\
  stride_pattern (parallel_env_ demo_stride_then_loop_state) = true.
Proof.
  assert (H : VisitStmt demo_stride_then_loop demo_env_state
              = Ok tt demo_stride_then_loop_state) by (vm_compute; reflexivity).
  split; [reflexivity|]. split; [exact H|].
  destruct (stride_pattern_sticky demo_stride_then_loop demo_env_state
              demo_stride_then_loop_state H) as [_ Hseq].
  destruct (Hseq _ _ _ eq_refl) as (s1 & _ & _ & _ & Hs). exact Hs.
Defined.

(** ** Stack storage at the function entry *)

Lemma WithFunctionEntry_CreateAlloca ty n entry s :
  getEntryBlock (function_ s) (blocks s) = Some entry ->
  WithFunctionEntry (CreateAlloca ty (ConstInt32 n)) s =
    Ok (InstResult (next_inst s) (llvmGetPointerTo ty)) (with_entry_alloca ty n entry s).
Proof.
  intros He. unfold WithFunctionEntry, GetInsertBlock.
  unfold mbind at 1, M_bind at 1, gets at 1.
  unfold mbind at 1, M_bind at 1, get at 1. rewrite He.
  unfold mbind, M_bind, modify, CreateAlloca, fresh_inst, emit, modify, SetInsertPoint, modify,
    mret, M_ret.
  unfold with_entry_alloca, set_next_inst, set_blocks, set_insert_pos, set_insert_block,
    insert_at.
  destruct s. cbn in *. reflexivity.
Qed.

(** X13.  Stack storage requested by [tvm_stack_alloca] is allocated at the
    entry of the current function, wherever the generator is emitting: for
    each of the four known kinds the call yields a pointer to a fresh
    allocation of the kind's element type with the requested constant count,
    emitted as the first instruction of the function's entry block, and the
    insertion point goes back to the end of the block that was current.  An
    unknown kind is a fatal error that names the kind, and so is a count
    that is not a constant. *)
Theorem stack_alloca_at_entry (dt tn : DataType) (type : string) (n : Z) (s : CodeGenCPU)
    (entry : nat) :
  getEntryBlock (function_ s) (blocks s) = Some entry ->
  (forall ty, (type, ty) ∈ stack_alloca_types ->
     MakeValue (CallE dt tvm_stack_alloca [StringImm type; IntImm tn n]) s =
       Ok (InstResult (next_inst s) (llvmGetPointerTo ty)) (with_entry_alloca ty n entry s)) /\
  ((forall ty, (type, ty) ∉ stack_alloca_types) ->
     MakeValue (CallE dt tvm_stack_alloca [StringImm type; IntImm tn n]) s =
       Fatal ("Unknown stack alloca type " +:+ type)) /\
  (forall count, (forall t v, count <> IntImm t v) ->
     MakeValue (CallE dt tvm_stack_alloca [StringImm type; count]) s =
       Fatal "require stack alloca to contain constant value").
Proof.
  intros He.
  assert (Hrun : forall count,
            MakeValue (CallE dt tvm_stack_alloca [StringImm type; count]) s =
            WithFunctionEntry (
              pval ← match count with
                     | IntImm _ v => mret v
                     | _ => fatal "require stack alloca to contain constant value"
                     end;
              let num := ConstInt32 pval in
              if String.eqb type "shape" then CreateAlloca t_tvm_shape_index_ num
              else if String.eqb type "tvm_ffi_any" then CreateAlloca t_tvm_ffi_any_ num
              else if String.eqb type "array" then CreateAlloca t_tvm_array_ num
              else if String.eqb type "tensormap" then CreateAlloca t_tvm_tensormap_ num
              else fatal ("Unknown stack alloca type " +:+ type)) s).
  { intros count. reflexivity. }
  split; [|split].
  - intros ty Hin. rewrite Hrun.
    unfold stack_alloca_types in Hin.
    repeat (apply elem_of_cons in Hin as [[= -> ->]|Hin]);
      [| | | | by apply elem_of_nil in Hin];
      exact (WithFunctionEntry_CreateAlloca _ n entry s He).
  - intros Hout. rewrite Hrun.
    assert (Hne : forall k ty, (k, ty) ∈ stack_alloca_types -> String.eqb type k = false).
    { intros k ty Hin. apply String.eqb_neq. intros ->. by apply (Hout ty). }
    rewrite (Hne "shape" t_tvm_shape_index_), (Hne "tvm_ffi_any" t_tvm_ffi_any_),
      (Hne "array" t_tvm_array_), (Hne "tensormap" t_tvm_tensormap_)
      by (unfold stack_alloca_types; set_solver).
    unfold WithFunctionEntry, GetInsertBlock.
    unfold mbind at 1, M_bind at 1, gets at 1.
    unfold mbind at 1, M_bind at 1, get at 1. rewrite He. reflexivity.
  - intros count Hc. rewrite Hrun.
    unfold WithFunctionEntry, GetInsertBlock.
    unfold mbind at 1, M_bind at 1, gets at 1.
    unfold mbind at 1, M_bind at 1, get at 1. rewrite He.
    destruct count; try reflexivity. by destruct (Hc dtype value).
Qed.

Lemma stack_alloca_at_entry_witness :
  exists entry,
    getEntryBlock (function_ demo_state) (blocks demo_state) = Some entry /\
    MakeValue (CallE Handle tvm_stack_alloca [StringImm "array"; IntImm (Int 32) 2]) demo_state =
      Ok (InstResult (next_inst demo_state) (llvmGetPointerTo t_tvm_array_))
         (with_entry_alloca t_tvm_array_ 2 entry demo_state).
Proof.
  exists (insert_block demo_state).
  assert (He : getEntryBlock (function_ demo_state) (blocks demo_state)
               = Some (insert_block demo_state)) by (vm_compute; reflexivity).
  split; [exact He|].
  destruct (stack_alloca_at_entry Handle (Int 32) "array" 2 demo_state
              (insert_block demo_state) He) as [H _].
  apply H. unfold stack_alloca_types. do 2 constructor 2. constructor 1.
Defined.

(** ** Declarations of C packed functions *)

#[global] Instance functions_kept_preorder : PreOrder functions_kept.
Proof.
  split.
  - intros s. reflexivity.
  - intros s1 s2 s3 H12 H23. unfold functions_kept in *. congruence.
Qed.

Create HintDb fkept discriminated.

Lemma fresh_inst_fkept : preserves functions_kept fresh_inst.
Proof. by intros s a s' [= <- <-]. Qed.

Lemma BasicBlock_Create_fkept name f : preserves functions_kept (BasicBlock_Create name f).
Proof. by intros s a s' [= <- <-]. Qed.

Lemma emit_fkept i : preserves functions_kept (emit i).
Proof.
  apply preserves_modify. intros s. unfold functions_kept. by destruct (insert_pos s).
Qed.

#[global] Hint Resolve fresh_inst_fkept BasicBlock_Create_fkept emit_fkept : fkept.

Ltac fkept_step :=
  first
    [ assumption
    | solve [auto with fkept nocore]
    | progress cbv zeta
    | match goal with
      | |- preserves _ (_ ≫= _) => apply preserves_bind; [typeclasses eauto | | intros ?]
      | |- preserves _ (mret _) => apply preserves_ret; typeclasses eauto
      | |- preserves _ (fatal _) => apply preserves_fatal
      | |- preserves _ (gets _) => apply preserves_gets; typeclasses eauto
      | |- preserves _ get => apply preserves_get; typeclasses eauto
      | |- preserves _ (ICHECK _ _) => apply preserves_ICHECK; typeclasses eauto
      | |- preserves _ (modify _) => apply preserves_modify; intros ?; exact eq_refl
      | |- preserves _ (match ?x with _ => _ end) => destruct x
      | |- preserves _ (if ?c then _ else _) => destruct c
      end ].

Ltac fkept := repeat fkept_step.

Lemma CreateCall_fkept fty callee args : preserves functions_kept (CreateCall fty callee args).
Proof. unfold CreateCall. fkept. Qed.

Lemma CreateLoad_fkept ty addr : preserves functions_kept (CreateLoad ty addr).
Proof. unfold CreateLoad. fkept. Qed.

Lemma CheckCallSuccess_fkept retcode : preserves functions_kept (CheckCallSuccess retcode).
Proof.
  unfold CheckCallSuccess, CreateCondBr, CreateRet, SetInsertPoint. fkept.
Qed.

Lemma GetVarValue_fkept v : preserves functions_kept (GetVarValue v).
Proof. unfold GetVarValue. fkept. Qed.

#[global] Hint Resolve CreateCall_fkept CreateLoad_fkept CheckCallSuccess_fkept
  GetVarValue_fkept : fkept.

Ltac fkept_facts :=
  repeat match goal with
  | H : mret _ _ = Ok _ _ |- _ => unfold mret, M_ret in H; injection H as <- <-
  | H : gets _ _ = Ok _ _ |- _ => unfold gets in H; injection H as <- <-
  | H : fatal _ _ = Ok _ _ |- _ => discriminate H
  | H : ICHECK ?c _ _ = Ok _ _ |- _ =>
      let E := fresh "E" in
      destruct c eqn:E;
        [unfold ICHECK, mret, M_ret in H; injection H as <- <- | discriminate H]
  | H : ?m ?s = Ok _ ?s' |- _ =>
      let F := fresh "F" in
      assert (F : functions_kept s s')
        by (apply (fun p : preserves functions_kept m => p _ _ _ H); fkept);
      clear H
  end.

Lemma getFunction_declared name fty l (fs : list Function) (s : CodeGenCPU) :
  functions s = fs ++ [mkFunction name fty l] -> is_Some (getFunction name s).
Proof.
  intros Hf. unfold getFunction. rewrite Hf.
  destruct (list_find_elem_of (fun f => fn_name f = name) (fs ++ [mkFunction name fty l])
              (mkFunction name fty l)) as [[i f] Hfind].
  - apply elem_of_app. right. constructor.
  - reflexivity.
  - rewrite Hfind. by eexists.
Qed.

Lemma cpacked_call_functions name sv dt tb te b e (s s' : CodeGenCPU) (v : Value) :
  MakeValue (CallE dt tvm_call_cpacked_lowered
               [StringImm name; VarE sv; IntImm tb b; IntImm te e]) s = Ok v s' ->
  match getFunction name s with
  | Some _ => functions s' = functions s
  | None => functions s' = functions s ++ [mkFunction name ftype_tvm_ffi_c_func_ ExternalLinkage]
  end.
Proof.
  cbn [MakeValue]. unfold CreateIntrinsic, CreateCallPacked, MakeCallPackedLowered.
  intros H. bind_inv H.
  repeat match goal with
         | H : (_ ≫= _) _ = Ok _ _ |- _ => bind_inv H
         end.
  all: cbn in H0, H1, H2, H4, H6.
  all: fkept_facts.
  all: match goal with
       | H : match ?x with _ => _ end _ = Ok _ _ |- _ => destruct x eqn:Hx
       end.
  all: fkept_facts.
  all: try (match goal with
            | H : Function_Create _ _ _ _ = Ok _ _ |- _ =>
                unfold Function_Create in H; injection H as <- <-
            end).
  all: fkept_facts.
  all: unfold functions_kept in *; cbn [functions set_functions] in *.
  all: unfold getFunction in *.
  all: match goal with
       | F : functions ?x = functions ?y, Hx : context [list_find _ (functions ?x)] |- _ =>
           rewrite F in Hx; rewrite ?F in *
       end.
  all: rewrite Hx; congruence.
Qed.

(** X14.  A C packed function is declared at most once.  A
    [tvm_call_cpacked_lowered] of a name the module has no function for adds
    exactly one function: an external declaration of that name with the type
    of C packed functions; when the module already has a function of that
    name the call adds none.  After the call the name is known, so every
    later call of the same name reuses the declaration. *)
Theorem cpacked_callee_declared_once (name : string) (sv : Var) (dt tb te : DataType)
    (b e : Z) (s s' : CodeGenCPU) (v : Value) :
  MakeValue (CallE dt tvm_call_cpacked_lowered
               [StringImm name; VarE sv; IntImm tb b; IntImm te e]) s = Ok v s' ->
  match getFunction name s with
  | Some _ => functions s' = functions s
  | None => functions s' = functions s ++ [mkFunction name ftype_tvm_ffi_c_func_ ExternalLinkage]
  end /\
  is_Some (getFunction name s') /\
  (forall sv2 dt2 tb2 te2 b2 e2 v2 s2,
     MakeValue (CallE dt2 tvm_call_cpacked_lowered
                  [StringImm name; VarE sv2; IntImm tb2 b2; IntImm te2 e2]) s' = Ok v2 s2 ->
     functions s2 = functions s').
Proof.
  intros H. pose proof (cpacked_call_functions _ _ _ _ _ _ _ _ _ _ H) as Hf.
  assert (Hs : is_Some (getFunction name s')).
  { destruct (getFunction name s) as [f|] eqn:Hg.
    - unfold getFunction in *. rewrite Hf, Hg. by eexists.
    - by eapply getFunction_declared. }
  split; [exact Hf|]. split; [exact Hs|].
  intros sv2 dt2 tb2 te2 b2 e2 v2 s2 H2.
  pose proof (cpacked_call_functions _ _ _ _ _ _ _ _ _ _ H2) as Hf2.
  destruct Hs as [f Hs]. by rewrite Hs in Hf2.
Qed.

Lemma cpacked_callee_declared_once_witness :
  functions demo_cpacked_once =
    functions demo_any_state ++ [mkFunction "f" ftype_tvm_ffi_c_func_ ExternalLinkage] /\
  functions demo_cpacked_twice = functions demo_cpacked_once.
Proof.
  assert (H1 : exists v, MakeValue demo_cpacked_call demo_any_state = Ok v demo_cpacked_once)
    by (eexists; vm_compute; reflexivity).
  assert (H2 : exists v, MakeValue demo_cpacked_call demo_cpacked_once
                         = Ok v demo_cpacked_twice)
    by (eexists; vm_compute; reflexivity).
  destruct H1 as [v1 H1]. destruct H2 as [v2 H2].
  destruct (cpacked_callee_declared_once _ _ _ _ _ _ _ _ _ _ H1) as (Hf & _ & Hnext).
  split.
  - exact Hf.
  - exact (Hnext _ _ _ _ _ _ _ _ H2).
Defined.

(** ** The cell of a resolved name persists *)

Lemma GetPackedFuncHandle_cell fname (s s' : CodeGenCPU) (v : Value) :
  GetPackedFuncHandle fname s = Ok v s' -> is_Some (func_handle_map_ s' !! fname).
Proof.
  intros H. apply GetPackedFuncHandle_emits in H as [_ H].
  destruct (func_handle_map_ s !! fname) as [h|] eqn:Hc.
  - destruct H as [_ ->]. rewrite Hc. by eexists.
  - destruct H as [_ ->]. rewrite lookup_insert_eq. by eexists.
Qed.

(** X15.  The cell of a resolved function name survives whatever is lowered
    afterwards.  When a name has been resolved, any statement is lowered, and
    the name is resolved again, the second resolution finds the cell the
    first one left: the cache maps the name to the same global variable
    throughout, and the second resolution adds no global variable. *)
Theorem handle_cell_persists (fname : string) (st : Stmt) (s0 s1 s2 s3 : CodeGenCPU)
    (v1 v2 : Value) :
  GetPackedFuncHandle fname s0 = Ok v1 s1 ->
  VisitStmt st s1 = Ok tt s2 ->
  GetPackedFuncHandle fname s2 = Ok v2 s3 ->
  exists cell,
    func_handle_map_ s1 !! fname = Some cell /\
    func_handle_map_ s2 !! fname = Some cell /\
    func_handle_map_ s3 !! fname = Some cell /\
    globals s3 = globals s2.
Proof.
  intros H1 Hst H2.
  destruct (GetPackedFuncHandle_cell _ _ _ _ H1) as [cell Hc1].
  pose proof (VisitStmt_grows st _ _ _ Hst) as (_ & _ & _ & _ & Hsub).
  assert (Hc2 : func_handle_map_ s2 !! fname = Some cell)
    by (eapply lookup_weaken; [exact Hc1 | exact Hsub]).
  apply GetPackedFuncHandle_emits in H2 as [_ H2]. rewrite Hc2 in H2.
  destruct H2 as [Hg Hm].
  exists cell. split; [exact Hc1|]. split; [exact Hc2|]. split; [|exact Hg].
  rewrite Hm. exact Hc2.
Qed.

Lemma handle_cell_persists_witness :
  globals demo_handle_second = globals demo_handle_launched /\
  func_handle_map_ demo_handle_second !! "f" = func_handle_map_ demo_handle_first !! "f".
Proof.
  assert (H1 : exists v, GetPackedFuncHandle "f" demo_any_state = Ok v demo_handle_first)
    by (eexists; vm_compute; reflexivity).
  assert (H2 : VisitStmt demo_launch demo_handle_first = Ok tt demo_handle_launched)
    by (vm_compute; reflexivity).
  assert (H3 : exists v, GetPackedFuncHandle "f" demo_handle_launched
                         = Ok v demo_handle_second)
    by (eexists; vm_compute; reflexivity).
  destruct H1 as [v1 H1]. destruct H3 as [v3 H3].
  destruct (handle_cell_persists "f" demo_launch demo_any_state demo_handle_first
              demo_handle_launched demo_handle_second v1 v3 H1 H2 H3)
    as (cell & Hc1 & _ & Hc3 & Hg).
  split; [exact Hg|]. rewrite Hc1, Hc3. reflexivity.
Defined.

(** ** A parallel loop is counted once *)

#[global] Instance loop_body_kept_preorder : PreOrder loop_body_kept.
Proof.
  split.
  - intros s H. by split.
  - intros s1 s2 s3 H12 H23 H. destruct (H12 H) as [H2 E2]. destruct (H23 H2) as [H3 E3].
    split; [exact H3 | congruence].
Qed.

Lemma ctx_loop_body_kept {A} (m : M A) :
  preserves same_context m -> preserves loop_body_kept m.
Proof.
  apply preserves_weaken. intros s s' Hc H.
  split; [by apply (in_loop_context s s') | destruct Hc as (_ & -> & _); reflexivity].
Qed.

Create HintDb inloop discriminated.

Ltac inloop_step :=
  first
    [ assumption
    | solve [auto with inloop nocore]
    | progress cbv zeta
    | match goal with
      | |- preserves _ (_ ≫= _) => apply preserves_bind; [typeclasses eauto | | intros ?]
      | |- preserves _ (modify _) =>
          apply preserves_modify; intros ? H; split; [exact H | exact eq_refl]
      | |- preserves _ (fatal _) => apply preserves_fatal
      | |- preserves _ (match ?x with _ => _ end) => destruct x
      | |- preserves _ (if ?c then _ else _) => destruct c
      | |- preserves _ _ => apply ctx_loop_body_kept; solve [pres]
      end ].

Ltac inloop := repeat inloop_step.

Lemma bind_arguments_inloop f vargs : forall idx values,
  preserves loop_body_kept (bind_arguments f idx vargs values).
Proof. induction vargs as [|v vargs IH]; intros idx [|x values]; simpl; inloop. Qed.

Lemma CreateSerialFor_inloop begin end_ stride lv (body : M unit) :
  preserves loop_body_kept body ->
  preserves loop_body_kept (CreateSerialFor begin end_ stride lv body).
Proof. intros Hb. unfold CreateSerialFor. inloop. Qed.

Lemma CreateParallelLaunch_inloop (body : M unit) st n name :
  preserves loop_body_kept (CreateParallelLaunch body st n name).
Proof.
  intros s [] s' H Hs. pose proof (CreateParallelLaunch_env _ _ _ _ _ _ H) as He.
  unfold in_loop in *. rewrite He. by split.
Qed.

#[global] Hint Resolve bind_arguments_inloop CreateSerialFor_inloop
  CreateParallelLaunch_inloop : inloop.

Lemma CreateStaticInit_inloop (body : M unit) fname st :
  preserves loop_body_kept body ->
  preserves loop_body_kept (CreateStaticInit body fname st).
Proof. intros Hb. unfold CreateStaticInit. inloop. Qed.

Lemma CreateComputeScope_inloop (body : M unit) value st :
  preserves loop_body_kept body ->
  preserves loop_body_kept (CreateComputeScope body value st).
Proof. intros Hb. unfold CreateComputeScope. inloop. Qed.

#[global] Hint Resolve CreateStaticInit_inloop CreateComputeScope_inloop : inloop.

Lemma VisitStmt_AttrStmt_inloop (body : M unit) key value st :
  preserves loop_body_kept body ->
  preserves loop_body_kept (VisitStmt_AttrStmt body key value st).
Proof. intros Hb. unfold VisitStmt_AttrStmt. inloop. Qed.

Lemma VisitStmt_For_inloop (self body : M unit) lv mn ext kind st :
  preserves loop_body_kept body ->
  preserves loop_body_kept (VisitStmt_For self body lv mn ext kind st).
Proof.
  intros Hb. destruct kind; try solve [unfold VisitStmt_For; inloop].
  intros s [] s' H Hin. exfalso. exact (parallel_for_in_loop _ _ _ _ _ _ _ _ Hin H).
Qed.

Lemma VisitStmt_inloop st : preserves loop_body_kept (VisitStmt st).
Proof.
  induction st as [lv mn ext kind body IH|key value body IH|seq IH|value] using Stmt_ind_seq.
  - cbn [VisitStmt]. by apply VisitStmt_For_inloop.
  - cbn [VisitStmt]. by apply VisitStmt_AttrStmt_inloop.
  - cbn [VisitStmt]. induction seq as [|st seq IHseq].
    + apply preserves_ret. typeclasses eauto.
    + apply Forall_cons in IH as [IH1 IH2].
      apply preserves_bind; [typeclasses eauto | exact IH1 | intros _; by apply IHseq].
  - cbn [VisitStmt]. apply ctx_loop_body_kept. pres.
Qed.

#[global] Hint Resolve VisitStmt_inloop : inloop.

(** X16.  A parallel loop is counted exactly once.  In a parallel
    environment, lowering a parallel loop adds exactly one to the
    environment's count of parallel loops, whatever its body contains (loops
    of launches nested in the body are counted in the environments of those
    launches), and leaves the environment marked as outside a parallel
    loop. *)
Theorem parallel_for_counted_once (lv : Var) (mn ext : PrimExpr) (body : Stmt)
    (s s' : CodeGenCPU) :
  isSome (penv (parallel_env_ s)) = true ->
  VisitStmt (For lv mn ext kParallel body) s = Ok tt s' ->
  parallel_loop_count (parallel_env_ s') = parallel_loop_count (parallel_env_ s) + 1 /\
  in_parallel_loop (parallel_env_ s') = false.
Proof.
  intros Hp. cbn [VisitStmt]. unfold VisitStmt_For. intros H.
  bind_inv H.
  all: repeat match goal with
       | H : gets _ _ = Ok _ _ |- _ => unfold gets in H; injection H as <- <-
       | H : fatal _ _ = Ok _ _ |- _ => discriminate H
       | H : ICHECK ?c _ _ = Ok _ _ |- _ =>
           let E := fresh "E" in
           destruct c eqn:E;
             [unfold ICHECK, mret, M_ret in H; injection H as _ <- | discriminate H]
       | H : modify _ _ = Ok _ _ |- _ => unfold modify in H; injection H as _ <-
       end.
  all: try (match goal with
            | E : penv (parallel_env_ _) = None, Hp : isSome _ = true |- _ =>
                rewrite E in Hp; discriminate Hp
            end).
  match goal with
  | H : (if stride_pattern _ then _ else _) ?sa = Ok _ ?sb |- _ =>
      assert (Hbody : loop_body_kept sa sb)
        by (apply (fun p : preserves loop_body_kept _ => p _ _ _ H); inloop);
      clear H
  end.
  destruct Hbody as [_ Hc]; [split; [reflexivity | exact Hp]|].
  unfold modify in H. injection H as <-.
  split; [|reflexivity].
  cbn [parallel_env_ set_parallel_env_ incr_parallel_loop_count set_in_parallel_loop
       parallel_loop_count] in *.
  rewrite Hc. reflexivity.
Qed.

Lemma parallel_for_counted_once_witness :
  VisitStmt demo_outer_parallel_for demo_env_state = Ok tt demo_outer_parallel_state /\
  parallel_loop_count (parallel_env_ demo_outer_parallel_state) = 2 /\
  in_parallel_loop (parallel_env_ demo_outer_parallel_state) = false.
Proof.
  assert (H : VisitStmt demo_outer_parallel_for demo_env_state
              = Ok tt demo_outer_parallel_state) by (vm_compute; reflexivity).
  split; [exact H|].
  destruct (parallel_for_counted_once _ _ _ _ demo_env_state demo_outer_parallel_state
              eq_refl H) as [Hc Hi].
  split; [rewrite Hc; reflexivity | exact Hi].
Defined.

(** ** The block partition: the loop of a task *)

Lemma VisitStmt_For_block (vself vbody : M unit) (lv : Var) (t0 : DataType) (extent : PrimExpr)
    (body : Stmt) (s : CodeGenCPU) (p : Value) (tvar nvar : Var) (bv ev : Value) :
  penv (parallel_env_ s) = Some p ->
  task_id (parallel_env_ s) = Some tvar -> num_task (parallel_env_ s) = Some nvar ->
  in_parallel_loop (parallel_env_ s) = false -> stride_pattern (parallel_env_ s) = false ->
  let s1 := set_parallel_env_ (set_in_parallel_loop true (parallel_env_ s)) s in
  let task_id := cast (dtype_of extent) (VarE tvar) in
  let num_task := cast (dtype_of extent) (VarE nvar) in
  MakeValue (block_begin extent task_id num_task) s1 = Ok bv s1 ->
  MakeValue (block_end extent task_id num_task) s1 = Ok ev s1 ->
  VisitStmt_For vself vbody lv (IntImm t0 0) extent kParallel body s =
    (CreateSerialFor bv ev
       (ConstantInt (GetLLVMType (block_end extent task_id num_task)) 1) lv vbody;;
     modify (fun s => set_parallel_env_ (set_in_parallel_loop false (parallel_env_ s)) s);;
     modify (fun s => set_parallel_env_ (incr_parallel_loop_count (parallel_env_ s)) s)) s1.
Proof.
  intros Hp Ht Hn Hin Hsp s1 task_id num_task Hb He.
  unfold VisitStmt_For. cbn [is_zero]. change (0 =? 0) with true.
  unfold mbind at 1, M_bind at 1, ICHECK at 1.
  unfold mbind at 1, M_bind at 1, gets at 1.
  cbn [mret M_ret]. rewrite Hp, Ht, Hn, Hin, Hsp. cbn [negb].
  unfold mbind at 1, M_bind at 1, ICHECK at 1.
  unfold mbind at 1, M_bind at 1, modify at 1.
  unfold mbind at 1, M_bind at 1. cbn [mret M_ret]. fold s1.
  cbv zeta. fold task_id num_task.
  rewrite (bind_step _ _ _ _ _ Hb), (bind_step _ _ _ _ _ He).
  rewrite (bind_unfold (CreateSerialFor bv ev _ lv vbody)).
  match goal with |- ?x = ?x => exact eq_refl end.
Qed.

Lemma block_bounds (m : Machine) (extent : PrimExpr) (tvar nvar : Var) (ev tv nv : Value)
    (w e ti ni : Z) :
  1 <= w -> dtype_of extent = Int w -> getType ev = TInt w -> eval_value m ev = Some (RInt e) ->
  vdtype tvar = Int 32 -> getType tv = TInt 32 -> eval_value m tv = Some (RInt ti) ->
  vdtype nvar = Int 32 -> getType nv = TInt 32 -> eval_value m nv = Some (RInt ni) ->
  let E := signed_ w e in
  let T := signed_ 32 ti in
  let N := signed_ 32 ni in
  0 < E -> 0 < N -> 0 <= T < N -> E + N - 1 < 2 ^ (w - 1) ->
  let step := (E + N - 1) / N in
  let task_id := cast (Int w) (VarE tvar) in
  let num_task := cast (Int w) (VarE nvar) in
  exists bv endv,
    cval w m bv (Z.min (T * step) E) /\ cval w m endv (Z.min ((T + 1) * step) E) /\
    forall st, var_map_ st !! vnode tvar = Some tv -> var_map_ st !! vnode nvar = Some nv ->
               MakeValue extent st = Ok ev st ->
      MakeValue (block_begin extent task_id num_task) st = Ok bv st /\
      MakeValue (block_end extent task_id num_task) st = Ok endv st.
Proof.
  intros Hw Hdt Hety Heev Htd Htty Htev Hnd Hnty Hnev E T N HE HN HT Hfit step task_id num_task.
  pose proof (Z.mul_div_le (E + N - 1) N HN) as Hs1.
  pose proof (Z.mul_succ_div_gt (E + N - 1) N HN) as Hs2.
  assert (Hs0 : 0 < step) by (apply Z.div_str_pos; lia).
  fold step in Hs1, Hs2.
  assert (Hp : 0 < 2 ^ (w - 1)) by (apply Z.pow_pos_nonneg; lia).
  destruct (cast_var_all w m tvar tv ti T Hw Htd Htty Htev eq_refl) as (ct & Hctt & Hcv & Hct).
  destruct (cast_var_all w m nvar nv ni N Hw Hnd Hnty Hnev eq_refl) as (cn & Hcnt & Hcnv & Hcn).
  pose proof (cval_of_signed w m ev e E Heev eq_refl) as Hce.
  set (sv := BinOp OpSDiv (BinOp OpSub (BinOp OpAdd ev cn) (ConstantInt (TInt w) 1)) cn).
  assert (Hcs : cval w m sv step).
  { unfold step. rewrite <- Z.quot_div_nonneg by lia.
    apply cval_sdiv; try done; try (unfold in_range; lia).
    apply cval_sub; [done | | apply cval_const].
    by apply cval_add. }
  set (t1 := BinOp OpAdd ct (ConstantInt (TInt w) 1)).
  exists (Select (ICmp ICMP_SLT (BinOp OpMul ct sv) ev) (BinOp OpMul ct sv) ev),
         (Select (ICmp ICMP_SLT (BinOp OpMul t1 sv) ev) (BinOp OpMul t1 sv) ev).
  assert (Hb : 0 <= T * step <= E + N - 1) by nia.
  assert (Hb1 : 0 <= (T + 1) * step <= E + N - 1) by nia.
  split_and!.
  - apply cval_min; try done; try (unfold in_range; lia). by apply cval_mul.
  - apply cval_min; try done; try (unfold in_range; lia).
    apply cval_mul; [done | | done]. apply cval_add; [done | done | apply cval_const].
  - intros st Htv Hnv Hext.
    assert (Hsv : MakeValue (block_step extent num_task) st = Ok sv st).
    { unfold block_step, make_const. rewrite Hdt.
      apply MakeValue_Div; [|by apply Hcn].
      apply MakeValue_Sub; [|reflexivity].
      apply MakeValue_Add; [exact Hext | by apply Hcn]. }
    split.
    + unfold block_begin, min_.
      exact (MakeValue_Min _ _ _ _ _ (MakeValue_Mul _ _ _ _ _ (Hct st Htv) Hsv) Hext).
    + unfold block_end, min_, make_const. rewrite Hdt.
      assert (Ht1 : MakeValue (Add task_id (IntImm (Int w) 1)) st = Ok t1 st)
        by (apply MakeValue_Add; [by apply Hct | reflexivity]).
      exact (MakeValue_Min _ _ _ _ _ (MakeValue_Mul _ _ _ _ _ Ht1 Hsv) Hext).
Qed.

Lemma dtype_of_block_end (w : Z) (extent : PrimExpr) (tvar nvar : Var) :
  vdtype tvar = Int 32 ->
  dtype_of (block_end extent (cast (Int w) (VarE tvar)) (cast (Int w) (VarE nvar))) = Int w.
Proof. intros Htd. unfold block_end, min_. cbn [dtype_of]. by apply dtype_of_cast_var. Qed.

Lemma cval_signed_value (w : Z) m v z :
  1 <= w -> in_range w z -> cval w m v z ->
  exists r, eval_value m v = Some (RInt r) /\ signed_ w r = z /\ r mod 2 ^ w = z mod 2 ^ w.
Proof.
  intros Hw Hz (r & Hr & Hm). exists r. split; [exact Hr|]. split; [|exact Hm].
  rewrite (signed_mod _ _ _ Hm). by apply signed_in_range.
Qed.

(** C1 (amended).  Under the block partition (a parallel loop met inside a
    parallel launch that did not request the stride pattern), when
    [extent > 0], [num_task > 0] and [extent + num_task - 1] is representable
    in the signed integer type of the extent, the lowering of the loop is the
    serial loop [CreateSerialFor begin end 1] whose two bounds are the values
    of the expressions [min(task_id * step, extent)] and
    [min((task_id + 1) * step, extent)] with
    [step = (extent + num_task - 1) / num_task]; at run time they are
    [min(t*step, extent)] and [min((t+1)*step, extent)] with
    [step = ceil(extent / num_task)], and the loop of task [t] visits exactly
    the indices of that half-open range.  The ranges of tasks
    [0..num_task-1] start at 0, end at the extent, are sorted and contiguous,
    pairwise disjoint, and their sizes sum to the extent. *)
Theorem block_partition_ranges (s : CodeGenCPU) (m : Machine) (extent : PrimExpr)
    (tvar nvar lv : Var) (t0 : DataType) (body : Stmt) (vself vbody : M unit)
    (p ev tv nv : Value) (w e ti ni : Z) :
  1 <= w -> dtype_of extent = Int w ->
  (forall st, var_map_ st = var_map_ s -> MakeValue extent st = Ok ev st) ->
  getType ev = TInt w -> eval_value m ev = Some (RInt e) ->
  vdtype tvar = Int 32 -> var_map_ s !! vnode tvar = Some tv ->
  getType tv = TInt 32 -> eval_value m tv = Some (RInt ti) ->
  vdtype nvar = Int 32 -> var_map_ s !! vnode nvar = Some nv ->
  getType nv = TInt 32 -> eval_value m nv = Some (RInt ni) ->
  penv (parallel_env_ s) = Some p ->
  task_id (parallel_env_ s) = Some tvar -> num_task (parallel_env_ s) = Some nvar ->
  in_parallel_loop (parallel_env_ s) = false -> stride_pattern (parallel_env_ s) = false ->
  let E := signed_ w e in
  let T := signed_ 32 ti in
  let N := signed_ 32 ni in
  0 < E -> 0 < N -> 0 <= T < N -> E + N - 1 < 2 ^ (w - 1) ->
  let step := ceil_div E N in
  let lo t := Z.min (t * step) E in
  let hi t := Z.min ((t + 1) * step) E in
  (exists bv endv,
     MakeValue (block_begin extent (cast (Int w) (VarE tvar)) (cast (Int w) (VarE nvar))) s
       = Ok bv s /\
     MakeValue (block_end extent (cast (Int w) (VarE tvar)) (cast (Int w) (VarE nvar))) s
       = Ok endv s /\
     (exists rb, eval_value m bv = Some (RInt rb) /\ signed_ w rb = lo T) /\
     (exists re, eval_value m endv = Some (RInt re) /\ signed_ w re = hi T) /\
     VisitStmt_For vself vbody lv (IntImm t0 0) extent kParallel body s =
       (CreateSerialFor bv endv (ConstantInt (TInt w) 1) lv vbody;;
        modify (fun s => set_parallel_env_ (set_in_parallel_loop false (parallel_env_ s)) s);;
        modify (fun s => set_parallel_env_ (incr_parallel_loop_count (parallel_env_ s)) s))
         (set_parallel_env_ (set_in_parallel_loop true (parallel_env_ s)) s)) /\
  block_range s m extent tvar nvar = Some (lo T, hi T) /\
  (exists fuel,
     block_loop_run fuel s m extent tvar nvar = Some (stride_indices (lo T) 1 (hi T), true)) /\
  (forall i, i ∈ stride_indices (lo T) 1 (hi T) <-> lo T <= i < hi T) /\
  lo 0 = 0 /\ hi (N - 1) = E /\
  (forall t, 0 <= t < N -> 0 <= lo t <= hi t /\ hi t <= E) /\
  (forall t, 0 <= t < N - 1 -> hi t = lo (t + 1)) /\
  (forall t u, 0 <= t -> t < u -> u < N -> forall i, ~ (lo t <= i < hi t /\ lo u <= i < hi u)) /\
  range_sizes lo hi (Z.to_nat N) = E.
Proof.
  intros Hw Hdt Hext Hety Heev Htd Htv Htty Htev Hnd Hnv Hnty Hnev Hp Ht Hn Hin Hsp E T N
         HE HN HT Hfit step lo hi.
  assert (Hstep : step = (E + N - 1) / N) by (apply ceil_div_add; exact HN).
  pose proof (Z.mul_div_le (E + N - 1) N HN) as Hs1.
  pose proof (Z.mul_succ_div_gt (E + N - 1) N HN) as Hs2.
  assert (Hs0 : 0 < step) by (rewrite Hstep; apply Z.div_str_pos; lia).
  rewrite <- Hstep in Hs1, Hs2.
  assert (Hpw : 0 < 2 ^ (w - 1)) by (apply Z.pow_pos_nonneg; lia).
  assert (Hlo : 0 <= lo T <= hi T /\ hi T <= E).
  { unfold lo, hi. split; [|lia]. split; [nia|]. apply Z.min_le_compat_r. nia. }
  destruct (block_bounds m extent tvar nvar ev tv nv w e ti ni Hw Hdt Hety Heev Htd Htty Htev
              Hnd Hnty Hnev HE HN HT Hfit) as (bv & endv & Hcb & Hce & Hmk).
  fold E T N in Hcb, Hce. rewrite <- Hstep in Hcb, Hce. fold (lo T) (hi T) in Hcb, Hce.
  destruct (Hmk s Htv Hnv (Hext s eq_refl)) as [Hmb Hme].
  destruct (cval_signed_value w m bv (lo T) Hw ltac:(unfold in_range; lia) Hcb)
    as (rb & Hrb & Hsb & Hmodb).
  destruct (cval_signed_value w m endv (hi T) Hw ltac:(unfold in_range; lia) Hce)
    as (re & Hre & Hse & Hmode).
  split_and!.
  - exists bv, endv. split; [exact Hmb|]. split; [exact Hme|].
    split; [by exists rb|]. split; [by exists re|].
    set (s1 := set_parallel_env_ (set_in_parallel_loop true (parallel_env_ s)) s).
    destruct (Hmk s1 Htv Hnv (Hext s1 eq_refl)) as [Hmb1 Hme1].
    pose proof (VisitStmt_For_block vself vbody lv t0 extent body s p tvar nvar bv endv
                  Hp Ht Hn Hin Hsp) as Hfor.
    cbv zeta in Hfor. rewrite Hdt in Hfor. specialize (Hfor Hmb1 Hme1).
    unfold GetLLVMType in Hfor. rewrite (dtype_of_block_end w extent tvar nvar Htd) in Hfor.
    exact Hfor.
  - unfold block_range, run_expr. rewrite Hdt, Hmb, Hme, Hrb, Hre. cbn [mbind option_bind].
    unfold block_begin at 1, min_ at 1. cbn [dtype_of].
    rewrite (dtype_of_block_end w extent tvar nvar Htd), (dtype_of_cast_var w tvar Htd).
    cbn [bits Int]. by rewrite Hsb, Hse.
  - exists (S (Z.to_nat (ceil_div (hi T - lo T) 1))).
    unfold block_loop_run. rewrite Hdt, Hmb, Hme, Hrb, Hre.
    unfold GetLLVMType. rewrite (dtype_of_block_end w extent tvar nvar Htd).
    cbn [eval_value DTypeToLLVMType int_width bits Int]. f_equal.
    unfold stride_indices.
    change (int_width (DTypeToLLVMType (Int w))) with w.
    rewrite (serial_for_run_stride w 1 (hi T) re (unsigned_ w 1) Hw ltac:(lia) Hse
               ltac:(unfold unsigned_; apply Zmod_mod) ltac:(lia)
               (Z.to_nat (ceil_div (hi T - lo T) 1)) (lo T) rb ltac:(lia) Hmodb eq_refl).
    reflexivity.
  - intros i. rewrite stride_indices_spec by lia. split.
    + intros (Hi & k & Hk & ->). lia.
    + intros Hi. split; [lia|]. exists (i - lo T). lia.
  - unfold lo. lia.
  - unfold hi. replace (N - 1 + 1) with N by lia. lia.
  - intros t Ht'. unfold lo, hi. split; [|lia]. split; [nia|].
    apply Z.min_le_compat_r. nia.
  - reflexivity.
  - intros t u Ht' Htu Hu i [H1 H2]. unfold lo, hi in *.
    assert ((t + 1) * step <= u * step) by nia. lia.
  - rewrite range_sizes_telescope by (intros; reflexivity).
    rewrite Z2Nat.id by lia. unfold lo. lia.
Qed.

Lemma block_partition_ranges_witness :
  block_range demo_env_state (demo_machine 1 3) (IntImm (Int 32) 10) demo_task_id demo_num_task
    = Some (4, 8) /\
  exists fuel,
    block_loop_run fuel demo_env_state (demo_machine 1 3) (IntImm (Int 32) 10)
                   demo_task_id demo_num_task = Some ([4; 5; 6; 7], true).
Proof.
  destruct (block_partition_ranges demo_env_state (demo_machine 1 3) (IntImm (Int 32) 10)
              demo_task_id demo_num_task (mkVar (inr 7%nat) "i" (Int 32)) (Int 32) (SeqStmt [])
              (mret tt) (mret tt) (Argument 4 2 (llvmGetPointerTo t_tvm_parallel_group_env_))
              (ConstantInt (TInt 32) 10) (Argument 4 0 t_int_) (Argument 4 1 t_int_)
              32 10 1 3) as (_ & H & Hrun & _);
    [lia | reflexivity | intros st _; reflexivity | reflexivity ..
    | reflexivity | reflexivity | split; [discriminate | reflexivity] | reflexivity
    | exact (conj H Hrun)].
Defined.

(** C1 as stated fails when [extent + num_task - 1] leaves the integer type of
    the extent: with an 8-bit extent of 127 and two tasks, the claimed range
    of task 0 is [0, 64); the generated code computes the bounds 0 and -64,
    and the loop of task 0 visits no index.  No 8-bit value of the sum
    [127 + 2 - 1] gives the step 64 when divided by 2, so the claimed range
    is not computed whatever the overflowing addition yields. *)
Lemma block_partition_overflow :
  block_range demo_env_state (demo_machine 0 2) (IntImm (Int 8) 127)
              demo_task_id demo_num_task = Some (0, -64) /\
  block_loop_run 1 demo_env_state (demo_machine 0 2) (IntImm (Int 8) 127)
                 demo_task_id demo_num_task = Some ([], true) /\
  (Z.min (0 * ceil_div 127 2) 127, Z.min ((0 + 1) * ceil_div 127 2) 127) = (0, 64) /\
  (forall x, in_range 8 x -> Z.quot x 2 <> ceil_div 127 2).
Proof.
  split_and!; try (vm_compute; reflexivity).
  intros x [Hl Hu]. change (ceil_div 127 2) with 64. change (2 ^ (8 - 1)) with 128 in *.
  destruct (Z_lt_le_dec x 0) as [Hn|Hp].
  - pose proof (Z.quot_opp_l x 2 ltac:(lia)) as Ho.
    pose proof (Z.quot_pos (- x) 2 ltac:(lia) ltac:(lia)). lia.
  - pose proof (Z.quot_lt_upper_bound x 2 64 Hp ltac:(lia) ltac:(lia)). lia.
Qed.

(** ** The code of a resolution *)

Lemma getEntryBlock_kept f l l' entry :
  blocks_kept l l' -> getEntryBlock f l = Some entry -> getEntryBlock f l' = Some entry.
Proof.
  unfold getEntryBlock. intros Hk H.
  apply fmap_Some in H as ([i x] & Hf & ->). cbn [fst].
  apply list_find_Some in Hf as (Hl & HP & Hlt).
  destruct (Hk i x Hl) as (x' & Hl' & _ & Hp').
  assert (Hf' : list_find (fun b => bb_parent b = f) l' = Some (i, x')).
  { apply list_find_Some. split; [exact Hl'|]. split; [congruence|].
    intros j y' Hj Hji.
    assert (is_Some (l !! j)) as [y Hy]
      by (apply lookup_lt_is_Some; apply lookup_lt_Some in Hl; lia).
    destruct (Hk j y Hy) as (y'' & Hy'' & _ & Hpy).
    assert (y'' = y') by congruence. subst y''. rewrite Hpy. by apply (Hlt j y). }
  by rewrite Hf'.
Qed.

Lemma getEntryBlock_lt f l entry : getEntryBlock f l = Some entry -> (entry < length l)%nat.
Proof.
  unfold getEntryBlock. intros H.
  apply fmap_Some in H as ([i x] & Hf & ->). cbn [fst].
  apply list_find_Some in Hf as (Hl & _). by eapply lookup_lt_Some.
Qed.

Lemma emit_emitted i s : insert_pos s = None -> emit i s = Ok tt (emitted [i] 0 s).
Proof.
  intros Hp. unfold emit, modify. rewrite Hp. f_equal.
  unfold emitted, set_next_inst, set_blocks. destruct s. cbn. by rewrite Nat.add_0_r.
Qed.

Lemma CreateCall_emitted fty callee args s :
  insert_pos s = None ->
  CreateCall fty callee args s =
    Ok (InstResult (next_inst s) (getReturnType fty))
       (emitted [Call (next_inst s) callee args] 1 s).
Proof.
  intros Hp. unfold CreateCall, fresh_inst, mbind, M_bind, emit, modify, mret, M_ret.
  unfold emitted, set_next_inst, set_blocks. destruct s. cbn in *. subst. cbn.
  by rewrite Nat.add_1_r.
Qed.

Lemma CreatePHI_emitted ty s :
  insert_pos s = None ->
  CreatePHI ty s = Ok (InstResult (next_inst s) ty) (emitted [PHI (next_inst s) ty []] 1 s).
Proof.
  intros Hp. unfold CreatePHI, fresh_inst, mbind, M_bind, emit, modify, mret, M_ret.
  unfold emitted, set_next_inst, set_blocks. destruct s. cbn in *. subst. cbn.
  by rewrite Nat.add_1_r.
Qed.

Lemma gets_run {A} (f : CodeGenCPU -> A) s : gets f s = Ok (f s) s.
Proof. reflexivity. Qed.

Lemma BasicBlock_Create_run name f s :
  BasicBlock_Create name f s =
    Ok (length (blocks s)) (set_blocks (blocks s ++ [mkBlock name f []]) s).
Proof. reflexivity. Qed.

Lemma SetInsertPoint_run b s :
  SetInsertPoint b s = Ok tt (set_insert_pos None (set_insert_block b s)).
Proof. reflexivity. Qed.

Lemma addIncoming_run id ty v b s :
  addIncoming (InstResult id ty) v b s =
    Ok tt (set_blocks
             (map (fun bb => mkBlock (bb_name bb) (bb_parent bb)
                                     (map (add_incoming_inst id v b) (bb_insts bb)))
                  (blocks s)) s).
Proof. reflexivity. Qed.

Ltac state_cbn :=
  cbn [insert_pos insert_block next_inst function_ runtime_ blocks globals func_handle_map_
       emitted with_alloca set_next_inst set_blocks set_insert_pos set_insert_block
       set_globals set_func_handle_map_].

Ltac run_side Hp := state_cbn; first [exact Hp | reflexivity].

Ltac run_step Hp :=
  erewrite bind_step;
  [| lazymatch goal with
     | |- gets _ _ = _ => apply gets_run
     | |- BasicBlock_Create _ _ _ = _ => apply BasicBlock_Create_run
     | |- SetInsertPoint _ _ = _ => apply SetInsertPoint_run
     | |- addIncoming _ _ _ _ = _ => apply addIncoming_run
     | |- CreateLoad _ _ _ = _ => apply CreateLoad_emitted; run_side Hp
     | |- CreateStore _ _ _ = _ => apply CreateStore_emitted; run_side Hp
     | |- CreateCall _ _ _ _ = _ => apply CreateCall_emitted; run_side Hp
     | |- CreatePHI _ _ = _ => apply CreatePHI_emitted; run_side Hp
     | |- CheckCallSuccess _ _ = _ => apply CheckCallSuccess_unfold
     | |- emit _ _ = _ => apply emit_emitted; run_side Hp
     end ];
  state_cbn;
  rewrite ?length_alter, ?length_app; cbn [length];
  rewrite ?Nat.add_1_r, ?Nat.add_0_r.

Lemma getEntryBlock_emitted f l k s entry :
  getEntryBlock f (blocks s) = Some entry -> getEntryBlock f (blocks (emitted l k s)) = Some entry.
Proof.
  intros H. cbn [blocks emitted set_next_inst set_blocks].
  eapply getEntryBlock_kept; [|exact H]. apply blocks_kept_alter. by intros [].
Qed.

Lemma getEntryBlock_app f l l2 entry :
  getEntryBlock f l = Some entry -> getEntryBlock f (l ++ l2) = Some entry.
Proof. apply getEntryBlock_kept, blocks_kept_app. Qed.

Lemma list_lookup_map {A B} (f : A -> B) (l : list A) (i : nat) :
  map f l !! i = f <$> (l !! i).
Proof. change (map f l) with (f <$> l). apply list_lookup_fmap. Qed.

Ltac len_side :=
  repeat first [rewrite length_alter | rewrite length_app | rewrite length_map];
  cbn [length]; lia.

Ltac lk :=
  repeat first
    [ rewrite list_lookup_map
    | rewrite list_lookup_alter_eq
    | rewrite list_lookup_alter_ne by lia
    | rewrite lookup_app_l by len_side
    | rewrite list_lookup_middle by len_side ].

Ltac block_cbn :=
  cbn [fmap option_fmap option_map map app add_incoming_inst bb_insts bb_name bb_parent].

Ltac run_handle Hp He Hc entry callee_step :=
  unfold GetPackedFuncHandle, GetInsertBlock;
  run_step Hp; rewrite Hc;
  (erewrite bind_step; [|reflexivity]);
  do 5 run_step Hp;
  unfold CreateCondBr; run_step Hp; run_step Hp;
  (erewrite bind_step;
    [|apply (WithFunctionEntry_alloca _ entry); [reflexivity|];
      state_cbn; eapply getEntryBlock_kept; [|exact He];
      (eapply blocks_kept_trans; [|apply blocks_kept_alter; by intros []]);
      (eapply blocks_kept_trans; [|apply blocks_kept_alter; by intros []]);
      (eapply blocks_kept_trans; [|apply blocks_kept_app]); apply blocks_kept_app]);
  state_cbn; rewrite ?Nat.add_1_r, ?Nat.add_0_r;
  do 2 run_step Hp;
  (erewrite bind_step;
    [|unfold RuntimeTVMGetFuncFromEnv; (erewrite bind_step; [|apply gets_run]);
      state_cbn; callee_step]);
  rewrite ?Nat.add_1_r, ?Nat.add_0_r;
  do 4 run_step Hp;
  unfold CreateBr; do 5 run_step Hp;
  reflexivity.

Ltac handle_facts s entry bb Hbb Hbe :=
  unfold resolution_shape; state_cbn; cbn [length Nat.add app];
  split_and!;
  [ reflexivity
  | destruct (decide (insert_block s = entry)) as [Heq|Hne];
    [ subst entry; exists bb; eexists; split; [exact Hbb|]; split;
      [ lk; rewrite Hbb; block_cbn; rewrite !map_app; cbn [map add_incoming_inst];
        rewrite <- app_assoc; cbn [app]; rewrite app_comm_cons; reflexivity
      | rewrite bool_decide_eq_true_2 by reflexivity;
        cbn [length]; rewrite !length_map; lia ]
    | exists bb; eexists; split; [exact Hbb|]; split;
      [ lk; rewrite Hbb; block_cbn; rewrite !map_app; cbn [map add_incoming_inst];
        rewrite <- app_assoc; reflexivity
      | rewrite bool_decide_eq_false_2 by exact Hne; rewrite !length_map; lia ] ]
  | destruct (decide (insert_block s = entry)) as [Heq|Hne];
    [ subst entry; eexists _, _; split; [lk; rewrite Hbb; block_cbn; reflexivity|];
      reflexivity
    | eexists _, _; split; [lk; rewrite Hbe; block_cbn; reflexivity|]; reflexivity ]
  | lk; block_cbn; reflexivity
  | lk; block_cbn; reflexivity
  | lk; block_cbn; reflexivity
  | lk; repeat (block_cbn; cbn [Nat.eqb]; rewrite ?Nat.eqb_refl); reflexivity
  | len_side
  | reflexivity
  | reflexivity
  | lia
  | let Hreg := fresh "Hreg" in let Hnull := fresh "Hnull" in
    intros m prev hv isnull Hreg Hnull;
    cbn [exec_insts exec_inst eval_value mbind option_bind]; rewrite Hreg;
    destruct hv; cbn in Hnull; try discriminate Hnull; injection Hnull as <-; reflexivity
  | let Hreg := fresh "Hreg" in
    intros m hv Hreg; cbn [exec_insts exec_inst list_find snd];
    rewrite decide_True by reflexivity;
    cbn [fmap option_fmap option_map mbind option_bind snd eval_value];
    rewrite Hreg; reflexivity
  | let Hreg := fresh "Hreg" in
    intros m hv Hreg; cbn [exec_insts exec_inst list_find snd];
    rewrite decide_False by lia; rewrite decide_True by reflexivity;
    cbn [fmap option_fmap option_map mbind option_bind snd eval_value prod_map fst id];
    rewrite Hreg; reflexivity ].

Lemma GetPackedFuncHandle_hit fname (s : CodeGenCPU) (entry : nat) (cell : Value)
    (code : list Instruction) (callee : Value) :
  at_block_end s -> getEntryBlock (function_ s) (blocks s) = Some entry ->
  func_handle_map_ s !! fname = Some cell ->
  env_lookup_callee (runtime_ s) (3 + next_inst s) = Some (code, callee) ->
  exists v s',
    GetPackedFuncHandle fname s = Ok v s' /\
    resolution_shape fname cell entry code callee s s' v.
Proof.
  intros [Hp Hlt] He Hc Henv.
  pose proof (getEntryBlock_lt _ _ _ He) as Hel.
  destruct (lookup_lt_is_Some_2 _ _ Hlt) as [bb Hbb].
  destruct (lookup_lt_is_Some_2 _ _ Hel) as [be Hbe].
  unfold env_lookup_callee in Henv.
  destruct (f_tvm_get_func_from_env_ (runtime_ s)) as [fn|] eqn:Hf;
    [injection Henv as <- <-
    |destruct (gv_tvm_get_func_from_env_ (runtime_ s)) as [g|] eqn:Hg;
       [injection Henv as <- <- | discriminate Henv]].
  - eexists _, _. split.
    + run_handle Hp He Hc entry ltac:(rewrite Hf; reflexivity).
    + handle_facts s entry bb Hbb Hbe.
  - eexists _, _. split.
    + run_handle Hp He Hc entry
        ltac:(rewrite Hf, Hg; unfold GetContextPtr; apply CreateLoad_emitted; run_side Hp).
    + handle_facts s entry bb Hbb Hbe.
Qed.

Lemma GetPackedFuncHandle_miss fname (s : CodeGenCPU) :
  func_handle_map_ s !! fname = None ->
  GetPackedFuncHandle fname s = GetPackedFuncHandle fname (with_handle_cell fname s).
Proof.
  intros Hc. unfold GetPackedFuncHandle.
  rewrite (bind_step _ _ _ _ _ (gets_run func_handle_map_ s)).
  rewrite (bind_step _ _ _ _ _ (gets_run func_handle_map_ (with_handle_cell fname s))).
  rewrite Hc.
  replace (func_handle_map_ (with_handle_cell fname s) !! fname)
    with (Some (GlobalValue (length (globals s)) t_tvm_func_handle_))
    by (symmetry; apply lookup_insert_eq).
  erewrite bind_step; [|reflexivity].
  erewrite (bind_step (mret _)); [|reflexivity].
  unfold with_handle_cell.
  match goal with
  | |- context [func_handle_map_ (set_globals ?x s)] =>
      change (func_handle_map_ (set_globals x s)) with (func_handle_map_ s)
  end.
  match goal with |- ?x = ?x => exact eq_refl end.
Qed.

Lemma GetPackedFuncHandle_callee fname (s s' : CodeGenCPU) (v : Value) (id : nat) :
  GetPackedFuncHandle fname s = Ok v s' -> is_Some (env_lookup_callee (runtime_ s) id).
Proof.
  unfold GetPackedFuncHandle. intros H. bind_inv H.
  all: match goal with
       | Hc : RuntimeTVMGetFuncFromEnv ?x = Ok _ _ |- _ =>
           assert (Hs : is_Some (env_lookup_callee (runtime_ x) id));
           [ unfold RuntimeTVMGetFuncFromEnv in Hc; unfold env_lookup_callee;
             apply bind_Ok in Hc as (r & sr & Hr & Hc); injection Hr as <- <-;
             destruct (f_tvm_get_func_from_env_ (runtime_ x)); [by eexists|];
             destruct (gv_tvm_get_func_from_env_ (runtime_ x)); [by eexists|];
             discriminate Hc
           | clear Hc ]
       end.
  all: step_facts.
  all: unfold same_context in *; destruct_and?.
  all: repeat match goal with
       | Hr : runtime_ ?x = runtime_ ?y |- _ => is_var x; rewrite Hr in *; clear Hr
       end.
  all: exact Hs.
Qed.

Lemma GetPackedFuncHandle_code fname (s s' : CodeGenCPU) (v : Value) (entry : nat) :
  at_block_end s -> getEntryBlock (function_ s) (blocks s) = Some entry ->
  GetPackedFuncHandle fname s = Ok v s' ->
  exists cell,
    func_handle_map_ s' !! fname = Some cell /\ resolution_code fname cell entry s s' v.
Proof.
  intros Hend He H.
  destruct (GetPackedFuncHandle_callee fname s s' v (3 + next_inst s) H)
    as [[code callee] Henv].
  destruct (func_handle_map_ s !! fname) as [cell|] eqn:Hc.
  - destruct (GetPackedFuncHandle_hit fname s entry cell code callee Hend He Hc Henv)
      as (v0 & s0 & Hrun & Hshape).
    rewrite Hrun in H. injection H as <- <-.
    exists cell. split.
    + apply GetPackedFuncHandle_emits in Hrun as [_ Hm]. rewrite Hc in Hm.
      destruct Hm as [_ ->]. exact Hc.
    + exists code, callee. split; [exact Henv | exact Hshape].
  - rewrite (GetPackedFuncHandle_miss fname s Hc) in H.
    set (cell := GlobalValue (length (globals s)) t_tvm_func_handle_).
    assert (Hc0 : func_handle_map_ (with_handle_cell fname s) !! fname = Some cell)
      by apply lookup_insert_eq.
    destruct (GetPackedFuncHandle_hit fname (with_handle_cell fname s) entry cell code callee
                Hend He Hc0 Henv) as (v0 & s0 & Hrun & Hshape).
    rewrite Hrun in H. injection H as <- <-.
    exists cell. split.
    + apply GetPackedFuncHandle_emits in Hrun as [_ Hm]. rewrite Hc0 in Hm.
      destruct Hm as [_ ->]. exact Hc0.
    + exists code, callee. split; [exact Henv | exact Hshape].
Qed.

(** C4 (amended).  Every resolution of a function name emits the same code:
    the fast path (the load of the cell and the null check that guards the
    initialization block) and the slow path (the load of the module context,
    the get-function-by-name call and, after its status check, the store of
    the handle into the cell), joined by a phi.  What is memoized is the
    cell: when the name is resolved a second time, the second resolution
    goes through the global cell of the first, adds no global and leaves the
    handle cache as it is; each resolution adds one get-function-by-name
    call for that name to the module. *)
Theorem handle_cache_memoization (fname : string) (s s1 s2 : CodeGenCPU) (v1 v2 : Value)
    (entry : nat) :
  at_block_end s -> getEntryBlock (function_ s) (blocks s) = Some entry ->
  GetPackedFuncHandle fname s = Ok v1 s1 ->
  GetPackedFuncHandle fname s1 = Ok v2 s2 ->
  (exists cell,
     func_handle_map_ s1 !! fname = Some cell /\ func_handle_map_ s2 !! fname = Some cell /\
     resolution_code fname cell entry s s1 v1 /\
     resolution_code fname cell entry s1 s2 v2) /\
  globals s2 = globals s1 /\ func_handle_map_ s2 = func_handle_map_ s1 /\
  lookup_calls fname s1 = S (lookup_calls fname s) /\
  lookup_calls fname s2 = S (lookup_calls fname s1).
Proof.
  intros Hend He H1 H2.
  destruct (GetPackedFuncHandle_code fname s s1 v1 entry Hend He H1) as (cell & Hc1 & Hcode1).
  assert (Hend1 : at_block_end s1).
  { destruct Hcode1 as (code & callee & _ & Hshape).
    destruct Hshape as (_ & _ & _ & _ & _ & _ & _ & Hlen & Hib & Hip & _).
    split; [exact Hip|]. rewrite Hib, Hlen. lia. }
  assert (He1 : getEntryBlock (function_ s1) (blocks s1) = Some entry).
  { pose proof (GetPackedFuncHandle_ctx fname _ _ _ H1) as (_ & _ & Hf & _).
    pose proof (GetPackedFuncHandle_grows fname _ _ _ H1) as (_ & _ & Hk & _).
    rewrite Hf. by eapply getEntryBlock_kept. }
  destruct (GetPackedFuncHandle_code fname s1 s2 v2 entry Hend1 He1 H2)
    as (cell2 & Hc2 & Hcode2).
  pose proof H1 as H1'. pose proof H2 as H2'.
  apply GetPackedFuncHandle_emits in H1' as [Hl1 _].
  apply GetPackedFuncHandle_emits in H2' as [Hl2 Hcell2].
  rewrite Hc1 in Hcell2. destruct Hcell2 as [Hg Hm].
  assert (cell2 = cell) by (rewrite Hm, Hc1 in Hc2; by injection Hc2). subst cell2.
  refine (conj _ (conj Hg (conj Hm (conj Hl1 Hl2)))).
  exists cell. split; [exact Hc1|]. split; [exact Hc2|]. split; [exact Hcode1 | exact Hcode2].
Qed.

Lemma handle_cache_memoization_witness :
  globals demo_resolved_twice = globals demo_resolved_once /\
  lookup_calls "f" demo_resolved_twice = S (lookup_calls "f" demo_resolved_once) /\
  exists cell v, resolution_code "f" cell (insert_block demo_state)
                   demo_resolved_once demo_resolved_twice v.
Proof.
  assert (H1 : exists v, GetPackedFuncHandle "f" demo_state = Ok v demo_resolved_once)
    by (eexists; vm_compute; reflexivity).
  assert (H2 : exists v, GetPackedFuncHandle "f" demo_resolved_once = Ok v demo_resolved_twice)
    by (eexists; vm_compute; reflexivity).
  destruct H1 as [v1 H1]. destruct H2 as [v2 H2].
  destruct (handle_cache_memoization "f" demo_state demo_resolved_once demo_resolved_twice
              v1 v2 (insert_block demo_state))
    as ((cell & _ & _ & _ & Hcode) & Hg & _ & _ & Hc);
    [split; [reflexivity | vm_compute; lia] | vm_compute; reflexivity | exact H1 | exact H2 |].
  split; [exact Hg|]. split; [exact Hc|]. exists cell, v2. exact Hcode.
Defined.
